(** * goauld: a JSON-LD document index on an ordered key/value store

    A shallow embedding of the Go package [goauld] (scalars, term paths,
    query parts, the value extractor and the collection layer) together with
    the properties of its specification that were checked against it.

    Conventions of the embedding
    - a Go [byte] is a [Z] in [0, 256); a [[]byte] is a [list Z];
    - a Go [string] is a sequence of bytes, here a [string] of 8-bit
      characters; [[]byte(s)] is [bytes_of_string s];
    - a [float64] is represented by its IEEE-754 bit pattern, a [Z] in
      [0, 2^64): the package never computes with doubles, it only takes
      [math.Float64bits] of them;
    - a value of type [interface{}] is an element of the inductive [any];
    - a function returning [(T, error)] returns a [result T]; a panic is a
      separate outcome, see [outcome]. *)

From Stdlib Require Import ZArith QArith Lia List Ascii String.
From stdpp Require Import gmap strings list fin_maps sorting.

Set Warnings "-register-all".
#[local] Open Scope Z_scope.

(** ** Bytes and strings *)

Abbreviation bytes := (list Z) (only parsing).

Definition byte_of_ascii (a : ascii) : Z := Z.of_N (N_of_ascii a).

(** [[]byte(s)]: the bytes of a Go string, in order, nothing appended. *)
Definition bytes_of_string (s : string) : bytes :=
  map byte_of_ascii (list_ascii_of_string s).

Definition is_byte (b : Z) : Prop := 0 <= b < 256.

(** ** Errors

    The package's sentinel errors are distinct values created by
    [errors.New]; errors of collaborators are kept apart from them by their
    constructor. *)

Inductive error : Type :=
| ErrNoQuery                      (* "no query given" *)
| ErrNoIndex                      (* "no index found" *)
| ErrInvalidJSON                  (* "invalid json" *)
| ErrInvalidValue                 (* "invalid value" *)
| Canceled                        (* context.Canceled *)
| DeadlineExceeded                (* context.DeadlineExceeded *)
| JSONSyntaxError (msg : string) (offset : Z)   (* *json.SyntaxError *)
| JsonLdError (code : string)     (* *ld.JsonLdError of the processor *)
| StoreError (msg : string)       (* error of the key/value store *)
| OtherError (msg : string).      (* any other errors.New value *)

Inductive result (A : Type) : Type :=
| Ok (a : A)
| Err (e : error).
Arguments Ok {A} a.
Arguments Err {A} e.

Definition is_Ok {A : Type} (r : result A) : bool :=
  match r with
  | Ok _ => true
  | Err _ => false
  end.

(** A call that may panic instead of returning. *)
Inductive outcome (A : Type) : Type :=
| Ret (a : A)
| Panic (msg : string).
Arguments Ret {A} a.
Arguments Panic {A} msg.

Definition obind {A B} (o : outcome A) (k : A -> outcome B) : outcome B :=
  match o with
  | Ret a => k a
  | Panic m => Panic m
  end.

Definition returned {A} (o : outcome A) : option A :=
  match o with
  | Ret a => Some a
  | Panic _ => None
  end.

(** ** Dynamic values: [interface{}] *)

Inductive any : Type :=
| VNil                                  (* the nil interface value *)
| VBool (b : bool)
| VString (s : string)
| VFloat64 (f : Z)                      (* bit pattern of the double *)
| VInt (n : Z)
| VUint32 (n : Z)
| VBytes (b : list Z)                   (* []uint8 *)
| VSlice (l : list any)                 (* []interface{} *)
| VMap (m : list (string * any)).       (* map[string]interface{} *)

(** [m[k]] on a [map[string]interface{}]. A Go map holds one value per key;
    in the association list the first binding of a key is the map's. *)
Fixpoint map_lookup (m : list (string * any)) (k : string) : option any :=
  match m with
  | [] => None
  | (k', v) :: m' => if String.eqb k' k then Some v else map_lookup m' k
  end.

(** ** [math.Float64bits], [math.Float64frombits], [encoding/binary] *)

Definition is_float64 (f : Z) : Prop := 0 <= f < 2 ^ 64.

Definition Float64bits (f : Z) : Z := f mod 2 ^ 64.
Definition Float64frombits (u : Z) : Z := u mod 2 ^ 64.

(** [byte(v >> k)]: conversion to [byte] keeps the low 8 bits. *)
Definition byte_at (v k : Z) : Z := Z.land (Z.shiftr v k) 255.

(** [binary.BigEndian.PutUint64(buf[:], v)] on an 8-byte buffer. *)
Definition PutUint64 (v : Z) : bytes :=
  [ byte_at v 56; byte_at v 48; byte_at v 40; byte_at v 32;
    byte_at v 24; byte_at v 16; byte_at v 8; byte_at v 0 ].

(** [binary.BigEndian.PutUint32]. *)
Definition PutUint32 (v : Z) : bytes :=
  [ byte_at v 24; byte_at v 16; byte_at v 8; byte_at v 0 ].

(** [binary.BigEndian.Uint64(b)]; it panics (index out of range) on fewer
    than 8 bytes. *)
Definition Uint64 (b : bytes) : option Z :=
  match b with
  | b0 :: b1 :: b2 :: b3 :: b4 :: b5 :: b6 :: b7 :: _ =>
      Some (Z.lor b7 (Z.lor (Z.shiftl b6 8) (Z.lor (Z.shiftl b5 16)
           (Z.lor (Z.shiftl b4 24) (Z.lor (Z.shiftl b3 32)
           (Z.lor (Z.shiftl b2 40) (Z.lor (Z.shiftl b1 48)
                  (Z.shiftl b0 56))))))))
  | _ => None
  end.

(** ** Scalars (part_000: [Scalar], [ScalarParse], [Scalar.Bytes]) *)

Record Scalar : Type := mkScalar { value : any }.

Definition ScalarParse (v : any) : result Scalar :=
  match v with
  | VBool _ => Ok (mkScalar v)
  | VString _ => Ok (mkScalar v)
  | VFloat64 _ => Ok (mkScalar v)
  | _ => Err ErrInvalidValue
  end.

Definition ScalarMustParse (v : any) : outcome Scalar :=
  match ScalarParse v with
  | Ok s => Ret s
  | Err _ => Panic "invalid value"
  end.

Definition Bytes (s : Scalar) : bytes :=
  match value s with
  | VBool castData => if castData then [1] else [0]
  | VString castData => bytes_of_string castData
  | VFloat64 castData => PutUint64 (Float64bits castData)
  | _ => []
  end.

(** [toBytes], the helper next to [Scalar.Bytes]. *)
Definition toBytes (data : any) : result bytes :=
  match data with
  | VBytes castData => Ok castData
  | VUint32 castData => Ok (PutUint32 castData)
  | VString castData => Ok (bytes_of_string castData)
  | VFloat64 castData => Ok (PutUint64 (Float64bits castData))
  | _ => Err (OtherError "couldn't convert data to []byte")
  end.

(** The kinds [ScalarParse] lets through. *)
Definition scalar_kind (v : any) : bool :=
  match v with
  | VBool _ | VString _ | VFloat64 _ => true
  | _ => false
  end.

(** Typed decoders of the round trip. The decoder of doubles is the one of
    the package's test ([binary.BigEndian.Uint64] then
    [math.Float64frombits]); the decoder of booleans reads the first byte as
    "non-zero". *)
Definition decode_bool (b : bytes) : option bool :=
  match b with
  | x :: _ => Some (negb (x =? 0))
  | [] => None
  end.

Definition decode_float64 (b : bytes) : option Z :=
  option_map Float64frombits (Uint64 b).

(** ** Term paths (part_000) *)

Record TermPath : Type := NewTermPath { Terms : list string }.

Definition IsEmpty (tp : TermPath) : bool :=
  Nat.eqb (length (Terms tp)) 0.

Definition Head (tp : TermPath) : string :=
  match Terms tp with
  | [] => EmptyString
  | t :: _ => t
  end.

Definition Tail (tp : TermPath) : TermPath :=
  match Terms tp with
  | [] | [_] => NewTermPath []
  | _ :: rest => NewTermPath rest
  end.

Fixpoint terms_eqb (a b : list string) : bool :=
  match a, b with
  | [], [] => true
  | x :: a', y :: b' => String.eqb x y && terms_eqb a' b'
  | _, _ => false
  end.

Definition TermPath_Equals (tp other : TermPath) : bool :=
  terms_eqb (Terms tp) (Terms other).

(** ** [bytes.Compare], [bytes.HasPrefix] *)

(** [bytes.Compare(a, b)]: -1, 0 or +1, lexicographically. *)
Fixpoint bytes_Compare (a b : bytes) : Z :=
  match a, b with
  | [], [] => 0
  | [], _ :: _ => -1
  | _ :: _, [] => 1
  | x :: a', y :: b' =>
      if x <? y then -1 else if y <? x then 1 else bytes_Compare a' b'
  end.

Fixpoint bytes_Equal (a b : bytes) : bool :=
  match a, b with
  | [], [] => true
  | x :: a', y :: b' => (x =? y) && bytes_Equal a' b'
  | _, _ => false
  end.

(** [bytes.HasPrefix(s, prefix)] is
    [len(s) >= len(prefix) && Equal(s[:len(prefix)], prefix)]. *)
Definition bytes_HasPrefix (s prefix : bytes) : bool :=
  (length prefix <=? length s)%nat && bytes_Equal (take (length prefix) s) prefix.

(** The order the index keys are compared in, stated on its own:
    lexicographic on bytes, a proper prefix first. *)
Inductive lex_le : bytes -> bytes -> Prop :=
| lex_le_nil b : lex_le [] b
| lex_le_lt x y a b : x < y -> lex_le (x :: a) (y :: b)
| lex_le_eq x a b : lex_le a b -> lex_le (x :: a) (x :: b).

(** ** Query parts (search.go) *)

Definition Transform : Type := Scalar -> Scalar.

(** The three implementations of the [QueryPart] interface. *)
Inductive QueryPart : Type :=
| eqPart (termPath : TermPath) (v : Scalar)
| rangePart (termPath : TermPath) (begin end_ : Scalar)
| prefixPart (termPath : TermPath) (v : Scalar).

Definition Eq (termPath : TermPath) (v : Scalar) : QueryPart := eqPart termPath v.
Definition Range (termPath : TermPath) (begin end_ : Scalar) : QueryPart :=
  rangePart termPath begin end_.
Definition Prefix (termPath : TermPath) (v : Scalar) : QueryPart :=
  prefixPart termPath v.

Definition QueryPart_TermPath (p : QueryPart) : TermPath :=
  match p with
  | eqPart tp _ | rangePart tp _ _ | prefixPart tp _ => tp
  end.

Definition QueryPart_Equals (p other : QueryPart) : bool :=
  TermPath_Equals (QueryPart_TermPath p) (QueryPart_TermPath other).

Definition Seek (p : QueryPart) : Scalar :=
  match p with
  | eqPart _ v => v
  | rangePart _ begin _ => begin
  | prefixPart _ v => v
  end.

(** [Condition(key, transform)]; a nil [transform] is [None]. *)
Definition Condition (p : QueryPart) (key : bytes) (transform : option Transform) : bool :=
  match p with
  | eqPart _ v =>
      match transform with
      | Some t => let transformed := t v in bytes_Compare key (Bytes transformed) =? 0
      | None => bytes_Compare key (Bytes v) =? 0
      end
  | rangePart _ begin end_ =>
      let bTransformed := match transform with Some t => t begin | None => begin end in
      let eTransformed := match transform with Some t => t end_ | None => end_ end in
      if bytes_Compare key (Bytes bTransformed) <? 0 then false
      else bytes_Compare key (Bytes eTransformed) <=? 0
  | prefixPart _ v =>
      let transformed := match transform with Some t => t v | None => v end in
      bytes_HasPrefix key (Bytes transformed)
  end.

(** What the specification's table says about [transform?]: the scalar the
    condition compares the key with. *)
Definition transformed_by (transform : option Transform) (s : Scalar) : Scalar :=
  match transform with
  | Some t => t s
  | None => s
  end.

(** ** Slices and their backing arrays

    A slice is a header [(ptr, len, cap)] into a backing array of the heap.
    The slices of this package are made by composite literals and by
    [append] only, so a slice starts at the first cell of its array and its
    capacity is the length of the array. *)

Record slice : Type := mkSlice { ptr : nat; len : nat; cap : nat }.

(** The capacity [runtime.growslice] of the gc toolchain (go 1.17, the
    version of go.mod) chooses for [needed] elements, before it rounds the
    allocation up to a malloc size class; arrays of 1, 2, 4, 8, ... interface
    values (16 bytes each) fill a size class exactly. *)
Fixpoint grow_by_quarter (fuel newcap needed : nat) : nat :=
  match fuel with
  | O => Nat.max newcap needed
  | S fuel' =>
      if (newcap <? needed)%nat
      then grow_by_quarter fuel' (newcap + newcap / 4)%nat needed
      else newcap
  end.

Definition growslice_newcap (oldcap needed : nat) : nat :=
  let doublecap := (oldcap + oldcap)%nat in
  if (doublecap <? needed)%nat then needed
  else if (oldcap <? 1024)%nat then doublecap
  else grow_by_quarter 4 oldcap needed.

Section GoSlice.

Context {A : Type}.
Variable zero : A.                      (* the zero value of the element type *)

Definition slice_elems (h : gmap nat (list A)) (s : slice) : list A :=
  take (len s) (default [] (h !! ptr s)).

(** [[]A{x}] *)
Definition slice_lit1 (h : gmap nat (list A)) (x : A) : gmap nat (list A) * slice :=
  let p := fresh (dom h) in
  (<[p := [x]]> h, mkSlice p 1 1).

(** [append(s, x)]: with room left the element is written into the shared
    array, at index [len s]; otherwise the elements are copied to a new,
    larger array. *)
Definition append (h : gmap nat (list A)) (s : slice) (x : A) : gmap nat (list A) * slice :=
  if (len s <? cap s)%nat then
    (alter (fun a => <[len s := x]> a) (ptr s) h,
     mkSlice (ptr s) (S (len s)) (cap s))
  else
    let newcap := growslice_newcap (cap s) (S (len s)) in
    let p := fresh (dom h) in
    (<[p := slice_elems h s ++ x :: replicate (newcap - S (len s)) zero]> h,
     mkSlice p (S (len s)) newcap).

(** The header describes an array of the heap. *)
Definition slice_wf (h : gmap nat (list A)) (s : slice) : Prop :=
  exists a, h !! ptr s = Some a /\ length a = cap s /\ (len s <= cap s)%nat.

End GoSlice.

(** ** Queries (search.go: [query], [New], [And], [Parts])

    A [QueryPart] is an interface value: [None] is nil. *)

Record query : Type := mkQuery { parts : slice }.

(** A [Query] is an interface value as well; [None] is the nil query. *)
Definition Query : Type := option query.

Abbreviation heap := (gmap nat (list (option QueryPart))).

Definition New (h : heap) (part : option QueryPart) : heap * query :=
  let '(h', s) := slice_lit1 h part in (h', mkQuery s).

(** [q.parts = append(q.parts, part); return q] on a copy [q] of the
    receiver: the copy has the receiver's slice header. *)
Definition And (h : heap) (q : query) (part : option QueryPart) : heap * query :=
  let '(h', s) := append None h (parts q) part in (h', mkQuery s).

(** The elements [q.Parts()] shows in heap [h]. *)
Definition Parts (h : heap) (q : query) : list (option QueryPart) :=
  slice_elems h (parts q).

(** Three derivations from one base query, as a caller writes them:
    [base := New(p0).And(p1).And(p2); qa := base.And(a); qb := base.And(b)]. *)
Definition two_from_one_base (p0 p1 p2 a b : option QueryPart)
  : heap * heap * query * query * query :=
  let '(h0, q0) := New ∅ p0 in
  let '(h1, q1) := And h0 q0 p1 in
  let '(h2, base) := And h1 q1 p2 in
  let '(h3, qa) := And h2 base a in
  let '(h4, qb) := And h3 base b in
  (h3, h4, base, qa, qb).

Definition test_part (term : string) (v : string) : option QueryPart :=
  Some (Eq (NewTermPath [term]) (mkScalar (VString v))).

(** ** The value extractor (search.go: [ValuesAtPath],
       [valuesFromSliceAtPath], [valuesFromMapAtPath]) *)

(** The loops [scalars[i] = ScalarMustParse(s)]; the first element that does
    not parse panics. *)
Fixpoint mustParseAll (l : list any) : outcome (list Scalar) :=
  match l with
  | [] => Ret []
  | s :: rest =>
      obind (ScalarMustParse s) (fun x =>
      obind (mustParseAll rest) (fun r => Ret (x :: r)))
  end.

(** The type assertion [v.([]interface{})] without the [ok] result. *)
Definition assertSlice (v : any) : outcome (list any) :=
  match v with
  | VSlice l => Ret l
  | _ => Panic "interface conversion: interface {} is not []interface {}"
  end.

(** The four [if ..., ok := expanded["@..."]; ok] of [valuesFromMapAtPath];
    [None] when none of them returns. *)
Definition keywordValues (expanded : list (string * any)) : option (outcome (list Scalar)) :=
  match map_lookup expanded "@value" with
  | Some v => Some (obind (ScalarMustParse v) (fun s => Ret [s]))
  | None =>
  match map_lookup expanded "@id" with
  | Some id => Some (obind (ScalarMustParse id) (fun s => Ret [s]))
  | None =>
  match map_lookup expanded "@list" with
  | Some list => Some (obind (assertSlice list) mustParseAll)
  | None =>
  match map_lookup expanded "@set" with
  | Some set => Some (obind (assertSlice set) mustParseAll)
  | None => None
  end end end end.

(** [valuesFromSliceAtPath] and [valuesFromMapAtPath] call each other; they
    are the two branches [VSlice] and [VMap] of one structural recursion on
    the tree. The inner [fix]es are the [range] loop over the slice and the
    map access [expanded[termPath.Head()]]; see [valuesFromSliceAtPath_cons]
    and [valuesFromMapAtPath_eq] for the two functions as the source writes
    them. *)
Fixpoint valuesAtPath (sub : any) (termPath : TermPath) {struct sub} : outcome (list Scalar) :=
  match sub with
  | VSlice expanded =>
      (fix range (l : list any) : outcome (list Scalar) :=
         match l with
         | [] => Ret []
         | sub' :: rest =>
             obind (match sub' with
                    | VSlice _ | VMap _ => valuesAtPath sub' termPath
                    | _ => Ret []
                    end) (fun r1 =>
             obind (range rest) (fun r2 => Ret (r1 ++ r2)))
         end) expanded
  | VMap expanded =>
      match (if IsEmpty termPath then keywordValues expanded else None) with
      | Some r => r
      | None =>
          (fix index (m : list (string * any)) : outcome (list Scalar) :=
             match m with
             | [] => Ret []
             | (k, v) :: m' =>
                 if String.eqb k (Head termPath) then
                   match v with
                   | VSlice _ => valuesAtPath v (Tail termPath)
                   | _ => Ret []
                   end
                 else index m'
             end) expanded
      end
  | _ => Ret []
  end.

Definition valuesFromSliceAtPath (expanded : list any) (termPath : TermPath)
  : outcome (list Scalar) :=
  valuesAtPath (VSlice expanded) termPath.

Definition valuesFromMapAtPath (expanded : list (string * any)) (termPath : TermPath)
  : outcome (list Scalar) :=
  valuesAtPath (VMap expanded) termPath.

(** Errors of the two collaborators of [ValuesAtPath]: [json.Unmarshal] into
    an [interface{}] fails with a [*json.SyntaxError] only, the JSON-LD
    processor with a [*ld.JsonLdError]. *)
Inductive SyntaxError : Type := mkSyntaxError (msg : string) (Offset : Z).
Inductive LdError : Type := mkLdError (Code : string).

Definition error_of_SyntaxError (e : SyntaxError) : error :=
  let 'mkSyntaxError msg off := e in JSONSyntaxError msg off.
Definition error_of_LdError (e : LdError) : error :=
  let 'mkLdError code := e in JsonLdError code.

Section Extractor.

(** [json.Unmarshal(document, &input)] and
    [c.documentProcessor.Expand(input, nil)]. *)
Variable Unmarshal : list Z -> SyntaxError + any.
Variable Expand : any -> LdError + list any.

Definition ValuesAtPath (document : list Z) (termPath : TermPath)
  : outcome (result (list Scalar)) :=
  if Nat.eqb (length (Terms termPath)) 0 then Ret (Ok [])
  else
    match Unmarshal document with
    | inl err => Ret (Err (error_of_SyntaxError err))
    | inr input =>
        match Expand input with
        | inl err => Ret (Err (error_of_LdError err))
        | inr expanded =>
            obind (valuesFromSliceAtPath expanded termPath) (fun r => Ret (Ok r))
        end
    end.

End Extractor.

(** *** The recursion of the specification (section 4.2)

    Written from the words of the specification, to be compared with
    [valuesAtPath]. [parse] is [ScalarParse]; the recursion has no value
    ([None]) where a [parse] it asks for fails or where the [@list] or [@set]
    whose scalars it asks for is not a list. *)

Definition spec_parse (v : any) : option Scalar :=
  match ScalarParse v with
  | Ok s => Some s
  | Err _ => None
  end.

Fixpoint spec_parse_all (l : list any) : option (list Scalar) :=
  match l with
  | [] => Some []
  | v :: rest =>
      match spec_parse v, spec_parse_all rest with
      | Some s, Some r => Some (s :: r)
      | _, _ => None
      end
  end.

Definition spec_parsed_scalars (v : any) : option (list Scalar) :=
  match v with
  | VSlice l => spec_parse_all l
  | _ => None
  end.

(** "If the path is empty, return [parse(m["@value"])] if present; else
    [parse(m["@id"])] if present; else the parsed scalars of [m["@list"]] in
    order if present; else the parsed scalars of [m["@set"]] in order if
    present; else empty." *)
Definition spec_node_value (m : list (string * any)) : option (list Scalar) :=
  match map_lookup m "@value" with
  | Some v => option_map (fun s => [s]) (spec_parse v)
  | None =>
  match map_lookup m "@id" with
  | Some v => option_map (fun s => [s]) (spec_parse v)
  | None =>
  match map_lookup m "@list" with
  | Some l => spec_parsed_scalars l
  | None =>
  match map_lookup m "@set" with
  | Some l => spec_parsed_scalars l
  | None => Some []
  end end end end.

Fixpoint spec_values (node : any) (path : list string) {struct node} : option (list Scalar) :=
  match node with
  | VSlice elems =>
      (* at a list node, recurse into each element and concatenate *)
      (fix each (l : list any) : option (list Scalar) :=
         match l with
         | [] => Some []
         | e :: rest =>
             match spec_values e path, each rest with
             | Some a, Some b => Some (a ++ b)
             | _, _ => None
             end
         end) elems
  | VMap m =>
      match path with
      | [] => spec_node_value m
      | head :: tail =>
          (* look up m[head]; if it is a list, recurse into it with tail;
             otherwise return empty *)
          (fix lookup_head (m : list (string * any)) : option (list Scalar) :=
             match m with
             | [] => Some []
             | (k, v) :: m' =>
                 if String.eqb k head then
                   match v with
                   | VSlice _ => spec_values v tail
                   | _ => Some []
                   end
                 else lookup_head m'
             end) m
      end
  | _ => Some []   (* a scalar where a list was expected yields empty *)
  end.

Section SpecExtractor.

Variable Unmarshal : list Z -> SyntaxError + any.
Variable Expand : any -> LdError + list any.

(** "Parse the document as JSON, expand it using the JSON-LD processor to
    produce a list of nodes. Recurse." *)
Definition spec_values_at_path (document : list Z) (path : list string)
  : result (option (list Scalar)) :=
  match Unmarshal document with
  | inl err => Err (error_of_SyntaxError err)
  | inr input =>
      match Expand input with
      | inl err => Err (error_of_LdError err)
      | inr nodes => Ok (spec_values (VSlice nodes) path)
      end
  end.

End SpecExtractor.

(** What a caller sees of a call that returns or panics, in the shape of the
    specification's result. *)
Definition observed (o : outcome (result (list Scalar))) : result (option (list Scalar)) :=
  match o with
  | Ret (Ok l) => Ok (Some l)
  | Ret (Err e) => Err e
  | Panic _ => Ok None
  end.

(** No map of the tree has the empty string as a key. Expanded JSON-LD has
    absolute IRIs, blank node identifiers and keywords as keys. *)
Fixpoint no_empty_key (v : any) : bool :=
  match v with
  | VSlice l => forallb no_empty_key l
  | VMap m =>
      (fix all (m : list (string * any)) : bool :=
         match m with
         | [] => true
         | (k, v') :: m' => negb (String.eqb k EmptyString) && no_empty_key v' && all m'
         end) m
  | _ => true
  end.

(** *** Sample documents

    [json.Unmarshal] and JSON-LD expansion are collaborators; the samples
    give their results on three documents: the empty document and a plain
    text, which are not JSON, and a document that is in expanded form
    already and expands to itself. *)

Definition doc_empty : list Z := [].

Definition dq : string := String "034"%char EmptyString.   (* the double quote *)

(** [[{"@id":"http://example.org/jane","http://schema.org/name":[{"@value":"Jane Doe"}]}]] *)
Definition doc_jane_text : string :=
  String.concat dq
    [ "[{"; "@id"; ":"; "http://example.org/jane"; ","; "http://schema.org/name";
      ":[{"; "@value"; ":"; "Jane Doe"; "}]}]" ]%string.

Definition doc_jane : list Z := bytes_of_string doc_jane_text.

Definition doc_jane_tree : any :=
  VSlice [ VMap [ ("@id", VString "http://example.org/jane");
                  ("http://schema.org/name", VSlice [ VMap [ ("@value", VString "Jane Doe") ] ]) ] ].

(** A text that is not JSON; [json.Unmarshal] stops at its second byte. *)
Definition doc_text : list Z := bytes_of_string "not json".

Definition sample_Unmarshal (document : list Z) : SyntaxError + any :=
  if bytes_Equal document doc_jane then inr doc_jane_tree
  else if bytes_Equal document doc_empty
       then inl (mkSyntaxError "unexpected end of JSON input" 0)
  else if bytes_Equal document doc_text
       then inl (mkSyntaxError "invalid character 'o' in literal null (expecting 'u')" 2)
  else inl (mkSyntaxError "not one of the sample documents" 0).

Definition sample_Expand (input : any) : LdError + list any :=
  match input with
  | VSlice nodes => inr nodes
  | _ => inl (mkLdError "loading document failed")
  end.

Definition name_path : TermPath := NewTermPath ["http://schema.org/name"%string].

(** ** The key/value store (bbolt), as far as the collection uses it

    A bucket maps keys to values or to nested buckets; a transaction works
    on the root bucket. A bucket handle of the Go code is the place of the
    bucket in the tree: an operation through a handle rewrites the bucket at
    that place. *)

Inductive node : Type :=
| Leaf (v : list Z)
| Nested (b : gmap (list Z) node).

Abbreviation Bucket := (gmap (list Z) node).

Definition ErrBucketNameRequired : error := StoreError "bucket name required".
Definition ErrIncompatibleValue : error := StoreError "incompatible value".
Definition ErrKeyRequired : error := StoreError "key required".
Definition ErrKeyTooLarge : error := StoreError "key too large".
Definition ErrValueTooLarge : error := StoreError "value too large".
Definition ErrBucketNotFound : error := StoreError "bucket not found".

Definition MaxKeySize : Z := 32768.
Definition MaxValueSize : Z := 2 ^ 31 - 2.

(** [b.Bucket(name)], nil when there is no such bucket. *)
Definition Bucket_Bucket (b : Bucket) (name : list Z) : option Bucket :=
  match b !! name with
  | Some (Nested c) => Some c
  | _ => None
  end.

(** [b.CreateBucketIfNotExists(name)]: the bucket [b] afterwards and the
    contents of the bucket [name] in it. *)
Definition CreateBucketIfNotExists (b : Bucket) (name : list Z) : result (Bucket * Bucket) :=
  match name with
  | [] => Err ErrBucketNameRequired
  | _ =>
      match b !! name with
      | Some (Nested c) => Ok (b, c)
      | Some (Leaf _) => Err ErrIncompatibleValue
      | None => Ok (<[name := Nested ∅]> b, ∅)
      end
  end.

Definition Bucket_Put (b : Bucket) (key val : list Z) : result Bucket :=
  match key with
  | [] => Err ErrKeyRequired
  | _ =>
      if MaxKeySize <? Z.of_nat (length key) then Err ErrKeyTooLarge
      else if MaxValueSize <? Z.of_nat (length val) then Err ErrValueTooLarge
      else match b !! key with
           | Some (Nested _) => Err ErrIncompatibleValue
           | _ => Ok (<[key := Leaf val]> b)
           end
  end.

(** [b.Get(key)], nil for a missing key and for a nested bucket. *)
Definition Bucket_Get (b : Bucket) (key : list Z) : option (list Z) :=
  match b !! key with
  | Some (Leaf v) => Some v
  | _ => None
  end.

Definition Bucket_Delete (b : Bucket) (key : list Z) : result Bucket :=
  match b !! key with
  | None => Ok b
  | Some (Nested _) => Err ErrIncompatibleValue
  | Some (Leaf _) => Ok (delete key b)
  end.

(** The pairs a cursor yields from [First()] on, in the byte order of the
    keys; the value of a nested bucket is nil. *)
Definition key_le (x y : list Z * node) : Prop := bytes_Compare x.1 y.1 <= 0.

#[local] Instance key_le_dec : RelDecision key_le.
Proof. intros x y. unfold key_le. apply Z_le_dec. Defined.

Definition cursor_pairs (b : Bucket) : list (list Z * list Z) :=
  map (fun kv => (kv.1, match kv.2 with Leaf v => v | Nested _ => [] end))
      (merge_sort key_le (map_to_list b)).

(** An operation through the handle of the bucket [name] of [parent]. *)
Definition through (parent : Bucket) (name : list Z) (op : Bucket -> result Bucket)
  : result Bucket :=
  match Bucket_Bucket parent name with
  | None => Err ErrBucketNotFound
  | Some child =>
      match op child with
      | Ok child' => Ok (<[name := Nested child']> parent)
      | Err e => Err e
      end
  end.

(** [db.Update(fn)]: commit when [fn] returns nil, roll back otherwise.
    [db.View(fn)] reads the committed root. *)
Definition Update (db : Bucket) (fn : Bucket -> result Bucket) : Bucket * option error :=
  match fn db with
  | Ok db' => (db', None)
  | Err e => (db, Some e)
  end.

(** ** Indices, as the collection sees them

    [Index] is an interface. The collection uses the methods below; the
    implementation of the package (index.go) is not part of these sources.
    [Index_Add] and [Index_Delete] receive the bucket of the collection and
    give it back changed. *)

Record Index : Type := mkIndex {
  Index_Name : string;
  Index_BucketName : list Z;
  Index_Add : Bucket -> list Z -> list Z -> result Bucket;
  Index_Delete : Bucket -> list Z -> list Z -> result Bucket;
  Index_IsMatch : heap -> Query -> Q;
}.

(** ** Collections (search.go) *)

Definition documentBucket : string := "_documents".
Definition documentBucketByteRef : list Z := bytes_of_string documentBucket.

Record collection : Type := mkCollection {
  Name : string;
  IndexList : list Index;
  refMake : list Z -> list Z;
}.

Definition with_IndexList (c : collection) (l : list Index) : collection :=
  {| Name := Name c; IndexList := l; refMake := refMake c |}.

Definition collection_Reference (c : collection) (doc : list Z) : list Z :=
  refMake c doc.

(** An index keeps its hands off the documents: what the specification's
    layout [<collection>/<index>/<key>/<ref>] says of every index. *)
Definition index_frame (i : Index) : Prop :=
  forall b ref doc b',
    Index_Add i b ref doc = Ok b' \/ Index_Delete i b ref doc = Ok b' ->
    b' !! documentBucketByteRef = b !! documentBucketByteRef.

(** [for _, i := range c.IndexList { err = i.Add(bucket, ref, doc) ... }] *)
Fixpoint add_to_indices (l : list Index) (bucket : Bucket) (ref doc : list Z) : result Bucket :=
  match l with
  | [] => Ok bucket
  | i :: rest =>
      match Index_Add i bucket ref doc with
      | Ok bucket' => add_to_indices rest bucket' ref doc
      | Err err => Err err
      end
  end.

Fixpoint delete_from_indices (l : list Index) (bucket : Bucket) (ref doc : list Z) : result Bucket :=
  match l with
  | [] => Ok bucket
  | i :: rest =>
      match Index_Delete i bucket ref doc with
      | Ok bucket' => delete_from_indices rest bucket' ref doc
      | Err err => Err err
      end
  end.

(** The body of the loop of [add] over [jsonSet]. *)
Fixpoint add_docs (c : collection) (bucket : Bucket) (jsonSet : list (list Z)) : result Bucket :=
  match jsonSet with
  | [] => Ok bucket
  | doc :: rest =>
      let ref := refMake c doc in
      match add_to_indices (IndexList c) bucket ref doc with
      | Err err => Err err
      | Ok bucket1 =>
          match through bucket1 documentBucketByteRef (fun docBucket => Bucket_Put docBucket ref doc) with
          | Err err => Err err
          | Ok bucket2 => add_docs c bucket2 rest
          end
      end
  end.

Definition collection_add (c : collection) (tx : Bucket) (jsonSet : list (list Z)) : result Bucket :=
  match CreateBucketIfNotExists tx (bytes_of_string (Name c)) with
  | Err err => Err err
  | Ok (tx1, bucket) =>
      match CreateBucketIfNotExists bucket documentBucketByteRef with
      | Err err => Err err
      | Ok (bucket1, _) =>
          match add_docs c bucket1 jsonSet with
          | Err err => Err err
          | Ok bucket2 => Ok (<[bytes_of_string (Name c) := Nested bucket2]> tx1)
          end
      end
  end.

Definition collection_Add (c : collection) (db : Bucket) (jsonSet : list (list Z))
  : Bucket * option error :=
  Update db (fun tx => collection_add c tx jsonSet).

Definition collection_documentBucket (c : collection) (tx : Bucket) : option Bucket :=
  match Bucket_Bucket tx (bytes_of_string (Name c)) with
  | None => None
  | Some bucket => Bucket_Bucket bucket documentBucketByteRef
  end.

Definition collection_delete (c : collection) (tx : Bucket) (doc : list Z) : result Bucket :=
  match Bucket_Bucket tx (bytes_of_string (Name c)) with
  | None => Ok tx
  | Some bucket =>
      let ref := refMake c doc in
      match collection_documentBucket c tx with
      | None => Ok tx
      | Some docBucket =>
          match Bucket_Delete docBucket ref with
          | Err err => Err err
          | Ok docBucket' =>
              let bucket1 := <[documentBucketByteRef := Nested docBucket']> bucket in
              match delete_from_indices (IndexList c) bucket1 ref doc with
              | Err err => Err err
              | Ok bucket2 => Ok (<[bytes_of_string (Name c) := Nested bucket2]> tx)
              end
          end
      end
  end.

Definition collection_Delete (c : collection) (db : Bucket) (doc : list Z)
  : Bucket * option error :=
  Update db (fun tx => collection_delete c tx doc).

(** [Get]: the document, or nil, and the error, which is always nil. *)
Definition collection_Get (c : collection) (db : Bucket) (key : list Z)
  : option (list Z) * option error :=
  match collection_documentBucket c db with
  | None => (None, None)
  | Some bucket => (Bucket_Get bucket key, None)
  end.

(** The cursor loop of [AddIndex]. *)
Fixpoint backfill (index : Index) (bucket : Bucket) (pairs : list (list Z * list Z)) : result Bucket :=
  match pairs with
  | [] => Ok bucket
  | (ref, rawDoc) :: rest =>
      match Index_Add index bucket ref rawDoc with
      | Ok bucket' => backfill index bucket' rest
      | Err err => Err err
      end
  end.

(** The function [AddIndex] runs in [c.db.Update] for one index. *)
Definition AddIndex_tx (c : collection) (index : Index) (tx : Bucket) : result Bucket :=
  match CreateBucketIfNotExists tx (bytes_of_string (Name c)) with
  | Err err => Err err
  | Ok (tx1, bucket) =>
      match Bucket_Bucket bucket (Index_BucketName index) with
      | Some _ => Ok tx1                (* skip existing *)
      | None =>
          match CreateBucketIfNotExists bucket documentBucketByteRef with
          | Err err => Err err
          | Ok (bucket1, gBucket) =>
              match backfill index bucket1 (cursor_pairs gBucket) with
              | Err err => Err err
              | Ok bucket2 => Ok (<[bytes_of_string (Name c) := Nested bucket2]> tx1)
              end
          end
      end
  end.

(** [for _, i := range c.IndexList { if i.Name() == index.Name() ... }] *)
Definition name_listed (index : Index) (l : list Index) : bool :=
  existsb (fun i => String.eqb (Index_Name i) (Index_Name index)) l.

(** [AddIndex(indexes...)]: the collection, the database and the error
    afterwards. The [return nil] of the inner loop leaves the function. *)
Fixpoint collection_AddIndex (c : collection) (db : Bucket) (indexes : list Index)
  : collection * Bucket * option error :=
  match indexes with
  | [] => (c, db, None)
  | index :: rest =>
      if name_listed index (IndexList c)
      then (c, db, None)
      else
        match Update db (AddIndex_tx c index) with
        | (db', Some err) => (c, db', Some err)
        | (db', None) =>
            collection_AddIndex (with_IndexList c (IndexList c ++ [index])) db' rest
        end
  end.

(** *** The planner *)

Fixpoint findIndex_range (l : list Index) (h : heap) (query : Query)
    (cIndex : option Index) (cMatch : Q) : option Index :=
  match l with
  | [] => cIndex
  | i :: rest =>
      let m := Index_IsMatch i h query in
      if Qlt_le_dec cMatch m
      then findIndex_range rest h query (Some i) m
      else findIndex_range rest h query cIndex cMatch
  end.

Definition collection_findIndex (c : collection) (h : heap) (query : Query) : option Index :=
  match query with
  | None => None
  | Some _ => findIndex_range (IndexList c) h query None 0%Q
  end.

Inductive queryPlan : Type :=
| fullTableScanQueryPlan (c : collection) (query : Query)
| resultScanQueryPlan (c : collection) (query : Query) (index : Index)
| indexScanQueryPlan (c : collection) (query : Query) (index : Index).

Definition collection_queryPlan (c : collection) (h : heap) (query : Query) : result queryPlan :=
  match query with
  | None => Err ErrNoQuery
  | Some _ =>
      match collection_findIndex c h query with
      | None => Ok (fullTableScanQueryPlan c query)
      | Some index => Ok (resultScanQueryPlan c query index)
      end
  end.

(** A walker ([DocumentWalker], [ReferenceScanFn]) is a closure; [St] is the
    state it closes over. *)
Definition Walker (St : Type) : Type := St -> list Z -> list Z -> St * option error.

Fixpoint walk {St : Type} (fn : Walker St) (rows : list (list Z * list Z)) (st : St) : St * option error :=
  match rows with
  | [] => (st, None)
  | (key, val) :: rest =>
      match fn st key val with
      | (st', Some err) => (st', Some err)
      | (st', None) => walk fn rest st'
      end
  end.

Section Plans.

(** Modelled from the spec: the [execute] methods of the three plans
    (query_plan.go) are not part of these sources. Section 4.8 says which
    rows a plan hands to the walker, section 7 that "walker errors abort
    iteration and propagate verbatim" and that errors of the store and of
    the extraction are propagated. [scan] stands for the rows a plan visits
    in the given database, in order, and for the error that ends the scan
    after them, if there is one; [execute] calls the walker on the rows one
    by one and stops at the first error. *)
Variable scan : queryPlan -> heap -> Bucket -> list (list Z * list Z) * option error.

Definition execute {St : Type} (plan : queryPlan) (h : heap) (db : Bucket) (fn : Walker St) (st : St)
  : St * option error :=
  let '(rows, ending) := scan plan h db in
  match walk fn rows st with
  | (st', Some err) => (st', Some err)
  | (st', None) => (st', ending)
  end.

Definition collection_Iterate {St : Type} (c : collection) (h : heap) (db : Bucket)
    (query : Query) (fn : Walker St) (st : St) : St * option error :=
  match collection_queryPlan c h query with
  | Err err => (st, Some err)
  | Ok plan => execute plan h db fn st
  end.

Definition collection_IndexIterate {St : Type} (c : collection) (h : heap) (db : Bucket)
    (query : Query) (fn : Walker St) (st : St) : St * option error :=
  match collection_findIndex c h query with
  | None => (st, Some ErrNoIndex)
  | Some index => execute (indexScanQueryPlan c query index) h db fn st
  end.

(** [Find]. The context is what its [Err()] answers, call after call:
    [ctx n] is the answer to the call number [n]. The walker closes over
    [docs]; the state also counts the calls of [ctx.Err()]. *)
Definition Find_walker (ctx : nat -> option error) : Walker (list (list Z) * nat) :=
  fun st key val =>
    let '(docs, n) := st in
    match ctx n with
    | Some err => ((docs, S n), Some err)
    | None => ((docs ++ [val], S n), None)
    end.

Definition collection_Find (c : collection) (h : heap) (db : Bucket)
    (ctx : nat -> option error) (query : Query) : result (list (list Z)) :=
  match collection_Iterate c h db query (Find_walker ctx) ([], O) with
  | (_, Some err) => Err err
  | ((docs, _), None) => Ok docs
  end.

End Plans.

(** What the properties of the planner speak of: the scores of the indices of a
    collection for a query. *)
Definition no_index_matches (c : collection) (h : heap) (q : query) : Prop :=
  forall i, In i (IndexList c) -> (Index_IsMatch i h (Some q) <= 0)%Q.

Definition some_index_matches (c : collection) (h : heap) (q : query) : Prop :=
  exists i, In i (IndexList c) /\ (0 < Index_IsMatch i h (Some q))%Q.

Definition best_index (c : collection) (h : heap) (q : query) (index : Index) : Prop :=
  In index (IndexList c) /\
  (0 < Index_IsMatch index h (Some q))%Q /\
  forall j, In j (IndexList c) ->
            (Index_IsMatch j h (Some q) <= Index_IsMatch index h (Some q))%Q.

(** *** Samples: an index, a collection, a query, contexts *)

(** Modelled from the spec: index.go, the package's implementation of
    [Index], is not part of these sources. [sample_index name tp] is the
    index of section 4.5 with one part, the term path [tp], without
    tokenizer and transform, over the sample documents: [add] computes the
    keys of the document (section 4.3: the scalars at the term path) and
    puts [ref] into the nested bucket of each key, created if absent, in the
    bucket of the index; [delete] removes [ref] from these nested buckets and
    deletes those that become empty; an error of the extraction is returned.
    [is_match] is 1 when a part of the query has the term path, else 0. *)
Definition sample_keys (tp : TermPath) (doc : list Z) : result (list (list Z)) :=
  match ValuesAtPath sample_Unmarshal sample_Expand doc tp with
  | Ret (Ok scalars) => Ok (map Bytes scalars)
  | Ret (Err e) => Err e
  | Panic msg => Err (OtherError msg)
  end.

Fixpoint sample_put_keys (ib : Bucket) (keys : list (list Z)) (ref : list Z) : result Bucket :=
  match keys with
  | [] => Ok ib
  | key :: rest =>
      match CreateBucketIfNotExists ib key with
      | Err e => Err e
      | Ok (ib1, kb) =>
          match Bucket_Put kb ref [] with
          | Err e => Err e
          | Ok kb' => sample_put_keys (<[key := Nested kb']> ib1) rest ref
          end
      end
  end.

Fixpoint sample_remove_keys (ib : Bucket) (keys : list (list Z)) (ref : list Z) : result Bucket :=
  match keys with
  | [] => Ok ib
  | key :: rest =>
      match Bucket_Bucket ib key with
      | None => sample_remove_keys ib rest ref
      | Some kb =>
          match Bucket_Delete kb ref with
          | Err e => Err e
          | Ok kb' =>
              sample_remove_keys (if decide (kb' = ∅) then delete key ib
                                  else <[key := Nested kb']> ib) rest ref
          end
      end
  end.

Definition sample_Add (tp : TermPath) (bname : list Z) (bucket : Bucket) (ref doc : list Z)
  : result Bucket :=
  match sample_keys tp doc with
  | Err e => Err e
  | Ok keys =>
      match CreateBucketIfNotExists bucket bname with
      | Err e => Err e
      | Ok (bucket1, ib) =>
          match sample_put_keys ib keys ref with
          | Err e => Err e
          | Ok ib' => Ok (<[bname := Nested ib']> bucket1)
          end
      end
  end.

Definition sample_Delete (tp : TermPath) (bname : list Z) (bucket : Bucket) (ref doc : list Z)
  : result Bucket :=
  match sample_keys tp doc with
  | Err e => Err e
  | Ok keys =>
      match Bucket_Bucket bucket bname with
      | None => Ok bucket
      | Some ib =>
          match sample_remove_keys ib keys ref with
          | Err e => Err e
          | Ok ib' => Ok (<[bname := Nested ib']> bucket)
          end
      end
  end.

Definition sample_IsMatch (tp : TermPath) (h : heap) (query : Query) : Q :=
  match query with
  | None => 0%Q
  | Some q =>
      if existsb (fun p => match p with
                           | Some p' => TermPath_Equals tp (QueryPart_TermPath p')
                           | None => false
                           end) (Parts h q)
      then 1%Q else 0%Q
  end.

Definition sample_index (name : string) (tp : TermPath) : Index :=
  {| Index_Name := name;
     Index_BucketName := bytes_of_string name;
     Index_Add := sample_Add tp (bytes_of_string name);
     Index_Delete := sample_Delete tp (bytes_of_string name);
     Index_IsMatch := sample_IsMatch tp |}.

Definition url_path : TermPath := NewTermPath ["http://schema.org/url"%string].

Definition by_name : Index := sample_index "by_name" name_path.
Definition by_url : Index := sample_index "by_url" url_path.

(** A reference function that uses the document as its own key. *)
Definition ref_is_doc (doc : list Z) : list Z := doc.

Definition test_collection (indices : list Index) : collection :=
  {| Name := "test"; IndexList := indices; refMake := ref_is_doc |}.

(** [New(Eq(NewTermPath("http://schema.org/name"), ScalarMustParse("Jane Doe")))] *)
Definition jane_query_alloc : heap * query :=
  New ∅ (Some (Eq name_path (mkScalar (VString "Jane Doe")))).
Definition jane_heap : heap := jane_query_alloc.1.
Definition jane_query : query := jane_query_alloc.2.

(** The rows of a plan of a sample collection for [jane_query]: every
    document the samples store has the name the query asks for, so each plan
    visits the stored documents, in the order of their references. *)
Definition sample_scan (plan : queryPlan) (h : heap) (db : Bucket)
  : list (list Z * list Z) * option error :=
  let c := match plan with
           | fullTableScanQueryPlan c _ | resultScanQueryPlan c _ _
           | indexScanQueryPlan c _ _ => c
           end in
  (match collection_documentBucket c db with
   | Some docs => cursor_pairs docs
   | None => []
   end, None).

Definition ctx_cancelled : nat -> option error := fun _ => Some Canceled.
Definition ctx_deadline : nat -> option error := fun _ => Some DeadlineExceeded.
Definition ctx_background : nat -> option error := fun _ => None.

(** The database after [c.Add([]Document{doc_jane})] on an empty store. *)
Definition db_jane (c : collection) : Bucket := (collection_Add c ∅ [doc_jane]).1.

(** The database after [c.Delete(doc_jane)] on [db_jane c]. *)
Definition db_jane_deleted (c : collection) : Bucket :=
  (collection_Delete c (db_jane c) doc_jane).1.

(** The database after [c.Add([]Document{doc_text})] on an empty store, for
    a collection without indices. *)
Definition db_text : Bucket := (collection_Add (test_collection []) ∅ [doc_text]).1.

(** The value at [<collection>/<index>/<key>/<ref>], the persisted layout
    of an index entry. *)
Definition index_entry (db : Bucket) (cname iname key ref : list Z) : option (list Z) :=
  match Bucket_Bucket db cname with
  | None => None
  | Some bucket =>
      match Bucket_Bucket bucket iname with
      | None => None
      | Some ib =>
          match Bucket_Bucket ib key with
          | None => None
          | Some kb => Bucket_Get kb ref
          end
      end
  end.

(** * Further parts of the package *)

(** ** References (part_000: [Reference.EncodeToString], [ByteSize]) *)

(** [hex.EncodeToString]: two digits of [hextable] per byte, the high
    nibble first. *)
Definition hextable : string := "0123456789abcdef".

Definition hex_digit (n : Z) : ascii :=
  nth (Z.to_nat n) (list_ascii_of_string hextable) "0"%char.

Fixpoint hex_EncodeToString (src : list Z) : string :=
  match src with
  | [] => EmptyString
  | v :: rest =>
      String (hex_digit (Z.shiftr v 4))
             (String (hex_digit (Z.land v 15)) (hex_EncodeToString rest))
  end.

Definition Reference_EncodeToString (r : list Z) : string := hex_EncodeToString r.

Definition Reference_ByteSize (r : list Z) : nat := length r.

(** The number a sequence of bytes denotes, most significant byte first. *)
Definition be_value (l : list Z) : Z := fold_left (fun acc b => acc * 256 + b) l 0.

(** ** Field indexers (index_part.go) *)

Definition Tokenizer : Type := string -> list string.

Record fieldIndexer : Type := mkFieldIndexer {
  fi_termPath : TermPath;
  transformer : option Transform;
  tokenizer : option Tokenizer;
}.

(** An [IndexOption] is a function that writes a field of the indexer. *)
Definition IndexOption : Type := fieldIndexer -> fieldIndexer.

Definition TransformerOption (t : option Transform) : IndexOption :=
  fun fi => {| fi_termPath := fi_termPath fi; transformer := t; tokenizer := tokenizer fi |}.

Definition TokenizerOption (t : option Tokenizer) : IndexOption :=
  fun fi => {| fi_termPath := fi_termPath fi; transformer := transformer fi; tokenizer := t |}.

Definition NewFieldIndexer (termPath : TermPath) (options : list IndexOption) : fieldIndexer :=
  fold_left (fun fi o => o fi) options
            {| fi_termPath := termPath; transformer := None; tokenizer := None |}.

(** The options the package provides. *)
Inductive provided_option : IndexOption -> Prop :=
| provided_transformer t : provided_option (TransformerOption t)
| provided_tokenizer t : provided_option (TokenizerOption t).

Definition fieldIndexer_TermPath (j : fieldIndexer) : TermPath := fi_termPath j.

Definition fieldIndexer_Equals (j : fieldIndexer) (other : TermPath) : bool :=
  TermPath_Equals (fi_termPath j) other.

Definition fieldIndexer_Tokenize (j : fieldIndexer) (scalar : Scalar) : outcome (list Scalar) :=
  match tokenizer j with
  | None => Ret [scalar]
  | Some tok =>
      match value scalar with
      | VString s => mustParseAll (map VString (tok s))
      | _ => Ret [scalar]
      end
  end.

Definition fieldIndexer_Transform (j : fieldIndexer) (v : Scalar) : Scalar :=
  match transformer j with
  | None => v
  | Some t => t v
  end.

(** ** Transforms and tokenizers (transform.go) *)

(** The class [\s] of the regexp package: tab, line feed, form feed,
    carriage return and space. Every other byte, a byte of a multi-byte
    character included, is in [\S]. *)
Definition is_space (a : ascii) : bool :=
  let n := nat_of_ascii a in
  Nat.eqb n 9 || Nat.eqb n 10 || Nat.eqb n 12 || Nat.eqb n 13 || Nat.eqb n 32.

(** [exp.FindAllString(text, -1)] for [\S+]: the maximal runs of characters
    that are not white space, from left to right. *)
Fixpoint WhiteSpaceTokenizer (text : string) : list string :=
  match text with
  | EmptyString => []
  | String a rest =>
      if is_space a then WhiteSpaceTokenizer rest
      else
        match rest with
        | EmptyString => [String a EmptyString]
        | String b _ =>
            if is_space b then String a EmptyString :: WhiteSpaceTokenizer rest
            else
              match WhiteSpaceTokenizer rest with
              | t :: ts => String a t :: ts
              | [] => [String a EmptyString]
              end
        end
  end.

(** The text without its white space. *)
Fixpoint without_space (text : string) : string :=
  match text with
  | EmptyString => EmptyString
  | String a rest =>
      if is_space a then without_space rest else String a (without_space rest)
  end.

Fixpoint has_space (text : string) : bool :=
  match text with
  | EmptyString => false
  | String a rest => is_space a || has_space rest
  end.

Definition string_of_bytes (b : list Z) : string :=
  string_of_list_ascii (map (fun x => ascii_of_N (Z.to_N x)) b).

Section Lower.

(** [strings.ToLower], the mapping of the Unicode letters to lower case. *)
Variable strings_ToLower : string -> string.

Definition ToLower (scalar : Scalar) : Scalar :=
  match value scalar with
  | VString typedValue => mkScalar (VString (strings_ToLower typedValue))
  | VBytes typedValue => mkScalar (VString (strings_ToLower (string_of_bytes typedValue)))
  | _ => scalar
  end.

End Lower.

(** Lower case of the letters A to Z, what [strings.ToLower] does to text
    of ASCII characters. *)
Definition ascii_lower (a : ascii) : ascii :=
  let n := nat_of_ascii a in
  if andb (Nat.leb 65 n) (Nat.leb n 90) then ascii_of_nat (n + 32) else a.

Fixpoint ascii_ToLower (s : string) : string :=
  match s with
  | EmptyString => EmptyString
  | String a rest => String (ascii_lower a) (ascii_ToLower rest)
  end.

(** ** Dropping an index (search.go: [DropIndex]) *)

Definition Bucket_DeleteBucket (b : Bucket) (key : list Z) : result Bucket :=
  match b !! key with
  | None => Err ErrBucketNotFound
  | Some (Leaf _) => Err ErrIncompatibleValue
  | Some (Nested _) => Ok (delete key b)
  end.

(** The loop of [DropIndex] over [c.IndexList]: the bucket afterwards and
    [newIndices[:j]]. The error of [DeleteBucket] is dropped. *)
Fixpoint drop_range (name : string) (l : list Index) (bucket : Bucket) : Bucket * list Index :=
  match l with
  | [] => (bucket, [])
  | i :: rest =>
      if String.eqb name (Index_Name i) then
        drop_range name rest
                   (match Bucket_DeleteBucket bucket (Index_BucketName i) with
                    | Ok bucket' => bucket'
                    | Err _ => bucket
                    end)
      else
        let '(bucket', newIndices) := drop_range name rest bucket in
        (bucket', i :: newIndices)
  end.

Definition collection_DropIndex (c : collection) (db : Bucket) (name : string)
  : collection * Bucket * option error :=
  match CreateBucketIfNotExists db (bytes_of_string (Name c)) with
  | Err err => (c, db, Some err)
  | Ok (tx1, bucket) =>
      let '(bucket', newIndices) := drop_range name (IndexList c) bucket in
      (with_IndexList c newIndices, <[bytes_of_string (Name c) := Nested bucket']> tx1, None)
  end.

(** ** Queries built in a chain *)

(** [New(p0).And(p1)...And(pn)], each query used once. *)
Fixpoint And_chain (h : heap) (q : query) (ps : list (option QueryPart)) : heap * query :=
  match ps with
  | [] => (h, q)
  | p :: rest => let '(h', q') := And h q p in And_chain h' q' rest
  end.

Definition New_chain (h : heap) (p0 : option QueryPart) (ps : list (option QueryPart))
  : heap * query :=
  let '(h', q) := New h p0 in And_chain h' q ps.

(** ** Trees whose keyword values are scalars

    [@value] and [@id] hold a boolean, a string or a number, [@list] and
    [@set] a slice of such values, in every map of the tree. *)
Definition scalar_slice (v : any) : bool :=
  match v with
  | VSlice l => forallb scalar_kind l
  | _ => false
  end.

Definition keywords_scalar_here (m : list (string * any)) : bool :=
  match map_lookup m "@value" with
  | Some v => scalar_kind v
  | None =>
  match map_lookup m "@id" with
  | Some v => scalar_kind v
  | None =>
  match map_lookup m "@list" with
  | Some v => scalar_slice v
  | None =>
  match map_lookup m "@set" with
  | Some v => scalar_slice v
  | None => true
  end end end end.

Fixpoint keywords_scalar (v : any) : bool :=
  match v with
  | VSlice l => forallb keywords_scalar l
  | VMap m =>
      keywords_scalar_here m &&
      (fix all (m : list (string * any)) : bool :=
         match m with
         | [] => true
         | (_, v') :: m' => keywords_scalar v' && all m'
         end) m
  | _ => true
  end.

(** The results of two extractions, one after the other. *)
Definition oapp {A} (o1 o2 : outcome (list A)) : outcome (list A) :=
  obind o1 (fun r1 => obind o2 (fun r2 => Ret (r1 ++ r2))).

(** The scalars of a result all hold a boolean, a string or a double. *)
Definition all_scalar_kind (r : list Scalar) : Prop :=
  Forall (fun s => scalar_kind (value s) = true) r.

(** The bucket of the documents after the [Put]s of a set, in order. *)
Definition put_all (c : collection) (jsonSet : list (list Z)) (docBucket : Bucket) : Bucket :=
  fold_left (fun d doc => <[refMake c doc := Leaf doc]> d) jsonSet docBucket.

(** The scores of the indices of a list, against one score. *)
Definition scores_below (h : heap) (query : Query) (m : Q) (l : list Index) : Prop :=
  Forall (fun j => (Index_IsMatch j h query < m)%Q) l.

Definition scores_upto (h : heap) (query : Query) (m : Q) (l : list Index) : Prop :=
  Forall (fun j => (Index_IsMatch j h query <= m)%Q) l.

(** The indices [DropIndex] keeps: those with another name. *)
Definition other_name (name : string) (i : Index) : bool :=
  negb (String.eqb name (Index_Name i)).

(** ** What the properties of [AddIndex] speak of

    [index.Add] is run on every pair of a list, in the order of the list:
    [bs] are the buckets the runs leave, the run on the pair number [j]
    takes the bucket number [j] and gives the bucket number [j + 1]. *)
Definition Add_runs (index : Index) (pairs : list (list Z * list Z)) (bs : list Bucket) : Prop :=
  forall j ref doc b b',
    pairs !! j = Some (ref, doc) -> bs !! j = Some b -> bs !! S j = Some b' ->
    Index_Add index b ref doc = Ok b'.

(** A walker that answers every document with [ErrNoIndex]. *)
Definition walker_no_index : Walker unit := fun st _ _ => (st, Some ErrNoIndex).

(* ================================================================== *)
(** * Properties *)

(** ** Big-endian encoding *)

Section BigEndian.

Lemma testbit_255 n : 0 <= n -> Z.testbit 255 n = (n <? 8).
Proof.
  intros Hn. change 255 with (Z.ones 8).
  destruct (Z.ltb_spec n 8).
  - apply Z.ones_spec_low; lia.
  - apply Z.ones_spec_high; lia.
Qed.

Lemma testbit_byte_at v k n :
  0 <= k -> 0 <= n ->
  Z.testbit (byte_at v k) n = (n <? 8) && Z.testbit v (n + k).
Proof.
  intros Hk Hn. unfold byte_at.
  rewrite Z.land_spec, Z.shiftr_spec, testbit_255 by lia.
  apply andb_comm.
Qed.

Lemma testbit_byte_back v k n :
  0 <= k -> 0 <= n ->
  Z.testbit (Z.shiftl (byte_at v k) k) n =
  (k <=? n) && (n <? k + 8) && Z.testbit v n.
Proof.
  intros Hk Hn. rewrite Z.shiftl_spec by lia.
  destruct (Z.leb_spec k n) as [Hle | Hlt].
  - rewrite testbit_byte_at by lia.
    replace (n - k + k) with n by lia.
    replace (n - k <? 8) with (n <? k + 8); [reflexivity|].
    destruct (Z.ltb_spec n (k + 8)), (Z.ltb_spec (n - k) 8); auto; lia.
  - rewrite Z.testbit_neg_r by lia. reflexivity.
Qed.

Lemma byte_at_range v k : 0 <= byte_at v k < 256.
Proof.
  unfold byte_at. change 255 with (Z.ones 8).
  rewrite Z.land_ones by lia. apply Z.mod_pos_bound. lia.
Qed.

Lemma testbit_above_64 v n : 0 <= v < 2 ^ 64 -> 64 <= n -> Z.testbit v n = false.
Proof.
  intros Hv Hn. destruct (Z.eq_dec v 0) as [-> | Hne].
  - apply Z.testbit_0_l.
  - apply Z.bits_above_log2; [lia|].
    assert (Z.log2 v < 64) by (apply Z.log2_lt_pow2; lia). lia.
Qed.

Lemma Uint64_PutUint64 v : 0 <= v < 2 ^ 64 -> Uint64 (PutUint64 v) = Some v.
Proof.
  intros Hv. unfold PutUint64, Uint64. f_equal.
  apply Z.bits_inj'. intros n Hn.
  rewrite <- (Z.shiftl_0_r (byte_at v 0)).
  rewrite !Z.lor_spec, !testbit_byte_back by lia.
  destruct (Z.testbit v n) eqn:Hb.
  - assert (n < 64).
    { destruct (Z.lt_ge_cases n 64); [assumption|].
      rewrite testbit_above_64 in Hb by lia. discriminate. }
    rewrite !andb_true_r.
    repeat rewrite orb_true_iff. repeat rewrite andb_true_iff.
    rewrite ?Z.leb_le, ?Z.ltb_lt. lia.
  - rewrite !andb_false_r. reflexivity.
Qed.

End BigEndian.

Lemma byte_at_div_mod v k : 0 <= k -> byte_at v k = (v / 2 ^ k) mod 256.
Proof.
  intros Hk. unfold byte_at. change 255 with (Z.ones 8).
  rewrite Z.land_ones by lia. rewrite Z.shiftr_div_pow2 by lia. reflexivity.
Qed.

Lemma length_bytes_of_string s : length (bytes_of_string s) = String.length s.
Proof.
  unfold bytes_of_string. rewrite length_map.
  induction s as [|a s IH]; simpl; [reflexivity | now rewrite IH].
Qed.

Lemma byte_of_ascii_range a : is_byte (byte_of_ascii a).
Proof.
  unfold is_byte, byte_of_ascii.
  pose proof (N_ascii_bounded a) as Hb. lia.
Qed.

(** ** Scalars *)

(** C6. [ScalarParse] accepts booleans, strings and doubles, and nothing
    else: every other kind of value fails with [ErrInvalidValue]. The bytes
    of a boolean scalar are the single byte 0 or 1; of a string scalar the
    bytes of the string, as many as the string has and nothing after them;
    of a double the eight bytes of its bit pattern, most significant
    first. *)
Theorem ScalarParse_Bytes_spec :
  (forall v : any,
      ScalarParse v = if scalar_kind v then Ok (mkScalar v) else Err ErrInvalidValue) /\
  (forall v : any,
      scalar_kind v = true <->
      (exists b, v = VBool b) \/ (exists s, v = VString s) \/ (exists f, v = VFloat64 f)) /\
  (forall b : bool, Bytes (mkScalar (VBool b)) = [if b then 1 else 0]) /\
  (forall s : string,
      Bytes (mkScalar (VString s)) = bytes_of_string s /\
      length (Bytes (mkScalar (VString s))) = String.length s) /\
  (forall f : Z,
      Bytes (mkScalar (VFloat64 f)) =
      map (fun i => (Float64bits f / 2 ^ (8 * (7 - i))) mod 256) [0; 1; 2; 3; 4; 5; 6; 7]).
Proof.
  repeat split.
  - destruct v; reflexivity.
  - destruct v; simpl; intros H; try discriminate; eauto.
  - intros [[b ->] | [[s ->] | [f ->]]]; reflexivity.
  - destruct b; reflexivity.
  - apply length_bytes_of_string.
  - intros f. unfold Bytes, PutUint64. cbn [value map].
    rewrite !byte_at_div_mod by lia. reflexivity.
Qed.

(** C7. Parsing a boolean or a double and decoding the bytes of the scalar
    with the decoder of its type gives the value back; the bytes of a parsed
    string are the bytes of the string. *)
Theorem Scalar_roundtrip :
  (forall x : bool,
      exists s, ScalarParse (VBool x) = Ok s /\ decode_bool (Bytes s) = Some x) /\
  (forall x : Z, is_float64 x ->
      exists s, ScalarParse (VFloat64 x) = Ok s /\ decode_float64 (Bytes s) = Some x) /\
  (forall x : string,
      exists s, ScalarParse (VString x) = Ok s /\ Bytes s = bytes_of_string x).
Proof.
  split; [|split].
  - intros x. eexists; split; [reflexivity|]. destruct x; reflexivity.
  - intros x Hx. eexists; split; [reflexivity|].
    unfold is_float64 in Hx.
    unfold decode_float64, Bytes. cbn [value].
    replace (Float64bits x) with x by (unfold Float64bits; now rewrite Z.mod_small).
    rewrite Uint64_PutUint64 by exact Hx. cbn [option_map].
    unfold Float64frombits. now rewrite Z.mod_small.
  - intros x. eexists; split; reflexivity.
Qed.

(** The bit pattern of 80.0 (the weight of the test document) survives. *)
Lemma Scalar_roundtrip_witness :
  is_float64 4635329916471083008 /\
  exists s, ScalarParse (VFloat64 4635329916471083008) = Ok s /\
            decode_float64 (Bytes s) = Some 4635329916471083008.
Proof.
  split.
  - unfold is_float64. lia.
  - apply (proj1 (proj2 Scalar_roundtrip)). unfold is_float64. lia.
Defined.

(** ** Comparison of keys *)

Lemma bytes_Compare_antisym a : forall b, bytes_Compare a b = - bytes_Compare b a.
Proof.
  induction a as [|x a IH]; intros [|y b]; simpl; try reflexivity.
  destruct (Z.ltb_spec x y), (Z.ltb_spec y x); try lia. apply IH.
Qed.

Lemma bytes_Compare_eq a : forall b, bytes_Compare a b = 0 <-> a = b.
Proof.
  induction a as [|x a IH]; intros [|y b]; simpl; split; intros H;
    try discriminate; try reflexivity.
  - destruct (Z.ltb_spec x y); [discriminate|].
    destruct (Z.ltb_spec y x); [discriminate|].
    apply IH in H. f_equal; [lia | assumption].
  - injection H as -> ->. rewrite Z.ltb_irrefl. now apply IH.
Qed.

Lemma bytes_Compare_le a : forall b, bytes_Compare a b <= 0 <-> lex_le a b.
Proof.
  induction a as [|x a IH]; intros [|y b]; simpl; split; intros H.
  - apply lex_le_nil.
  - lia.
  - apply lex_le_nil.
  - lia.
  - lia.
  - inversion H.
  - destruct (Z.ltb_spec x y); [now apply lex_le_lt|].
    destruct (Z.ltb_spec y x); [lia|].
    assert (x = y) as -> by lia. apply lex_le_eq. now apply IH.
  - inversion H; subst.
    + destruct (Z.ltb_spec x y); lia.
    + rewrite Z.ltb_irrefl. now apply IH.
Qed.

Lemma bytes_Equal_eq a : forall b, bytes_Equal a b = true <-> a = b.
Proof.
  induction a as [|x a IH]; intros [|y b]; simpl; split; intros H;
    try discriminate; try reflexivity.
  - apply andb_true_iff in H as [Hxy Hab].
    apply Z.eqb_eq in Hxy. apply IH in Hab. now subst.
  - injection H as -> ->. rewrite Z.eqb_refl. now apply IH.
Qed.

Lemma bytes_HasPrefix_app s p : bytes_HasPrefix s p = true <-> exists rest, s = p ++ rest.
Proof.
  unfold bytes_HasPrefix. rewrite andb_true_iff, Nat.leb_le, bytes_Equal_eq. split.
  - intros [_ Ht]. exists (drop (length p) s).
    rewrite <- Ht at 1. symmetry. apply take_drop.
  - intros [rest ->]. split.
    + rewrite length_app. lia.
    + now rewrite take_app_length.
Qed.

(** ** Query parts *)

(** C3. The condition of each query part, for every key and every optional
    transform: [Eq] holds when the key is the bytes of the (transformed)
    value; [Range] when the key lies between the bytes of the (transformed)
    bounds, both included, in lexicographic order; [Prefix] when the key
    starts with the bytes of the (transformed) value. Without a transform the
    scalar itself is used; the key is compared as it is stored. [Seek] is the
    value of [Eq] and [Prefix] and the lower bound of [Range]. *)
Theorem Condition_spec (key : list Z) (transform : option Transform) :
  (forall tp v,
      Condition (Eq tp v) key transform = true <->
      key = Bytes (transformed_by transform v)) /\
  (forall tp b e,
      Condition (Range tp b e) key transform = true <->
      lex_le (Bytes (transformed_by transform b)) key /\
      lex_le key (Bytes (transformed_by transform e))) /\
  (forall tp v,
      Condition (Prefix tp v) key transform = true <->
      exists rest, key = Bytes (transformed_by transform v) ++ rest) /\
  (forall tp v, Seek (Eq tp v) = v /\ Seek (Prefix tp v) = v) /\
  (forall tp b e, Seek (Range tp b e) = b) /\
  transformed_by None = (fun s => s).
Proof.
  repeat split; try reflexivity.
  - destruct transform; simpl; intros H; apply Z.eqb_eq in H;
      now apply bytes_Compare_eq.
  - intros ->. destruct transform; simpl; apply Z.eqb_eq;
      now apply bytes_Compare_eq.
  - simpl in H. fold (transformed_by transform b) in H.
    destruct (Z.ltb_spec (bytes_Compare key (Bytes (transformed_by transform b))) 0);
      [discriminate|].
    apply bytes_Compare_le. rewrite bytes_Compare_antisym. lia.
  - simpl in H. fold (transformed_by transform b) in H.
    fold (transformed_by transform e) in H.
    destruct (Z.ltb_spec (bytes_Compare key (Bytes (transformed_by transform b))) 0);
      [discriminate|].
    apply bytes_Compare_le. now apply Z.leb_le.
  - intros [Hb He]. simpl.
    fold (transformed_by transform b). fold (transformed_by transform e).
    apply bytes_Compare_le in Hb, He. rewrite bytes_Compare_antisym in Hb.
    destruct (Z.ltb_spec (bytes_Compare key (Bytes (transformed_by transform b))) 0);
      [lia|].
    now apply Z.leb_le.
  - simpl. fold (transformed_by transform v). apply bytes_HasPrefix_app.
  - simpl. fold (transformed_by transform v). apply bytes_HasPrefix_app.
Qed.

(** ** Slices and queries *)

Section GoSliceFacts.

Context {A : Type}.
Variable zero : A.

Lemma append_elems (h : gmap nat (list A)) (s : slice) (x : A) :
  slice_wf h s ->
  slice_elems (append zero h s x).1 (append zero h s x).2 = slice_elems h s ++ [x] /\
  slice_elems (append zero h s x).1 s = slice_elems h s /\
  slice_wf (append zero h s x).1 (append zero h s x).2 /\
  slice_wf (append zero h s x).1 s.
Proof.
  intros (a & Ha & Hlen & Hle). unfold append, slice_elems.
  destruct (Nat.ltb_spec (len s) (cap s)) as [Hroom | Hfull]; cbn [fst snd ptr len cap].
  - rewrite lookup_alter_eq, Ha. cbn [fmap option_fmap option_map default]; unfold id.
    assert (Hin : <[len s:=x]> a !! len s = Some x)
      by (apply list_lookup_insert_eq; lia).
    repeat split.
    + rewrite (take_S_r _ _ _ Hin). now rewrite take_insert_ge by lia.
    + now rewrite take_insert_ge by lia.
    + exists (<[len s:=x]> a). cbn [ptr len cap].
      rewrite lookup_alter_eq, Ha, length_insert. repeat split; [assumption | lia].
    + exists (<[len s:=x]> a).
      rewrite lookup_alter_eq, Ha, length_insert. repeat split; [assumption | lia].
  - assert (Hfresh : fresh (dom h) <> ptr s).
    { intros Heq. apply (is_fresh (dom h)). rewrite Heq.
      apply elem_of_dom. eauto. }
    rewrite lookup_insert_eq, lookup_insert_ne, Ha by assumption.
    cbn [default from_option]; unfold id.
    assert (Htake : length (take (len s) a) = len s) by (rewrite length_take; lia).
    repeat split.
    + rewrite cons_middle, app_assoc. apply take_app_length'.
      rewrite length_app, Htake. simpl. lia.
    + eexists. cbn [ptr len cap]. rewrite lookup_insert_eq. split; [reflexivity|].
      rewrite length_app, Htake. cbn [length]. rewrite length_replicate.
      assert (S (len s) <= growslice_newcap (cap s) (S (len s)))%nat.
      { unfold growslice_newcap.
        destruct (Nat.ltb_spec (cap s + cap s) (S (len s))); [lia|].
        destruct (Nat.ltb_spec (cap s) 1024); [lia|].
        assert (Hq : forall f c n, (n <= grow_by_quarter f c n)%nat).
        { induction f as [|f IH]; intros c n; simpl; [lia|].
          destruct (Nat.ltb_spec c n); [apply IH | lia]. }
        apply Hq. }
      lia.
    + exists a. rewrite lookup_insert_ne by assumption. auto.
Qed.

(** With room left in the array a second [append] to the same slice writes
    the cell the first one wrote. *)
Lemma append_twice_shared (h : gmap nat (list A)) (s : slice) (x y : A) :
  slice_wf h s -> (len s < cap s)%nat ->
  let '(h1, s1) := append zero h s x in
  let '(h2, s2) := append zero h1 s y in
  slice_elems h1 s1 = slice_elems h s ++ [x] /\
  slice_elems h2 s1 = slice_elems h s ++ [y] /\
  slice_elems h2 s2 = slice_elems h s ++ [y].
Proof.
  intros (a & Ha & Hlen & Hle) Hroom. unfold append, slice_elems.
  apply Nat.ltb_lt in Hroom as Hb. rewrite Hb. cbn [ptr len cap].
  rewrite !lookup_alter_eq, Ha. cbn [fmap option_fmap option_map default]; unfold id.
  rewrite list_insert_insert_eq.
  assert (Hx : <[len s:=x]> a !! len s = Some x)
    by (apply list_lookup_insert_eq; lia).
  assert (Hy : <[len s:=y]> a !! len s = Some y)
    by (apply list_lookup_insert_eq; lia).
  rewrite (take_S_r _ _ _ Hx), (take_S_r _ _ _ Hy).
  rewrite !take_insert_ge by lia. auto.
Qed.

End GoSliceFacts.

(** What [And] does for the receiver and for the query it returns: the
    returned query shows the receiver's parts followed by the new one, and
    the receiver shows what it showed before. *)
Lemma And_Parts (h : heap) (q : query) (p : option QueryPart) :
  slice_wf h (parts q) ->
  Parts (And h q p).1 (And h q p).2 = Parts h q ++ [p] /\
  Parts (And h q p).1 q = Parts h q /\
  slice_wf (And h q p).1 (parts (And h q p).2).
Proof.
  intros Hwf. unfold And, Parts.
  destruct (append_elems None h (parts q) p Hwf) as (H1 & H2 & H3 & _).
  destruct (append None h (parts q) p) as [h' s'] eqn:E. cbn [fst snd parts] in *.
  auto.
Qed.

(** A query that was returned by [And] does not keep its parts when the
    receiver had room left in its array: the next [And] on the same receiver
    replaces the last part of the query returned before. *)
Lemma And_shares_array (h : heap) (q : query) (a b : option QueryPart) :
  slice_wf h (parts q) -> (len (parts q) < cap (parts q))%nat ->
  let '(h1, qa) := And h q a in
  let '(h2, qb) := And h1 q b in
  Parts h1 qa = Parts h q ++ [a] /\
  Parts h2 qa = Parts h q ++ [b] /\
  Parts h2 qb = Parts h q ++ [b].
Proof.
  intros Hwf Hroom. unfold And, Parts.
  pose proof (append_twice_shared None h (parts q) a b Hwf Hroom) as H.
  destruct (append None h (parts q) a) as [h1 s1].
  destruct (append None h1 (parts q) b) as [h2 s2]. exact H.
Qed.

(** C10. [base := New(p0).And(p1).And(p2)] has three parts in an array of
    four cells; [qa := base.And(a)] shows [p0 p1 p2 a] when it is returned,
    and after [qb := base.And(b)] the same [qa] shows [p0 p1 p2 b]: the value
    of a query changed by a call on another query. *)
Theorem And_sibling_overwritten (p0 p1 p2 a b : option QueryPart) :
  let '(h3, h4, base, qa, qb) := two_from_one_base p0 p1 p2 a b in
  Parts h3 base = [p0; p1; p2] /\
  Parts h3 qa = [p0; p1; p2; a] /\
  Parts h4 base = [p0; p1; p2] /\
  Parts h4 qb = [p0; p1; p2; b] /\
  Parts h4 qa = [p0; p1; p2; b] /\
  (len (parts base), cap (parts base)) = (3%nat, 4%nat).
Proof. vm_compute. repeat split. Qed.

(** ** The value extractor *)

(** Induction on trees, through the slices and the maps. *)
Lemma any_nested_ind (P : any -> Prop) :
  P VNil -> (forall b, P (VBool b)) -> (forall s, P (VString s)) ->
  (forall f, P (VFloat64 f)) -> (forall n, P (VInt n)) -> (forall n, P (VUint32 n)) ->
  (forall b, P (VBytes b)) ->
  (forall l, Forall P l -> P (VSlice l)) ->
  (forall m, Forall (fun kv => P kv.2) m -> P (VMap m)) ->
  forall v, P v.
Proof.
  intros Hnil Hbool Hstr Hfl Hint Hu32 Hbytes Hslice Hmap.
  fix IH 1. intros [ | b | s | f | n | n | b | l | m ].
  - apply Hnil.
  - apply Hbool.
  - apply Hstr.
  - apply Hfl.
  - apply Hint.
  - apply Hu32.
  - apply Hbytes.
  - apply Hslice. revert l. fix IHl 1. intros [|x l]; constructor; [apply IH | apply IHl].
  - apply Hmap. revert m. fix IHm 1. intros [|[k x] m]; constructor; [apply IH | apply IHm].
Qed.

(** The two functions as search.go writes them. *)
Lemma valuesFromSliceAtPath_nil tp : valuesFromSliceAtPath [] tp = Ret [].
Proof. reflexivity. Qed.

Lemma valuesFromSliceAtPath_cons sub rest tp :
  valuesFromSliceAtPath (sub :: rest) tp =
  obind (match sub with
         | VSlice typedSub => valuesFromSliceAtPath typedSub tp
         | VMap typedSub => valuesFromMapAtPath typedSub tp
         | _ => Ret []
         end) (fun r1 =>
  obind (valuesFromSliceAtPath rest tp) (fun r2 => Ret (r1 ++ r2))).
Proof. destruct sub; reflexivity. Qed.

Lemma valuesFromMapAtPath_eq expanded tp :
  valuesFromMapAtPath expanded tp =
  match (if IsEmpty tp then keywordValues expanded else None) with
  | Some r => r
  | None =>
      match map_lookup expanded (Head tp) with
      | Some (VSlice next) => valuesFromSliceAtPath next (Tail tp)
      | _ => Ret []
      end
  end.
Proof.
  unfold valuesFromMapAtPath. cbn [valuesAtPath].
  destruct (if IsEmpty tp then keywordValues expanded else None); [reflexivity|].
  induction expanded as [|[k v] m IH]; [reflexivity|].
  cbn [map_lookup]. destruct (String.eqb k (Head tp)); [|exact IH].
  destruct v; reflexivity.
Qed.

(** The recursion of the specification, case by case. *)
Lemma spec_values_slice_cons e rest path :
  spec_values (VSlice (e :: rest)) path =
  match spec_values e path, spec_values (VSlice rest) path with
  | Some a, Some b => Some (a ++ b)
  | _, _ => None
  end.
Proof. reflexivity. Qed.

Lemma spec_values_map_cons m head tail :
  spec_values (VMap m) (head :: tail) =
  match map_lookup m head with
  | Some (VSlice next) => spec_values (VSlice next) tail
  | _ => Some []
  end.
Proof.
  cbn [spec_values]. induction m as [|[k v] m IH]; [reflexivity|].
  cbn [map_lookup]. destruct (String.eqb k head); [|exact IH].
  destruct v; reflexivity.
Qed.

Lemma returned_mustParseAll l : returned (mustParseAll l) = spec_parse_all l.
Proof.
  induction l as [|v l IH]; [reflexivity|]. cbn [mustParseAll spec_parse_all].
  unfold ScalarMustParse, spec_parse. destruct (ScalarParse v); cbn [obind]; [|reflexivity].
  rewrite <- IH. destruct (mustParseAll l); reflexivity.
Qed.

Lemma returned_mustParse1 v :
  returned (obind (ScalarMustParse v) (fun s => Ret [s])) =
  option_map (fun s => [s]) (spec_parse v).
Proof. unfold ScalarMustParse, spec_parse. destruct (ScalarParse v); reflexivity. Qed.

Lemma returned_parsed_scalars v :
  returned (obind (assertSlice v) mustParseAll) = spec_parsed_scalars v.
Proof. destruct v; try reflexivity. apply returned_mustParseAll. Qed.

Lemma keywordValues_spec m :
  match keywordValues m with
  | Some r => returned r = spec_node_value m
  | None => spec_node_value m = Some []
  end.
Proof.
  unfold keywordValues, spec_node_value.
  destruct (map_lookup m "@value"); [apply returned_mustParse1|].
  destruct (map_lookup m "@id"); [apply returned_mustParse1|].
  destruct (map_lookup m "@list"); [apply returned_parsed_scalars|].
  destruct (map_lookup m "@set"); [apply returned_parsed_scalars|].
  reflexivity.
Qed.

Lemma no_empty_key_cons k v m :
  no_empty_key (VMap ((k, v) :: m)) =
  negb (String.eqb k EmptyString) && no_empty_key v && no_empty_key (VMap m).
Proof. reflexivity. Qed.

Lemma no_empty_key_lookup m :
  no_empty_key (VMap m) = true -> map_lookup m EmptyString = None.
Proof.
  induction m as [|[k v] m IH]; [reflexivity|].
  rewrite no_empty_key_cons, !andb_true_iff, negb_true_iff.
  intros [[Hk _] Hm]. cbn [map_lookup]. rewrite Hk. now apply IH.
Qed.

Lemma no_empty_key_lookup_some m k v :
  no_empty_key (VMap m) = true -> map_lookup m k = Some v -> no_empty_key v = true.
Proof.
  induction m as [|[k' v'] m IH]; [discriminate|].
  rewrite no_empty_key_cons, !andb_true_iff.
  intros [[_ Hv] Hm]. cbn [map_lookup].
  destruct (String.eqb k' k); [intros [= <-]; assumption | now apply IH].
Qed.

Lemma map_lookup_In m k v : map_lookup m k = Some v -> In (k, v) m.
Proof.
  induction m as [|[k' v'] m IH]; [discriminate|]. cbn [map_lookup].
  destruct (String.eqb_spec k' k) as [-> | _].
  - intros [= ->]. now left.
  - intros H. right. now apply IH.
Qed.

(** On a tree without empty keys the recursion of the code computes what
    the recursion of the specification describes, at every path; a panic of
    the code is a place where the specification's recursion has no value. *)
Lemma valuesAtPath_spec_values node :
  no_empty_key node = true ->
  forall tp, returned (valuesAtPath node tp) = spec_values node (Terms tp).
Proof.
  induction node as [ | | | | | | | l IHl | m IHm ] using any_nested_ind;
    intros Hkeys tp; try reflexivity.
  - (* a slice *)
    change (valuesAtPath (VSlice l) tp) with (valuesFromSliceAtPath l tp).
    induction l as [|e l IH]; [reflexivity|].
    rewrite valuesFromSliceAtPath_cons, spec_values_slice_cons.
    cbn [no_empty_key forallb] in Hkeys. apply andb_true_iff in Hkeys as [He Hl].
    inversion IHl as [|? ? Pe Pl]; subst.
    rewrite <- (IH Pl Hl), <- (Pe He tp).
    assert (Hsub : match e with
                   | VSlice typedSub => valuesFromSliceAtPath typedSub tp
                   | VMap typedSub => valuesFromMapAtPath typedSub tp
                   | _ => Ret []
                   end = valuesAtPath e tp) by (destruct e; reflexivity).
    rewrite Hsub. unfold valuesFromSliceAtPath.
    destruct (valuesAtPath e tp); cbn [obind returned]; [|reflexivity].
    destruct (valuesAtPath (VSlice l) tp); reflexivity.
  - (* a map *)
    change (valuesAtPath (VMap m) tp) with (valuesFromMapAtPath m tp).
    rewrite valuesFromMapAtPath_eq.
    destruct tp as [[|head tail]]; cbn [Terms].
    + (* the path is used up *)
      change (IsEmpty (NewTermPath [])) with true. cbn iota.
      pose proof (keywordValues_spec m) as Hkw.
      change (spec_values (VMap m) []) with (spec_node_value m).
      destruct (keywordValues m); [exact Hkw|].
      change (Head (NewTermPath [])) with EmptyString.
      rewrite (no_empty_key_lookup m Hkeys), Hkw. reflexivity.
    + change (IsEmpty (NewTermPath (head :: tail))) with false. cbn iota.
      change (Head (NewTermPath (head :: tail))) with head.
      rewrite spec_values_map_cons.
      destruct (map_lookup m head) as [v|] eqn:Hv; [|reflexivity].
      destruct v; try reflexivity.
      pose proof (map_lookup_In _ _ _ Hv) as Hin. apply list_elem_of_In in Hin.
      rewrite Forall_forall in IHm. specialize (IHm _ Hin). cbn [snd] in IHm.
      specialize (IHm (no_empty_key_lookup_some _ _ _ Hkeys Hv)
                      (Tail (NewTermPath (head :: tail)))).
      assert (Ht : Terms (Tail (NewTermPath (head :: tail))) = tail)
        by (destruct tail; reflexivity).
      rewrite Ht in IHm. exact IHm.
Qed.

Lemma ValuesAtPath_empty_path Unmarshal Expand document tp :
  Terms tp = [] -> ValuesAtPath Unmarshal Expand document tp = Ret (Ok []).
Proof. intros H. unfold ValuesAtPath. now rewrite H. Qed.

(** A document that does not parse: the error of [json.Unmarshal] is what
    [ValuesAtPath] returns, and that is never [ErrInvalidJSON]. *)
Lemma ValuesAtPath_unmarshal_error Unmarshal Expand document tp e :
  Terms tp <> [] -> Unmarshal document = inl e ->
  ValuesAtPath Unmarshal Expand document tp = Ret (Err (error_of_SyntaxError e)) /\
  error_of_SyntaxError e <> ErrInvalidJSON.
Proof.
  intros Hne He. unfold ValuesAtPath. rewrite He.
  destruct (Terms tp); [contradiction|]. split; [reflexivity|].
  destruct e; discriminate.
Qed.

(** An error of the expansion is returned as it is. *)
Lemma ValuesAtPath_expand_error Unmarshal Expand document tp input e :
  Terms tp <> [] -> Unmarshal document = inr input -> Expand input = inl e ->
  ValuesAtPath Unmarshal Expand document tp = Ret (Err (error_of_LdError e)).
Proof.
  intros Hne Hin He. unfold ValuesAtPath. rewrite Hin, He.
  destruct (Terms tp); [contradiction | reflexivity].
Qed.

(** C2, as the code has it. With a term path that is not empty,
    [ValuesAtPath] returns what the recursion of the specification gives on
    the expanded tree (the trees of the JSON-LD processor have no empty
    key), with the errors of parsing and of expansion passed on, and it
    panics where that recursion has no value. With the empty term path it
    returns the empty list, whatever the document. *)
Theorem ValuesAtPath_spec
    (Unmarshal : list Z -> SyntaxError + any) (Expand : any -> LdError + list any)
    (document : list Z) (tp : TermPath) :
  (forall input nodes,
      Unmarshal document = inr input -> Expand input = inr nodes ->
      no_empty_key (VSlice nodes) = true) ->
  (Terms tp = [] -> ValuesAtPath Unmarshal Expand document tp = Ret (Ok [])) /\
  (Terms tp <> [] ->
   observed (ValuesAtPath Unmarshal Expand document tp) =
   spec_values_at_path Unmarshal Expand document (Terms tp)).
Proof.
  intros Hkeys. split; [apply ValuesAtPath_empty_path|].
  intros Hne. unfold ValuesAtPath, spec_values_at_path.
  destruct (Terms tp) as [|t ts] eqn:Hts; [contradiction|]. cbn [length Nat.eqb].
  destruct (Unmarshal document) as [e | input]; [reflexivity|].
  destruct (Expand input) as [e | nodes] eqn:Hexp; [reflexivity|].
  pose proof (valuesAtPath_spec_values (VSlice nodes) (Hkeys _ _ eq_refl Hexp) tp) as H.
  rewrite Hts in H. rewrite <- H. unfold valuesFromSliceAtPath.
  destruct (valuesAtPath (VSlice nodes) tp); reflexivity.
Qed.

Lemma ValuesAtPath_spec_witness :
  (forall input nodes,
      sample_Unmarshal doc_jane = inr input -> sample_Expand input = inr nodes ->
      no_empty_key (VSlice nodes) = true) /\
  Terms name_path <> [] /\
  observed (ValuesAtPath sample_Unmarshal sample_Expand doc_jane name_path) =
  spec_values_at_path sample_Unmarshal sample_Expand doc_jane (Terms name_path) /\
  observed (ValuesAtPath sample_Unmarshal sample_Expand doc_jane name_path) =
  Ok (Some [mkScalar (VString "Jane Doe")]).
Proof.
  assert (Hkeys : forall input nodes,
             sample_Unmarshal doc_jane = inr input -> sample_Expand input = inr nodes ->
             no_empty_key (VSlice nodes) = true).
  { intros input nodes Hin Hexp. vm_compute in Hin.
    injection Hin as <-. vm_compute in Hexp. injection Hexp as <-.
    vm_compute. reflexivity. }
  split; [exact Hkeys|]. split; [discriminate|]. split.
  - apply (proj2 (ValuesAtPath_spec sample_Unmarshal sample_Expand doc_jane name_path Hkeys)).
    discriminate.
  - vm_compute. reflexivity.
Defined.

(** C2, as it is stated, fails on the empty term path: the recursion of the
    specification gives the [@id] of the document's node, [ValuesAtPath]
    returns nothing. *)
Lemma ValuesAtPath_empty_path_counterexample :
  ValuesAtPath sample_Unmarshal sample_Expand doc_jane (NewTermPath []) = Ret (Ok []) /\
  spec_values_at_path sample_Unmarshal sample_Expand doc_jane [] =
  Ok (Some [mkScalar (VString "http://example.org/jane")]) /\
  observed (ValuesAtPath sample_Unmarshal sample_Expand doc_jane (NewTermPath [])) <>
  spec_values_at_path sample_Unmarshal sample_Expand doc_jane [].
Proof.
  split; [reflexivity|]. split; [vm_compute; reflexivity|].
  vm_compute. discriminate.
Qed.

(** C8. The empty document is not JSON. [ValuesAtPath] returns the syntax
    error of [json.Unmarshal] for it, not [ErrInvalidJSON]. *)
Theorem ValuesAtPath_invalid_json :
  sample_Unmarshal doc_empty = inl (mkSyntaxError "unexpected end of JSON input" 0) /\
  ValuesAtPath sample_Unmarshal sample_Expand doc_empty name_path =
  Ret (Err (JSONSyntaxError "unexpected end of JSON input" 0)) /\
  ValuesAtPath sample_Unmarshal sample_Expand doc_empty name_path <>
  Ret (Err ErrInvalidJSON).
Proof.
  split; [vm_compute; reflexivity|]. split; [vm_compute; reflexivity|].
  vm_compute. discriminate.
Qed.

(** ** The planner *)

Section PlannerFacts.

Variable scan : queryPlan -> heap -> Bucket -> list (list Z * list Z) * option error.
Variables (h : heap) (query : Query).

Lemma findIndex_range_spec l : forall cIndex cMatch,
  match findIndex_range l h query cIndex cMatch with
  | None =>
      cIndex = None /\ Forall (fun j => (Index_IsMatch j h query <= cMatch)%Q) l
  | Some i =>
      (cIndex = Some i /\ Forall (fun j => (Index_IsMatch j h query <= cMatch)%Q) l) \/
      (In i l /\ (cMatch < Index_IsMatch i h query)%Q /\
       Forall (fun j => (Index_IsMatch j h query <= Index_IsMatch i h query)%Q) l)
  end.
Proof.
  induction l as [|i l IH]; intros cIndex cMatch; cbn [findIndex_range].
  - destruct cIndex; auto.
  - destruct (Qlt_le_dec cMatch (Index_IsMatch i h query)) as [Hlt | Hle].
    + specialize (IH (Some i) (Index_IsMatch i h query)).
      destruct (findIndex_range l h query (Some i) (Index_IsMatch i h query)) as [i'|].
      * right. destruct IH as [[[= <-] Hall] | (Hin & Hbetter & Hall)].
        -- split; [now left|]. split; [assumption|].
           constructor; [apply Qle_refl | assumption].
        -- split; [now right|]. split; [eapply Qlt_trans; eassumption|].
           constructor; [now apply Qlt_le_weak | assumption].
      * destruct IH as [[=] _].
    + specialize (IH cIndex cMatch).
      destruct (findIndex_range l h query cIndex cMatch) as [i'|].
      * destruct IH as [[-> Hall] | (Hin & Hbetter & Hall)].
        -- left. split; [reflexivity|]. constructor; assumption.
        -- right. split; [now right|]. split; [assumption|].
           constructor; [|assumption].
           apply Qlt_le_weak. eapply Qle_lt_trans; eassumption.
      * destruct IH as [-> Hall]. split; [reflexivity|]. constructor; assumption.
Qed.

End PlannerFacts.

Lemma findIndex_spec (c : collection) (h : heap) (q : query) :
  match collection_findIndex c h (Some q) with
  | None => no_index_matches c h q
  | Some index => best_index c h q index
  end.
Proof.
  unfold collection_findIndex.
  pose proof (findIndex_range_spec h (Some q) (IndexList c) None 0%Q) as H.
  destruct (findIndex_range (IndexList c) h (Some q) None 0) as [index|].
  - destruct H as [[[=] _] | (Hin & Hpos & Hall)].
    split; [assumption|]. split; [assumption|].
    intros j Hj. rewrite Forall_forall in Hall. apply Hall. now apply list_elem_of_In.
  - destruct H as [_ Hall]. intros i Hi.
    rewrite Forall_forall in Hall. apply Hall. now apply list_elem_of_In.
Qed.

Lemma no_index_or_some (c : collection) (h : heap) (q : query) :
  (no_index_matches c h q /\ collection_findIndex c h (Some q) = None) \/
  (some_index_matches c h q /\ exists index,
      collection_findIndex c h (Some q) = Some index /\ best_index c h q index).
Proof.
  pose proof (findIndex_spec c h q) as H.
  destruct (collection_findIndex c h (Some q)) as [index|].
  - right. split; [|eauto]. exists index. destruct H as (Hin & Hpos & _). auto.
  - left. auto.
Qed.

Lemma no_index_not_some (c : collection) (h : heap) (q : query) :
  no_index_matches c h q -> some_index_matches c h q -> False.
Proof.
  intros Hno (i & Hin & Hpos). apply (Qlt_not_le _ _ Hpos). now apply Hno.
Qed.

Lemma findIndex_none (c : collection) (h : heap) (q : query) :
  no_index_matches c h q -> collection_findIndex c h (Some q) = None.
Proof.
  intros Hno. destruct (no_index_or_some c h q) as [[_ H] | [Hsome _]]; [assumption|].
  destruct (no_index_not_some _ _ _ Hno Hsome).
Qed.

Lemma findIndex_some (c : collection) (h : heap) (q : query) :
  some_index_matches c h q ->
  exists index, collection_findIndex c h (Some q) = Some index /\ best_index c h q index.
Proof.
  intros Hsome. destruct (no_index_or_some c h q) as [[Hno _] | [_ H]]; [|assumption].
  destruct (no_index_not_some _ _ _ Hno Hsome).
Qed.

Lemma walk_no_error {St : Type} (fn : Walker St) (e : error) rows :
  (forall s k v, (fn s k v).2 <> Some e) ->
  forall st, (walk fn rows st).2 <> Some e.
Proof.
  intros Hfn. induction rows as [|[k v] rows IH]; intros st; cbn [walk].
  - discriminate.
  - specialize (Hfn st k v). destruct (fn st k v) as [st' [err|]]; [exact Hfn | apply IH].
Qed.

Lemma execute_no_error {St : Type} scan plan h db (fn : Walker St) (e : error) st :
  (scan plan h db).2 <> Some e ->
  (forall s k v, (fn s k v).2 <> Some e) ->
  (execute scan plan h db fn st).2 <> Some e.
Proof.
  intros Hscan Hfn. unfold execute. destruct (scan plan h db) as [rows ending].
  pose proof (walk_no_error fn e rows Hfn st) as Hw.
  destruct (walk fn rows st) as [st' [err|]]; [exact Hw | exact Hscan].
Qed.

Lemma Find_walker_no_error ctx (e : error) :
  (forall n, ctx n <> Some e) ->
  forall s k v, (Find_walker ctx s k v).2 <> Some e.
Proof.
  intros Hctx [docs n] k v. unfold Find_walker. specialize (Hctx n).
  destruct (ctx n); [exact Hctx | discriminate].
Qed.

Lemma walk_Find_walker_live ctx rows :
  (forall n, ctx n = None) ->
  forall docs n,
    walk (Find_walker ctx) rows (docs, n) =
    ((docs ++ map snd rows, (n + length rows)%nat), None).
Proof.
  intros Hctx. induction rows as [|[key val] rows IH]; intros docs n; cbn [walk Find_walker].
  - cbn. now rewrite app_nil_r, Nat.add_0_r.
  - rewrite Hctx, IH. cbn [map snd length]. rewrite <- app_assoc. cbn [app].
    now rewrite Nat.add_succ_comm.
Qed.

(** [Find] executes the plan of the query with its own walker. *)
Lemma Find_of_plan
    (scan : queryPlan -> heap -> Bucket -> list (list Z * list Z) * option error)
    (c : collection) (h : heap) (db : Bucket) (q : query) (plan : queryPlan) :
  collection_queryPlan c h (Some q) = Ok plan ->
  forall ctx,
    collection_Find scan c h db ctx (Some q) =
    match execute scan plan h db (Find_walker ctx) ([], O) with
    | (_, Some err) => Err err
    | ((docs, _), None) => Ok docs
    end /\
    ((forall n, ctx n = None) ->
     collection_Find scan c h db ctx (Some q) =
     match (scan plan h db).2 with
     | None => Ok (map snd (scan plan h db).1)
     | Some e => Err e
     end).
Proof.
  intros Hplan ctx. unfold collection_Find, collection_Iterate. rewrite Hplan.
  split; [reflexivity|]. intros Hctx.
  unfold execute. destruct (scan plan h db) as [rows ending]. cbn [fst snd].
  rewrite (walk_Find_walker_live ctx rows Hctx). destruct ending; reflexivity.
Qed.

(** C4, as the code has it. The nil query: [queryPlan], [Iterate] and
    [Find] give [ErrNoQuery], [IndexIterate] gives [ErrNoIndex], and no
    walker is called. A query that is not nil: when no index of the
    collection scores above 0, [IndexIterate] returns [ErrNoIndex] without
    calling the walker, and [Iterate] and [Find] execute a full-table scan;
    when some index scores above 0, there is an index of the highest score
    with which [IndexIterate] executes an index scan and [Iterate] and [Find]
    a result scan. One of the two is the case. [Iterate] and [IndexIterate]
    return what the execution returns; [Find] executes the plan with its own
    walker, so with a context that is not cancelled it returns the documents
    of all rows of the plan, in their order, or the error that ends the
    scan. Hence, where neither the scan nor the walker (for [Find]: the
    context) produces [ErrNoIndex], [IndexIterate] returns it exactly when no
    index scores above 0, and [Iterate] and [Find] never. *)
Theorem planner_spec
    (scan : queryPlan -> heap -> Bucket -> list (list Z * list Z) * option error)
    (c : collection) (h : heap) (db : Bucket) (q : query) :
  (collection_queryPlan c h None = Err ErrNoQuery /\
   (forall ctx, collection_Find scan c h db ctx None = Err ErrNoQuery) /\
   (forall (St : Type) (fn : Walker St) (st : St),
       collection_Iterate scan c h db None fn st = (st, Some ErrNoQuery) /\
       collection_IndexIterate scan c h db None fn st = (st, Some ErrNoIndex))) /\
  (no_index_matches c h q ->
   collection_queryPlan c h (Some q) = Ok (fullTableScanQueryPlan c (Some q)) /\
   (forall (St : Type) (fn : Walker St) (st : St),
       collection_IndexIterate scan c h db (Some q) fn st = (st, Some ErrNoIndex) /\
       collection_Iterate scan c h db (Some q) fn st =
       execute scan (fullTableScanQueryPlan c (Some q)) h db fn st) /\
   (forall ctx,
       collection_Find scan c h db ctx (Some q) =
       match execute scan (fullTableScanQueryPlan c (Some q)) h db (Find_walker ctx) ([], O) with
       | (_, Some err) => Err err
       | ((docs, _), None) => Ok docs
       end /\
       ((forall n, ctx n = None) ->
        collection_Find scan c h db ctx (Some q) =
        match (scan (fullTableScanQueryPlan c (Some q)) h db).2 with
        | None => Ok (map snd (scan (fullTableScanQueryPlan c (Some q)) h db).1)
        | Some e => Err e
        end))) /\
  (some_index_matches c h q ->
   exists index,
     best_index c h q index /\
     collection_queryPlan c h (Some q) = Ok (resultScanQueryPlan c (Some q) index) /\
     (forall (St : Type) (fn : Walker St) (st : St),
         collection_IndexIterate scan c h db (Some q) fn st =
         execute scan (indexScanQueryPlan c (Some q) index) h db fn st /\
         collection_Iterate scan c h db (Some q) fn st =
         execute scan (resultScanQueryPlan c (Some q) index) h db fn st) /\
     (forall ctx,
         collection_Find scan c h db ctx (Some q) =
         match execute scan (resultScanQueryPlan c (Some q) index) h db
                       (Find_walker ctx) ([], O) with
         | (_, Some err) => Err err
         | ((docs, _), None) => Ok docs
         end /\
         ((forall n, ctx n = None) ->
          collection_Find scan c h db ctx (Some q) =
          match (scan (resultScanQueryPlan c (Some q) index) h db).2 with
          | None => Ok (map snd (scan (resultScanQueryPlan c (Some q) index) h db).1)
          | Some e => Err e
          end))) /\
  (no_index_matches c h q \/ some_index_matches c h q) /\
  ((forall plan, (scan plan h db).2 <> Some ErrNoIndex) ->
   (forall (St : Type) (fn : Walker St) (st : St),
       (forall s k v, (fn s k v).2 <> Some ErrNoIndex) ->
       (collection_Iterate scan c h db (Some q) fn st).2 <> Some ErrNoIndex /\
       ((collection_IndexIterate scan c h db (Some q) fn st).2 = Some ErrNoIndex <->
        no_index_matches c h q)) /\
   (forall ctx, (forall n, ctx n <> Some ErrNoIndex) ->
                collection_Find scan c h db ctx (Some q) <> Err ErrNoIndex)).
Proof.
  assert (Hiter : forall (St : Type) (fn : Walker St) (st : St),
             (forall plan, (scan plan h db).2 <> Some ErrNoIndex) ->
             (forall s k v, (fn s k v).2 <> Some ErrNoIndex) ->
             (collection_Iterate scan c h db (Some q) fn st).2 <> Some ErrNoIndex).
  { intros St fn st Hscan Hfn. unfold collection_Iterate, collection_queryPlan.
    destruct (collection_findIndex c h (Some q)); now apply execute_no_error. }
  split; [|split; [|split; [|split]]].
  - split; [reflexivity|]. split; [reflexivity|]. intros St fn st. split; reflexivity.
  - intros Hno. pose proof (findIndex_none c h q Hno) as Hf.
    assert (Hplan : collection_queryPlan c h (Some q) = Ok (fullTableScanQueryPlan c (Some q)))
      by (unfold collection_queryPlan; now rewrite Hf).
    split; [exact Hplan|]. split.
    + intros St fn st. unfold collection_IndexIterate, collection_Iterate.
      rewrite Hf, Hplan. split; reflexivity.
    + apply Find_of_plan, Hplan.
  - intros Hsome. destruct (findIndex_some c h q Hsome) as (index & Hf & Hbest).
    exists index. split; [assumption|].
    assert (Hplan : collection_queryPlan c h (Some q) =
                    Ok (resultScanQueryPlan c (Some q) index))
      by (unfold collection_queryPlan; now rewrite Hf).
    split; [exact Hplan|]. split.
    + intros St fn st. unfold collection_IndexIterate, collection_Iterate.
      rewrite Hf, Hplan. split; reflexivity.
    + apply Find_of_plan, Hplan.
  - destruct (no_index_or_some c h q) as [[H _] | [H _]]; auto.
  - intros Hscan. split.
    + intros St fn st Hfn. split; [now apply Hiter|].
      unfold collection_IndexIterate.
      destruct (no_index_or_some c h q) as [[Hno Hf] | [Hsome (index & Hf & _)]];
        rewrite Hf.
      * split; [intros _; assumption | reflexivity].
      * split.
        -- intros He. exfalso. revert He. now apply execute_no_error.
        -- intros Hno. destruct (no_index_not_some _ _ _ Hno Hsome).
    + intros ctx Hctx He. unfold collection_Find in He.
      pose proof (Hiter _ (Find_walker ctx) ([], O) Hscan
                        (Find_walker_no_error ctx ErrNoIndex Hctx)) as Hne.
      destruct (collection_Iterate scan c h db (Some q) (Find_walker ctx) ([], O))
        as [[docs n] [err|]]; [|discriminate].
      injection He as ->. now apply Hne.
Qed.

(** The sample collection has the indices [by_url] and [by_name]; the query
    for the name is planned on [by_name], and [Find] with a context that is
    not cancelled returns the document the result scan visits. *)
Lemma planner_spec_witness :
  some_index_matches (test_collection [by_url; by_name]) jane_heap jane_query /\
  (exists index,
    best_index (test_collection [by_url; by_name]) jane_heap jane_query index /\
    collection_queryPlan (test_collection [by_url; by_name]) jane_heap (Some jane_query) =
    Ok (resultScanQueryPlan (test_collection [by_url; by_name]) (Some jane_query) index)) /\
  (forall n, ctx_background n = None) /\
  collection_Find sample_scan (test_collection [by_url; by_name]) jane_heap
                  (db_jane (test_collection [by_url; by_name])) ctx_background
                  (Some jane_query) = Ok [doc_jane].
Proof.
  assert (Hsome : some_index_matches (test_collection [by_url; by_name]) jane_heap jane_query).
  { exists by_name. split; [right; left; reflexivity | vm_compute; reflexivity]. }
  assert (Hctx : forall n, ctx_background n = None) by reflexivity.
  split; [exact Hsome|].
  destruct (proj1 (proj2 (proj2 (planner_spec sample_scan
              (test_collection [by_url; by_name]) jane_heap
              (db_jane (test_collection [by_url; by_name])) jane_query))) Hsome)
    as (index & Hbest & Hplan & _ & Hfind).
  split; [exists index; split; assumption|]. split; [exact Hctx|].
  rewrite (proj2 (Hfind ctx_background) Hctx). vm_compute. reflexivity.
Defined.

(** C4, as it is stated, fails for a walker that returns [ErrNoIndex]
    itself: an index of the collection scores above 0 and the store holds a
    document of the name asked for, [Iterate] hands the document to the
    walker and returns the walker's error, and so does [IndexIterate]. *)
Lemma planner_counterexample :
  some_index_matches (test_collection [by_name]) jane_heap jane_query /\
  collection_Iterate sample_scan (test_collection [by_name]) jane_heap
                     (db_jane (test_collection [by_name])) (Some jane_query)
                     walker_no_index tt = (tt, Some ErrNoIndex) /\
  collection_IndexIterate sample_scan (test_collection [by_name]) jane_heap
                          (db_jane (test_collection [by_name])) (Some jane_query)
                          walker_no_index tt = (tt, Some ErrNoIndex).
Proof.
  split; [|split; vm_compute; reflexivity].
  exists by_name. split; [left; reflexivity | vm_compute; reflexivity].
Qed.

(** ** Find and the context *)

Lemma walk_Find_walker_cancel ctx rows :
  forall docs n k err,
    ctx (n + k)%nat = Some err ->
    (forall j, (j < k)%nat -> ctx (n + j)%nat = None) ->
    (k < length rows)%nat ->
    exists st, walk (Find_walker ctx) rows (docs, n) = (st, Some err).
Proof.
  induction rows as [|[key val] rows IH]; intros docs n k err Hk Hbefore Hlen.
  - simpl in Hlen. lia.
  - cbn [walk Find_walker]. destruct k as [|k].
    + rewrite Nat.add_0_r in Hk. rewrite Hk. eauto.
    + assert (H0 : ctx n = None).
      { specialize (Hbefore O). rewrite Nat.add_0_r in Hbefore. apply Hbefore. lia. }
      rewrite H0. apply (IH _ (S n) k err).
      * now rewrite Nat.add_succ_comm.
      * intros j Hj. rewrite Nat.add_succ_comm. apply Hbefore. lia.
      * simpl in Hlen. lia.
Qed.

(** C5, as the code has it. [Find] asks the context each time the plan
    hands it a document. With a query that is not nil: if the context
    answers with an error at one of these calls (at the first one when it is
    cancelled already), [Find] returns that error and no document, also not
    those collected before; if the plan hands over no document, the context
    is not asked and [Find] returns the empty list, or the error that ended
    the scan. The nil query gives [ErrNoQuery]. *)
Theorem Find_cancelled
    (scan : queryPlan -> heap -> Bucket -> list (list Z * list Z) * option error)
    (c : collection) (h : heap) (db : Bucket) (ctx : nat -> option error)
    (q : query) (plan : queryPlan) :
  collection_queryPlan c h (Some q) = Ok plan ->
  (forall err k,
      ctx k = Some err -> (forall j, (j < k)%nat -> ctx j = None) ->
      (k < length (scan plan h db).1)%nat ->
      collection_Find scan c h db ctx (Some q) = Err err) /\
  ((scan plan h db).1 = [] ->
   collection_Find scan c h db ctx (Some q) =
   match (scan plan h db).2 with Some e => Err e | None => Ok [] end) /\
  collection_Find scan c h db ctx None = Err ErrNoQuery.
Proof.
  intros Hplan. unfold collection_Find, collection_Iterate. rewrite Hplan.
  unfold execute. destruct (scan plan h db) as [rows ending]. cbn [fst snd].
  split; [|split].
  - intros err k Hk Hbefore Hlen.
    destruct (walk_Find_walker_cancel ctx rows [] O k err Hk Hbefore Hlen) as [[docs n] ->].
    reflexivity.
  - intros ->. cbn [walk]. destruct ending; reflexivity.
  - reflexivity.
Qed.

Lemma Find_cancelled_witness :
  collection_queryPlan (test_collection [by_name]) jane_heap (Some jane_query) =
  Ok (resultScanQueryPlan (test_collection [by_name]) (Some jane_query) by_name) /\
  ctx_cancelled O = Some Canceled /\
  (O < length (sample_scan (resultScanQueryPlan (test_collection [by_name])
                                                 (Some jane_query) by_name)
                           jane_heap (db_jane (test_collection [by_name]))).1)%nat /\
  collection_Find sample_scan (test_collection [by_name]) jane_heap
                  (db_jane (test_collection [by_name])) ctx_cancelled (Some jane_query) =
  Err Canceled.
Proof.
  assert (Hplan : collection_queryPlan (test_collection [by_name]) jane_heap (Some jane_query) =
                  Ok (resultScanQueryPlan (test_collection [by_name]) (Some jane_query) by_name))
    by reflexivity.
  assert (Hlen : (O < length (sample_scan (resultScanQueryPlan (test_collection [by_name])
                                              (Some jane_query) by_name)
                          jane_heap (db_jane (test_collection [by_name]))).1)%nat)
    by (vm_compute; lia).
  split; [exact Hplan|]. split; [reflexivity|]. split; [exact Hlen|].
  apply (proj1 (Find_cancelled sample_scan (test_collection [by_name]) jane_heap
                  (db_jane (test_collection [by_name])) ctx_cancelled jane_query _ Hplan)
               Canceled O).
  - reflexivity.
  - intros j Hj. lia.
  - exact Hlen.
Defined.

(** C5, as it is stated, fails where the walker is never called: on an empty
    store [Find] returns the empty list and no error although the context is
    cancelled, and the nil query is answered with [ErrNoQuery]. *)
Lemma Find_cancelled_counterexample :
  collection_Find sample_scan (test_collection [by_name]) jane_heap ∅
                  ctx_cancelled (Some jane_query) = Ok [] /\
  collection_Find sample_scan (test_collection [by_name]) jane_heap ∅
                  ctx_cancelled (Some jane_query) <> Err Canceled /\
  collection_Find sample_scan (test_collection [by_name]) jane_heap ∅
                  ctx_cancelled None = Err ErrNoQuery.
Proof.
  split; [vm_compute; reflexivity|]. split; [vm_compute; discriminate | reflexivity].
Qed.

(** ** Documents of a collection *)

Lemma Bucket_Bucket_insert (b : Bucket) name child :
  Bucket_Bucket (<[name := Nested child]> b) name = Some child.
Proof. unfold Bucket_Bucket. now rewrite lookup_insert_eq. Qed.

Lemma Bucket_Put_Get (b b' : Bucket) key val :
  Bucket_Put b key val = Ok b' -> Bucket_Get b' key = Some val.
Proof.
  unfold Bucket_Put, Bucket_Get. destruct key as [|k key]; [discriminate|].
  destruct (MaxKeySize <? _); [discriminate|].
  destruct (MaxValueSize <? _); [discriminate|].
  destruct (b !! (k :: key)) as [[v | nb]|]; try discriminate;
    intros [= <-]; now rewrite lookup_insert_eq.
Qed.

Lemma Bucket_Delete_Get (b b' : Bucket) key :
  Bucket_Delete b key = Ok b' -> Bucket_Get b' key = None.
Proof.
  unfold Bucket_Delete, Bucket_Get. destruct (b !! key) as [[v | nb]|] eqn:Hk.
  - intros [= <-]. now rewrite lookup_delete_eq.
  - discriminate.
  - intros [= <-]. now rewrite Hk.
Qed.

Lemma delete_from_indices_frame l : forall bucket ref doc bucket',
  Forall index_frame l ->
  delete_from_indices l bucket ref doc = Ok bucket' ->
  bucket' !! documentBucketByteRef = bucket !! documentBucketByteRef.
Proof.
  induction l as [|i l IH]; intros bucket ref doc bucket' Hframe; cbn [delete_from_indices].
  - now intros [= <-].
  - inversion Hframe as [|? ? Hi Hl]; subst.
    destruct (Index_Delete i bucket ref doc) as [b1|] eqn:Hd; [|discriminate].
    intros Hrest. rewrite (IH _ _ _ _ Hl Hrest). apply (Hi bucket ref doc). now right.
Qed.

Lemma add_to_indices_frame l : forall bucket ref doc bucket',
  Forall index_frame l ->
  add_to_indices l bucket ref doc = Ok bucket' ->
  bucket' !! documentBucketByteRef = bucket !! documentBucketByteRef.
Proof.
  induction l as [|i l IH]; intros bucket ref doc bucket' Hframe; cbn [add_to_indices].
  - now intros [= <-].
  - inversion Hframe as [|? ? Hi Hl]; subst.
    destruct (Index_Add i bucket ref doc) as [b1|] eqn:Hd; [|discriminate].
    intros Hrest. rewrite (IH _ _ _ _ Hl Hrest). apply (Hi bucket ref doc). now left.
Qed.

(** What a successful [Add] of one document leaves in the store. *)
Lemma collection_add_one c tx d tx' :
  collection_add c tx [d] = Ok tx' ->
  exists bucket docBucket,
    Bucket_Bucket tx' (bytes_of_string (Name c)) = Some bucket /\
    Bucket_Bucket bucket documentBucketByteRef = Some docBucket /\
    Bucket_Get docBucket (refMake c d) = Some d.
Proof.
  unfold collection_add.
  destruct (CreateBucketIfNotExists tx _) as [[tx1 bucket]|]; [|discriminate].
  destruct (CreateBucketIfNotExists bucket _) as [[bucket1 docs]|]; [|discriminate].
  cbn [add_docs].
  destruct (add_to_indices _ _ _ _) as [bucket2|]; [|discriminate].
  unfold through.
  destruct (Bucket_Bucket bucket2 documentBucketByteRef) as [child|]; [|discriminate].
  destruct (Bucket_Put child (refMake c d) d) as [child'|] eqn:Hput; [|discriminate].
  intros [= <-]. eexists _, child'.
  rewrite !Bucket_Bucket_insert. repeat split. eapply Bucket_Put_Get; eassumption.
Qed.

(** [db.Update] rolls back when the function returns an error. *)
Lemma Update_rolled_back (db : gmap (list Z) node) fn :
  (Update db fn).2 <> None -> (Update db fn).1 = db.
Proof. unfold Update. destruct (fn db); cbn; [congruence | reflexivity]. Qed.

Lemma add_to_indices_rejected l i ref doc :
  In i l -> (forall b, is_Ok (Index_Add i b ref doc) = false) ->
  forall bucket, is_Ok (add_to_indices l bucket ref doc) = false.
Proof.
  intros Hin Hrej. induction l as [|i0 l IH]; intros bucket; [destruct Hin|].
  cbn [add_to_indices]. destruct Hin as [-> | Hin].
  - specialize (Hrej bucket). destruct (Index_Add i bucket ref doc); [discriminate | reflexivity].
  - destruct (Index_Add i0 bucket ref doc); [now apply IH | reflexivity].
Qed.

Lemma collection_add_rejected c tx d :
  (exists i, In i (IndexList c) /\ forall b, is_Ok (Index_Add i b (refMake c d) d) = false) \/
  (forall b, is_Ok (Bucket_Put b (refMake c d) d) = false) ->
  is_Ok (collection_add c tx [d]) = false.
Proof.
  intros H. unfold collection_add.
  destruct (CreateBucketIfNotExists tx _) as [[tx1 bucket]|]; [|reflexivity].
  destruct (CreateBucketIfNotExists bucket _) as [[bucket1 docs]|]; [|reflexivity].
  cbn [add_docs].
  destruct (add_to_indices _ _ _ _) as [bucket2|] eqn:Hidx; [|reflexivity].
  destruct H as [(i & Hin & Hrej) | Hput].
  - pose proof (add_to_indices_rejected _ i _ _ Hin Hrej bucket1) as Hno.
    rewrite Hidx in Hno. discriminate.
  - unfold through.
    destruct (Bucket_Bucket bucket2 documentBucketByteRef) as [child|]; [|reflexivity].
    specialize (Hput child).
    destruct (Bucket_Put child (refMake c d) d); [discriminate | reflexivity].
Qed.

(** C1, as the code has it; the indices of the collection leave the bucket
    of the documents alone. When [Add] returns no error, [Get] returns the
    document for its reference, and after a [Delete] that returns no error
    [Get] returns nil, with no error either time. When [Add] returns an
    error, the transaction is rolled back: the store is the store from
    before, so that [Get] returns for every reference what it returned
    before. [Add] returns an error, and rolls back, whenever an index of the
    collection does not accept the document or the store does not accept the
    reference as a key. *)
Theorem Add_Get_Delete (c : collection) (db : gmap (list Z) node) (d : list Z) :
  Forall index_frame (IndexList c) ->
  (forall db1,
      collection_Add c db [d] = (db1, None) ->
      collection_Get c db1 (collection_Reference c d) = (Some d, None) /\
      forall db2,
        collection_Delete c db1 d = (db2, None) ->
        collection_Get c db2 (collection_Reference c d) = (None, None)) /\
  (forall db1 e,
      collection_Add c db [d] = (db1, Some e) ->
      db1 = db /\
      forall key, collection_Get c db1 key = collection_Get c db key) /\
  ((exists i, In i (IndexList c) /\
              forall b, is_Ok (Index_Add i b (collection_Reference c d) d) = false) \/
   (forall b, is_Ok (Bucket_Put b (collection_Reference c d) d) = false) ->
   exists e, collection_Add c db [d] = (db, Some e)).
Proof.
  intros Hframe. split; [|split].
  - intros db1 Hadd. unfold collection_Add, Update in Hadd.
    destruct (collection_add c db [d]) as [tx'|] eqn:Hok; [|discriminate].
    injection Hadd as <-.
    destruct (collection_add_one _ _ _ _ Hok) as (bucket & docBucket & Hb & Hd & Hget).
    unfold collection_Reference. split.
    + unfold collection_Get, collection_documentBucket. now rewrite Hb, Hd, Hget.
    + intros db2. unfold collection_Delete, Update, collection_delete, collection_documentBucket.
      rewrite Hb, Hd.
      destruct (Bucket_Delete docBucket (refMake c d)) as [docBucket'|] eqn:Hdel;
        [|discriminate].
      destruct (delete_from_indices _ _ _ _) as [bucket2|] eqn:Hidx; [|discriminate].
      intros [= <-].
      apply delete_from_indices_frame in Hidx; [|assumption].
      rewrite lookup_insert_eq in Hidx.
      unfold collection_Get, collection_documentBucket.
      rewrite Bucket_Bucket_insert. unfold Bucket_Bucket at 1. rewrite Hidx.
      now rewrite (Bucket_Delete_Get _ _ _ Hdel).
  - intros db1 e Hadd. unfold collection_Add, Update in Hadd.
    destruct (collection_add c db [d]) as [tx'|]; [discriminate|].
    injection Hadd as <- _. split; reflexivity.
  - intros Hrej. apply (collection_add_rejected c db d) in Hrej.
    unfold collection_Add, Update.
    destruct (collection_add c db [d]) as [tx'|e]; [discriminate|]. now exists e.
Qed.

Lemma CreateBucketIfNotExists_frame (b b1 c : gmap (list Z) node) name k :
  CreateBucketIfNotExists b name = Ok (b1, c) -> k <> name -> b1 !! k = b !! k.
Proof.
  unfold CreateBucketIfNotExists. destruct name as [|n0 nm]; [discriminate|].
  destruct (b !! (n0 :: nm)) as [[v | nb]|]; try discriminate; intros [= <- <-] Hk.
  - reflexivity.
  - now rewrite lookup_insert_ne.
Qed.

(** The sample index writes under its own name only. *)
Lemma sample_index_frame name tp :
  bytes_of_string name <> documentBucketByteRef -> index_frame (sample_index name tp).
Proof.
  intros Hne b ref doc b'. cbn [sample_index Index_Add Index_Delete].
  unfold sample_Add, sample_Delete. intros [H | H].
  - destruct (sample_keys tp doc) as [keys|]; [|discriminate].
    destruct (CreateBucketIfNotExists b (bytes_of_string name)) as [[b1 ib]|] eqn:Hc;
      [|discriminate].
    destruct (sample_put_keys ib keys ref) as [ib'|]; [|discriminate].
    injection H as <-. rewrite lookup_insert_ne by assumption.
    eapply CreateBucketIfNotExists_frame; [eassumption | congruence].
  - destruct (sample_keys tp doc) as [keys|]; [|discriminate].
    destruct (Bucket_Bucket b (bytes_of_string name)) as [ib|]; [|now injection H as <-].
    destruct (sample_remove_keys ib keys ref) as [ib'|]; [|discriminate].
    injection H as <-. now rewrite lookup_insert_ne.
Qed.

Lemma pair_of_snd {A B : Type} (x : A * B) (b : B) : x.2 = b -> x = (x.1, b).
Proof. destruct x as [a b']. cbn. now intros ->. Qed.

(** The sample collection with the index of the names: [doc_jane] is stored
    and found, deleted and gone; [doc_text], which is not JSON, is rejected
    by the index, and the store that holds [doc_jane] stays as it was. *)
Lemma Add_Get_Delete_witness :
  Forall index_frame (IndexList (test_collection [by_name])) /\
  collection_Add (test_collection [by_name]) ∅ [doc_jane] =
  (db_jane (test_collection [by_name]), None) /\
  collection_Get (test_collection [by_name]) (db_jane (test_collection [by_name]))
                 (collection_Reference (test_collection [by_name]) doc_jane) =
  (Some doc_jane, None) /\
  collection_Delete (test_collection [by_name]) (db_jane (test_collection [by_name])) doc_jane =
  (db_jane_deleted (test_collection [by_name]), None) /\
  collection_Get (test_collection [by_name]) (db_jane_deleted (test_collection [by_name]))
                 (collection_Reference (test_collection [by_name]) doc_jane) =
  (None, None) /\
  (collection_Add (test_collection [by_name]) (db_jane (test_collection [by_name]))
                  [doc_text]).2 =
  Some (JSONSyntaxError "invalid character 'o' in literal null (expecting 'u')" 2) /\
  (collection_Add (test_collection [by_name]) (db_jane (test_collection [by_name]))
                  [doc_text]).1 = db_jane (test_collection [by_name]).
Proof.
  assert (Hframe : Forall index_frame (IndexList (test_collection [by_name]))).
  { repeat constructor. apply sample_index_frame. vm_compute. discriminate. }
  assert (Hadd : collection_Add (test_collection [by_name]) ∅ [doc_jane] =
                 (db_jane (test_collection [by_name]), None)).
  { unfold db_jane. apply pair_of_snd. vm_compute. reflexivity. }
  assert (Hdelete : collection_Delete (test_collection [by_name])
                      (db_jane (test_collection [by_name])) doc_jane =
                    (db_jane_deleted (test_collection [by_name]), None)).
  { unfold db_jane_deleted. apply pair_of_snd. vm_compute. reflexivity. }
  assert (Herr : (collection_Add (test_collection [by_name])
                                 (db_jane (test_collection [by_name])) [doc_text]).2 =
                 Some (JSONSyntaxError "invalid character 'o' in literal null (expecting 'u')" 2))
    by (vm_compute; reflexivity).
  split; [exact Hframe|]. split; [exact Hadd|].
  destruct (proj1 (Add_Get_Delete (test_collection [by_name]) ∅ doc_jane Hframe) _ Hadd)
    as [Hget Hdel].
  split; [exact Hget|]. split; [exact Hdelete|]. split; [exact (Hdel _ Hdelete)|].
  split; [exact Herr|].
  exact (proj1 (proj1 (proj2 (Add_Get_Delete (test_collection [by_name])
                                (db_jane (test_collection [by_name])) doc_text Hframe))
                      _ _ (pair_of_snd _ _ Herr))).
Defined.

(** C1, as it is stated, fails for a document an index of the collection
    does not accept. The store holds [doc_jane]; [Add] of [doc_text] returns
    the error of the index and leaves the store as it was, so [Get] returns
    nil for the reference of [doc_text], and [doc_jane] as before. *)
Lemma Add_rejected_counterexample :
  collection_Get (test_collection [by_name]) (db_jane (test_collection [by_name]))
                 (collection_Reference (test_collection [by_name]) doc_jane) =
  (Some doc_jane, None) /\
  (collection_Add (test_collection [by_name]) (db_jane (test_collection [by_name]))
                  [doc_text]).2 =
  Some (JSONSyntaxError "invalid character 'o' in literal null (expecting 'u')" 2) /\
  (collection_Add (test_collection [by_name]) (db_jane (test_collection [by_name]))
                  [doc_text]).1 = db_jane (test_collection [by_name]) /\
  collection_Get (test_collection [by_name])
                 (collection_Add (test_collection [by_name])
                                 (db_jane (test_collection [by_name])) [doc_text]).1
                 (collection_Reference (test_collection [by_name]) doc_text) = (None, None) /\
  collection_Get (test_collection [by_name])
                 (collection_Add (test_collection [by_name])
                                 (db_jane (test_collection [by_name])) [doc_text]).1
                 (collection_Reference (test_collection [by_name]) doc_text) <>
  (Some doc_text, None) /\
  collection_Get (test_collection [by_name])
                 (collection_Add (test_collection [by_name])
                                 (db_jane (test_collection [by_name])) [doc_text]).1
                 (collection_Reference (test_collection [by_name]) doc_jane) =
  (Some doc_jane, None).
Proof.
  assert (Herr : (collection_Add (test_collection [by_name])
                                 (db_jane (test_collection [by_name])) [doc_text]).2 =
                 Some (JSONSyntaxError "invalid character 'o' in literal null (expecting 'u')" 2))
    by (vm_compute; reflexivity).
  split; [vm_compute; reflexivity|]. split; [exact Herr|]. split.
  - apply Update_rolled_back. fold (collection_Add (test_collection [by_name])
                                      (db_jane (test_collection [by_name])) [doc_text]).
    rewrite Herr. discriminate.
  - split; [vm_compute; reflexivity|]. split; [vm_compute; discriminate|].
    vm_compute. reflexivity.
Qed.

(** ** Indices of a collection *)

#[local] Instance key_le_total : Total key_le.
Proof.
  intros x y. unfold key_le. rewrite (bytes_Compare_antisym y.1 x.1). lia.
Qed.

Lemma cursor_pairs_sorted (b : gmap (list Z) node) :
  Sorted lex_le (map fst (cursor_pairs b)).
Proof.
  unfold cursor_pairs. rewrite map_map. cbn [fst].
  apply (Sorted_fmap (fun kv : list Z * node => kv.1) key_le lex_le).
  - intros x y. unfold key_le. apply bytes_Compare_le.
  - apply (Sorted_merge_sort key_le).
Qed.

Lemma cursor_pairs_elem (b : gmap (list Z) node) (ref doc : list Z) :
  In (ref, doc) (cursor_pairs b) <->
  b !! ref = Some (Leaf doc) \/ (exists nb, b !! ref = Some (Nested nb) /\ doc = []).
Proof.
  unfold cursor_pairs. rewrite in_map_iff. split.
  - intros ([k n] & Heq & Hin). cbn [fst snd] in Heq.
    apply list_elem_of_In in Hin. rewrite merge_sort_Permutation in Hin.
    apply elem_of_map_to_list in Hin.
    destruct n as [v | nb]; injection Heq as <- <-; eauto.
  - intros [H | (nb & H & ->)].
    + exists (ref, Leaf doc). split; [reflexivity|].
      apply list_elem_of_In. rewrite merge_sort_Permutation.
      now apply elem_of_map_to_list.
    + exists (ref, Nested nb). split; [reflexivity|].
      apply list_elem_of_In. rewrite merge_sort_Permutation.
      now apply elem_of_map_to_list.
Qed.

Lemma cursor_pairs_NoDup (b : gmap (list Z) node) : NoDup (map fst (cursor_pairs b)).
Proof.
  unfold cursor_pairs. rewrite map_map. cbn [fst].
  change (NoDup (fst <$> merge_sort key_le (map_to_list b))).
  rewrite merge_sort_Permutation. apply NoDup_fst_map_to_list.
Qed.

(** The cursor loop returns no error exactly when [index.Add] has run on
    every pair, in order, each run on the bucket the run before left. *)
Lemma backfill_Ok_iff index pairs : forall bucket bucket2,
  backfill index bucket pairs = Ok bucket2 <->
  exists bs,
    length bs = S (length pairs) /\ bs !! O = Some bucket /\
    bs !! length pairs = Some bucket2 /\ Add_runs index pairs bs.
Proof.
  induction pairs as [|[ref doc] rest IH]; intros bucket bucket2; cbn [backfill]; split.
  - intros [= <-]. exists [bucket]. repeat split. intros j ? ? ? ? Hj. discriminate Hj.
  - intros (bs & _ & H0 & Hn & _). cbn [length] in Hn. rewrite H0 in Hn. now injection Hn as ->.
  - destruct (Index_Add index bucket ref doc) as [b'|] eqn:Hadd; [|discriminate].
    intros Hrest. apply IH in Hrest as (bs & Hlen & H0 & Hn & Hruns).
    exists (bucket :: bs). cbn [length]. split; [now rewrite Hlen|]. split; [reflexivity|].
    split; [exact Hn|].
    intros [|j] r d b b'' Hp Hb Hb'; cbn in Hp, Hb, Hb'.
    + injection Hp as <- <-. injection Hb as <-. rewrite Hadd. f_equal.
      assert (E : Some b' = Some b'') by (rewrite <- H0; exact Hb'). now injection E.
    + eapply Hruns; eassumption.
  - intros (bs & Hlen & H0 & Hn & Hruns).
    destruct bs as [|b0 [|b1 bs]]; try discriminate. injection H0 as ->.
    rewrite (Hruns O ref doc bucket b1 eq_refl eq_refl eq_refl).
    apply IH. exists (b1 :: bs). cbn [length] in Hlen |- *. split; [lia|].
    split; [reflexivity|]. split; [exact Hn|].
    intros j r d b b' Hp Hb Hb'. apply (Hruns (S j) r d b b'); assumption.
Qed.

(** The cursor loop returns an error exactly when [index.Add] has run on
    the pairs before some pair, in order, and returns that error for this
    pair; the pairs after it are not looked at. *)
Lemma backfill_Err_iff index pairs : forall bucket e,
  backfill index bucket pairs = Err e <->
  exists k bs ref doc b,
    length bs = S k /\ bs !! O = Some bucket /\ Add_runs index pairs bs /\
    pairs !! k = Some (ref, doc) /\ bs !! k = Some b /\
    Index_Add index b ref doc = Err e.
Proof.
  induction pairs as [|[ref doc] rest IH]; intros bucket e; cbn [backfill]; split.
  - discriminate.
  - intros (k & bs & r & d & b & _ & _ & _ & Hk & _). discriminate Hk.
  - destruct (Index_Add index bucket ref doc) as [b'|e'] eqn:Hadd.
    + intros Hrest. apply IH in Hrest as (k & bs & r & d & b & Hlen & H0 & Hruns & Hk & Hb & He).
      exists (S k), (bucket :: bs), r, d, b. cbn [length].
      split; [now rewrite Hlen|]. split; [reflexivity|]. split; [|auto].
      intros [|j] r' d' b1 b2 Hp Hb1 Hb2; cbn in Hp, Hb1, Hb2.
      * injection Hp as <- <-. injection Hb1 as <-. rewrite Hadd. f_equal.
        assert (E : Some b' = Some b2) by (rewrite <- H0; exact Hb2). now injection E.
      * eapply Hruns; eassumption.
    + intros [= <-]. exists O, [bucket], ref, doc, bucket. repeat split; try assumption.
      intros [|j] ? ? ? ? _ _ Hj; discriminate Hj.
  - intros (k & bs & r & d & b & Hlen & H0 & Hruns & Hk & Hb & He).
    destruct bs as [|b0 bs]; [discriminate|]. injection H0 as ->.
    destruct k as [|k].
    + cbn in Hk, Hb. injection Hk as <- <-. injection Hb as <-. now rewrite He.
    + cbn in Hk, Hb. destruct bs as [|b1 bs]; [discriminate|].
      rewrite (Hruns O ref doc bucket b1 eq_refl eq_refl eq_refl).
      apply IH. exists k, (b1 :: bs), r, d, b. cbn [length] in Hlen |- *.
      split; [lia|]. split; [reflexivity|]. split; [|auto].
      intros j r' d' b2 b3 Hp Hb2 Hb3. apply (Hruns (S j) r' d' b2 b3); assumption.
Qed.

(** The [return nil] in the loop over [c.IndexList] ends [AddIndex]: the
    indices given after one whose name is listed are not looked at. *)
Lemma AddIndex_returns_at_duplicate c db index rest :
  name_listed index (IndexList c) = true ->
  collection_AddIndex c db (index :: rest) = (c, db, None).
Proof. intros H. cbn [collection_AddIndex]. now rewrite H. Qed.

Lemma AddIndex_after_duplicate :
  map Index_Name (IndexList (collection_AddIndex (test_collection [by_name]) ∅
                                                 [by_name; by_url]).1.1) =
  ["by_name"%string] /\
  map Index_Name (IndexList (collection_AddIndex (test_collection [by_name]) ∅
                                                 [by_url; by_name]).1.1) =
  ["by_name"%string; "by_url"%string].
Proof. split; vm_compute; reflexivity. Qed.

(** C9, as the code has it, for the indices of a call up to the first one
    whose name is listed. An index whose name is listed: the call with this
    index alone changes nothing and returns no error. An index whose name is
    not listed gets a write transaction of its own; when the transaction
    succeeds the index is appended to the list and the call goes on with the
    next index, when it fails its error is returned and the store and the
    list stay as they were. In the transaction: if the bucket of the
    collection holds a bucket of the index already, nothing is filed and the
    transaction succeeds. If not, [index.Add] is run on the pairs of the
    bucket of the documents one after the other, each run on the bucket the
    run before has left: the transaction succeeds exactly when every run
    succeeds, and leaves the bucket of the last run; it fails with an error
    exactly when the runs before some pair succeed and the run on this pair
    returns the error. The pairs are all the entries of the bucket of the
    documents, each once, in the order of their keys. *)
Theorem AddIndex_spec (c : collection) (db : gmap (list Z) node) (index : Index)
    (rest : list Index) :
  (name_listed index (IndexList c) = true ->
   collection_AddIndex c db [index] = (c, db, None)) /\
  (name_listed index (IndexList c) = false ->
   (forall db', AddIndex_tx c index db = Ok db' ->
      collection_AddIndex c db (index :: rest) =
      collection_AddIndex (with_IndexList c (IndexList c ++ [index])) db' rest) /\
   (forall e, AddIndex_tx c index db = Err e ->
      collection_AddIndex c db (index :: rest) = (c, db, Some e))) /\
  (forall tx1 bucket,
      CreateBucketIfNotExists db (bytes_of_string (Name c)) = Ok (tx1, bucket) ->
      (is_Some (Bucket_Bucket bucket (Index_BucketName index)) ->
       AddIndex_tx c index db = Ok tx1) /\
      (Bucket_Bucket bucket (Index_BucketName index) = None ->
       forall bucket1 gBucket,
         CreateBucketIfNotExists bucket documentBucketByteRef = Ok (bucket1, gBucket) ->
         (forall db',
             AddIndex_tx c index db = Ok db' <->
             exists bs bucket2,
               length bs = S (length (cursor_pairs gBucket)) /\
               bs !! O = Some bucket1 /\
               bs !! length (cursor_pairs gBucket) = Some bucket2 /\
               Add_runs index (cursor_pairs gBucket) bs /\
               db' = <[bytes_of_string (Name c) := Nested bucket2]> tx1) /\
         (forall e,
             AddIndex_tx c index db = Err e <->
             exists k bs ref doc b,
               length bs = S k /\
               bs !! O = Some bucket1 /\
               Add_runs index (cursor_pairs gBucket) bs /\
               cursor_pairs gBucket !! k = Some (ref, doc) /\
               bs !! k = Some b /\
               Index_Add index b ref doc = Err e))) /\
  (forall gBucket : gmap (list Z) node,
      Sorted lex_le (map fst (cursor_pairs gBucket)) /\
      NoDup (map fst (cursor_pairs gBucket)) /\
      forall ref doc,
        In (ref, doc) (cursor_pairs gBucket) <->
        gBucket !! ref = Some (Leaf doc) \/
        (exists nb, gBucket !! ref = Some (Nested nb) /\ doc = [])).
Proof.
  split; [apply AddIndex_returns_at_duplicate|]. split; [|split].
  - intros Hfresh. cbn [collection_AddIndex]. rewrite Hfresh. unfold Update.
    split.
    + intros db' ->. reflexivity.
    + intros e ->. reflexivity.
  - intros tx1 bucket Hc. unfold AddIndex_tx. rewrite Hc. split.
    + intros [ib ->]. reflexivity.
    + intros -> bucket1 gBucket ->. split.
      * intros db'. split.
        -- destruct (backfill index bucket1 (cursor_pairs gBucket)) as [bucket2|] eqn:Hb;
             [|discriminate].
           intros [= <-]. apply backfill_Ok_iff in Hb as (bs & Hlen & H0 & Hn & Hruns).
           exists bs, bucket2. auto.
        -- intros (bs & bucket2 & Hlen & H0 & Hn & Hruns & ->).
           assert (Hb : backfill index bucket1 (cursor_pairs gBucket) = Ok bucket2)
             by (apply backfill_Ok_iff; eauto).
           now rewrite Hb.
      * intros e. rewrite <- backfill_Err_iff.
        destruct (backfill index bucket1 (cursor_pairs gBucket)); split; congruence.
  - intros gBucket. split; [apply cursor_pairs_sorted|].
    split; [apply cursor_pairs_NoDup | apply cursor_pairs_elem].
Qed.

(** An index of the names added to a store that holds [doc_jane]: the index
    is appended, no error is returned, and the document is filed under its
    name. *)
Lemma AddIndex_spec_witness :
  name_listed by_name (IndexList (test_collection [])) = false /\
  (collection_AddIndex (test_collection []) (db_jane (test_collection [])) [by_name]).2 = None /\
  map Index_Name (IndexList (collection_AddIndex (test_collection [])
                               (db_jane (test_collection [])) [by_name]).1.1) =
  ["by_name"%string] /\
  (exists db', AddIndex_tx (test_collection []) by_name (db_jane (test_collection [])) = Ok db' /\
     (collection_AddIndex (test_collection []) (db_jane (test_collection [])) [by_name]).1.2 = db') /\
  index_entry (collection_AddIndex (test_collection []) (db_jane (test_collection []))
                                   [by_name]).1.2
              (bytes_of_string "test") (bytes_of_string "by_name")
              (bytes_of_string "Jane Doe") doc_jane = Some [].
Proof.
  assert (Hfresh : name_listed by_name (IndexList (test_collection [])) = false)
    by reflexivity.
  assert (Hfiled : index_entry
                     (collection_AddIndex (test_collection []) (db_jane (test_collection []))
                                          [by_name]).1.2
                     (bytes_of_string "test") (bytes_of_string "by_name")
                     (bytes_of_string "Jane Doe") doc_jane = Some [])
    by (vm_compute; reflexivity).
  destruct (proj1 (proj2 (AddIndex_spec (test_collection [])
                            (db_jane (test_collection [])) by_name [])) Hfresh)
    as [Hok Herr].
  assert (Hrun : is_Ok (AddIndex_tx (test_collection []) by_name
                                    (db_jane (test_collection []))) = true)
    by (vm_compute; reflexivity).
  split; [exact Hfresh|].
  destruct (AddIndex_tx (test_collection []) by_name (db_jane (test_collection [])))
    as [db'|e].
  - revert Hfiled. rewrite (Hok db' eq_refl).
    cbn [collection_AddIndex fst snd with_IndexList IndexList]. intros Hfiled.
    repeat split; [|exact Hfiled]. exists db'. split; reflexivity.
  - discriminate Hrun.
Defined.

(** C9, as it is stated, fails where the back-fill fails: the store holds a
    text that is not JSON, the new index cannot extract its keys, and
    [AddIndex] returns the error and does not add the index. *)
Lemma AddIndex_counterexample :
  collection_Get (test_collection []) db_text
                 (collection_Reference (test_collection []) doc_text) =
  (Some doc_text, None) /\
  name_listed by_name (IndexList (test_collection [])) = false /\
  (collection_AddIndex (test_collection []) db_text [by_name]).2 =
  Some (JSONSyntaxError "invalid character 'o' in literal null (expecting 'u')" 2) /\
  IndexList (collection_AddIndex (test_collection []) db_text [by_name]).1.1 = [].
Proof.
  split; [vm_compute; reflexivity|]. split; [reflexivity|].
  split; vm_compute; reflexivity.
Qed.

(** * Further properties *)

(** ** Term paths *)

Lemma terms_eqb_eq a : forall b, terms_eqb a b = true <-> a = b.
Proof.
  induction a as [|x a IH]; intros [|y b]; cbn [terms_eqb]; split; intros H;
    try discriminate; try reflexivity.
  - apply andb_true_iff in H as [Hxy Hab].
    apply String.eqb_eq in Hxy. apply IH in Hab. now subst.
  - injection H as -> ->. rewrite String.eqb_refl. now apply IH.
Qed.

(** X1. [Equals] on term paths holds exactly for paths with the same terms
    in the same order; query parts and field indexers are compared by their
    term paths alone, whatever their kind, values and options. *)
Theorem TermPath_Equals_spec :
  (forall tp other : TermPath, TermPath_Equals tp other = true <-> Terms tp = Terms other) /\
  (forall p other : QueryPart,
      QueryPart_Equals p other = true <->
      Terms (QueryPart_TermPath p) = Terms (QueryPart_TermPath other)) /\
  (forall (tp : TermPath) (v w b e : Scalar),
      QueryPart_Equals (Eq tp v) (Range tp b e) = true /\
      QueryPart_Equals (Prefix tp w) (Eq tp v) = true) /\
  (forall (j : fieldIndexer) (p : QueryPart),
      fieldIndexer_Equals j (QueryPart_TermPath p) = true <->
      Terms (fi_termPath j) = Terms (QueryPart_TermPath p)).
Proof.
  split; [|split; [|split]].
  - intros tp other. apply terms_eqb_eq.
  - intros p other. apply terms_eqb_eq.
  - intros tp v w b e. split; apply terms_eqb_eq; reflexivity.
  - intros j p. apply terms_eqb_eq.
Qed.

(** X2. A term path that is not empty is its head followed by its tail; the
    empty path has the empty string as head and the empty path as tail, and
    so has no term left after any number of [Tail]s. *)
Theorem TermPath_Head_Tail (tp : TermPath) :
  (IsEmpty tp = false -> Terms tp = Head tp :: Terms (Tail tp)) /\
  (IsEmpty tp = true -> Terms tp = [] /\ Head tp = EmptyString /\ Terms (Tail tp) = []) /\
  length (Terms (Tail tp)) = Nat.pred (length (Terms tp)) /\
  (IsEmpty tp = true <-> Terms tp = []).
Proof.
  destruct tp as [[|t [|t' ts]]]; unfold IsEmpty, Head, Tail; cbn;
    repeat split; try discriminate; try reflexivity; intros H; discriminate.
Qed.

Lemma TermPath_Head_Tail_witness :
  IsEmpty name_path = false /\ Terms name_path = Head name_path :: Terms (Tail name_path).
Proof.
  split; [reflexivity|]. apply (proj1 (TermPath_Head_Tail name_path)). reflexivity.
Defined.

(** ** Conditions of query parts *)

Lemma lex_le_refl a : lex_le a a.
Proof. induction a; constructor; assumption. Qed.

Lemma lex_le_antisym a : forall b, lex_le a b -> lex_le b a -> a = b.
Proof.
  intros b Hab Hba. apply bytes_Compare_le in Hab, Hba.
  rewrite bytes_Compare_antisym in Hba. apply bytes_Compare_eq. lia.
Qed.

Lemma bytes_Compare_trans a : forall b c,
  bytes_Compare a b <= 0 -> bytes_Compare b c <= 0 -> bytes_Compare a c <= 0.
Proof.
  induction a as [|x a IH]; intros [|y b] [|z c]; cbn [bytes_Compare]; try lia.
  destruct (Z.ltb_spec x y), (Z.ltb_spec y x), (Z.ltb_spec y z), (Z.ltb_spec z y),
    (Z.ltb_spec x z), (Z.ltb_spec z x); try lia.
  apply IH.
Qed.

Lemma lex_le_trans a b c : lex_le a b -> lex_le b c -> lex_le a c.
Proof.
  rewrite <- !bytes_Compare_le. apply bytes_Compare_trans.
Qed.

Lemma lex_le_total a b : lex_le a b \/ lex_le b a.
Proof.
  rewrite <- !bytes_Compare_le. rewrite (bytes_Compare_antisym b a). lia.
Qed.

Lemma lex_le_app p rest : lex_le p (p ++ rest).
Proof. induction p; constructor; assumption. Qed.

Lemma Condition_Eq_iff tp v key transform :
  Condition (Eq tp v) key transform = true <-> key = Bytes (transformed_by transform v).
Proof.
  destruct transform; cbn [Condition Eq transformed_by];
    rewrite Z.eqb_eq; apply bytes_Compare_eq.
Qed.

Lemma Condition_Range_iff tp b e key transform :
  Condition (Range tp b e) key transform = true <->
  lex_le (Bytes (transformed_by transform b)) key /\
  lex_le key (Bytes (transformed_by transform e)).
Proof.
  cbn [Condition Range].
  fold (transformed_by transform b). fold (transformed_by transform e).
  rewrite <- !bytes_Compare_le.
  rewrite (bytes_Compare_antisym (Bytes (transformed_by transform b)) key).
  destruct (Z.ltb_spec (bytes_Compare key (Bytes (transformed_by transform b))) 0).
  - split; [discriminate | lia].
  - rewrite Z.leb_le. lia.
Qed.

Lemma Condition_Prefix_iff tp v key transform :
  Condition (Prefix tp v) key transform = true <->
  exists rest, key = Bytes (transformed_by transform v) ++ rest.
Proof.
  cbn [Condition Prefix]. fold (transformed_by transform v). apply bytes_HasPrefix_app.
Qed.

(** X3. How the three conditions relate, for every key and transform: [Eq]
    on a value holds exactly when [Range] from the value to itself holds;
    where [Eq] holds, [Prefix] on the same value holds; where [Prefix]
    holds, the key is not below the value. *)
Theorem Condition_Eq_Range_Prefix (tp : TermPath) (v : Scalar) (key : list Z)
    (transform : option Transform) :
  Condition (Eq tp v) key transform = Condition (Range tp v v) key transform /\
  (Condition (Eq tp v) key transform = true ->
   Condition (Prefix tp v) key transform = true) /\
  (Condition (Prefix tp v) key transform = true ->
   lex_le (Bytes (transformed_by transform v)) key).
Proof.
  split; [|split].
  - destruct (Condition (Eq tp v) key transform) eqn:E.
    + symmetry. apply Condition_Range_iff. apply Condition_Eq_iff in E.
      rewrite E. split; apply lex_le_refl.
    + destruct (Condition (Range tp v v) key transform) eqn:R; [|reflexivity].
      apply Condition_Range_iff in R as [H1 H2].
      rewrite <- E. apply Condition_Eq_iff. symmetry.
      now apply lex_le_antisym.
  - intros E. apply Condition_Eq_iff in E. apply Condition_Prefix_iff.
    exists []. now rewrite app_nil_r.
  - intros P. apply Condition_Prefix_iff in P as [rest ->]. apply lex_le_app.
Qed.

Lemma Condition_Eq_Range_Prefix_witness :
  Condition (Eq name_path (mkScalar (VString "Jane Doe")))
            (bytes_of_string "Jane Doe") None = true /\
  Condition (Prefix name_path (mkScalar (VString "Jane Doe")))
            (bytes_of_string "Jane Doe") None = true.
Proof.
  assert (H : Condition (Eq name_path (mkScalar (VString "Jane Doe")))
                        (bytes_of_string "Jane Doe") None = true) by reflexivity.
  split; [exact H|].
  exact (proj1 (proj2 (Condition_Eq_Range_Prefix name_path (mkScalar (VString "Jane Doe"))
                        (bytes_of_string "Jane Doe") None)) H).
Defined.

(** X4. A range whose lower bound is not above its upper bound is
    satisfied by both bounds; any other range is satisfied by no key. A key
    inside a range is inside every wider range. *)
Theorem Condition_Range_bounds (tp : TermPath) (b e : Scalar) (transform : option Transform) :
  ((exists key, Condition (Range tp b e) key transform = true) <->
   lex_le (Bytes (transformed_by transform b)) (Bytes (transformed_by transform e))) /\
  (lex_le (Bytes (transformed_by transform b)) (Bytes (transformed_by transform e)) ->
   Condition (Range tp b e) (Bytes (transformed_by transform b)) transform = true /\
   Condition (Range tp b e) (Bytes (transformed_by transform e)) transform = true) /\
  (forall b' e' key,
      lex_le (Bytes (transformed_by transform b')) (Bytes (transformed_by transform b)) ->
      lex_le (Bytes (transformed_by transform e)) (Bytes (transformed_by transform e')) ->
      Condition (Range tp b e) key transform = true ->
      Condition (Range tp b' e') key transform = true).
Proof.
  assert (Hin : lex_le (Bytes (transformed_by transform b)) (Bytes (transformed_by transform e)) ->
                Condition (Range tp b e) (Bytes (transformed_by transform b)) transform = true /\
                Condition (Range tp b e) (Bytes (transformed_by transform e)) transform = true).
  { intros Hbe. split; apply Condition_Range_iff; split;
      try apply lex_le_refl; assumption. }
  split; [|split].
  - split.
    + intros [key Hk]. apply Condition_Range_iff in Hk as [H1 H2].
      eapply lex_le_trans; eassumption.
    + intros Hbe. eexists. apply (proj1 (Hin Hbe)).
  - exact Hin.
  - intros b' e' key Hb He Hk. apply Condition_Range_iff in Hk as [H1 H2].
    apply Condition_Range_iff. split; eapply lex_le_trans; eassumption.
Qed.

Lemma Condition_Range_bounds_witness :
  lex_le (Bytes (transformed_by None (mkScalar (VString "a"))))
         (Bytes (transformed_by None (mkScalar (VString "b")))) /\
  Condition (Range name_path (mkScalar (VString "a")) (mkScalar (VString "b")))
            (Bytes (transformed_by None (mkScalar (VString "b")))) None = true.
Proof.
  assert (H : lex_le (Bytes (transformed_by None (mkScalar (VString "a"))))
                     (Bytes (transformed_by None (mkScalar (VString "b")))))
    by (apply bytes_Compare_le; vm_compute; discriminate).
  split; [exact H|].
  exact (proj2 (proj1 (proj2 (Condition_Range_bounds name_path (mkScalar (VString "a"))
                                (mkScalar (VString "b")) None)) H)).
Defined.

(** ** The bytes of scalars *)

Lemma bytes_of_string_range s : Forall is_byte (bytes_of_string s).
Proof.
  unfold bytes_of_string. apply Forall_map.
  apply Forall_forall. intros a _. apply byte_of_ascii_range.
Qed.

Lemma PutUint64_range v : Forall is_byte (PutUint64 v).
Proof. unfold PutUint64. repeat constructor; apply byte_at_range. Qed.

(** X5. The bytes of a scalar are bytes: each lies in 0..255. A boolean has
    one byte, a double eight, a string as many as it is long, and a scalar
    that holds no boolean, string or double (the zero value [Scalar{}]) has
    none. *)
Theorem Bytes_shape (s : Scalar) :
  Forall is_byte (Bytes s) /\
  length (Bytes s) =
  match value s with
  | VBool _ => 1%nat
  | VString x => String.length x
  | VFloat64 _ => 8%nat
  | _ => 0%nat
  end.
Proof.
  destruct s as [v]. unfold Bytes. cbn [value].
  destruct v as [ | [|] | x | f | n | n | b | l | m ]; cbn [length]; split;
    try reflexivity; try (constructor; fail).
  - repeat constructor; unfold is_byte; lia.
  - repeat constructor; unfold is_byte; lia.
  - apply bytes_of_string_range.
  - apply length_bytes_of_string.
  - apply PutUint64_range.
Qed.

Lemma byte_of_ascii_inj a b : byte_of_ascii a = byte_of_ascii b -> a = b.
Proof.
  unfold byte_of_ascii. intros H. apply N2Z.inj in H.
  rewrite <- (ascii_N_embedding a), <- (ascii_N_embedding b). now rewrite H.
Qed.

Lemma bytes_of_string_inj a : forall b, bytes_of_string a = bytes_of_string b -> a = b.
Proof.
  unfold bytes_of_string.
  induction a as [|x a IH]; intros [|y b]; cbn; intros H; try discriminate.
  - reflexivity.
  - injection H as Hxy Hab. apply byte_of_ascii_inj in Hxy. apply IH in Hab. now subst.
Qed.

Lemma PutUint64_inj a b :
  is_float64 a -> is_float64 b -> PutUint64 a = PutUint64 b -> a = b.
Proof.
  intros Ha Hb H. pose proof (Uint64_PutUint64 a Ha) as Ea.
  rewrite H, (Uint64_PutUint64 b Hb) in Ea. now injection Ea.
Qed.

(** X6. Scalars of one kind with the same bytes are the same scalar:
    booleans, strings, and doubles (as bit patterns). Across kinds the bytes
    do not tell scalars apart: [true] and the string of the one character
    with code 1 have the same bytes. *)
Theorem Bytes_injective_per_kind :
  (forall a b : bool, Bytes (mkScalar (VBool a)) = Bytes (mkScalar (VBool b)) -> a = b) /\
  (forall a b : string, Bytes (mkScalar (VString a)) = Bytes (mkScalar (VString b)) -> a = b) /\
  (forall a b : Z, is_float64 a -> is_float64 b ->
                   Bytes (mkScalar (VFloat64 a)) = Bytes (mkScalar (VFloat64 b)) -> a = b) /\
  Bytes (mkScalar (VBool true)) = Bytes (mkScalar (VString (String "001"%char EmptyString))).
Proof.
  split; [|split; [|split]].
  - intros [|] [|]; cbn; intros H; try reflexivity; discriminate.
  - intros a b H. now apply bytes_of_string_inj.
  - intros a b Ha Hb. unfold Bytes. cbn [value]. unfold Float64bits.
    unfold is_float64 in *. rewrite !Z.mod_small by lia. now apply PutUint64_inj.
  - reflexivity.
Qed.

Lemma Bytes_injective_per_kind_witness :
  is_float64 4635329916471083008 /\ is_float64 4636033603912859648 /\
  (Bytes (mkScalar (VFloat64 4635329916471083008)) =
   Bytes (mkScalar (VFloat64 4636033603912859648)) ->
   4635329916471083008 = 4636033603912859648).
Proof.
  assert (Ha : is_float64 4635329916471083008) by (unfold is_float64; lia).
  assert (Hb : is_float64 4636033603912859648) by (unfold is_float64; lia).
  split; [exact Ha|]. split; [exact Hb|].
  exact (proj1 (proj2 (proj2 Bytes_injective_per_kind)) _ _ Ha Hb).
Defined.

(** *** The order of the keys of doubles *)

Lemma be_value_snoc l x : be_value (l ++ [x]) = be_value l * 256 + x.
Proof. unfold be_value. now rewrite fold_left_app. Qed.

Lemma be_value_cons x l :
  be_value (x :: l) = x * 256 ^ Z.of_nat (length l) + be_value l.
Proof.
  induction l as [|y l IH] using rev_ind.
  - unfold be_value. cbn. lia.
  - rewrite app_comm_cons, !be_value_snoc, IH, length_app. cbn [length].
    replace (Z.of_nat (length l + 1)) with (Z.of_nat (length l) + 1) by lia.
    rewrite Z.pow_add_r by lia. lia.
Qed.

Lemma be_value_bound l :
  Forall is_byte l -> 0 <= be_value l < 256 ^ Z.of_nat (length l).
Proof.
  induction l as [|y l IH] using rev_ind; intros Hl.
  - unfold be_value. cbn. lia.
  - apply Forall_app in Hl as [Hl Hy]. inversion Hy as [|? ? Hy' _]; subst.
    specialize (IH Hl). rewrite be_value_snoc, length_app. cbn [length].
    replace (Z.of_nat (length l + 1)) with (Z.of_nat (length l) + 1) by lia.
    rewrite Z.pow_add_r by lia. unfold is_byte in Hy'. lia.
Qed.

Lemma bytes_Compare_be_value a : forall b,
  length a = length b -> Forall is_byte a -> Forall is_byte b ->
  (bytes_Compare a b <= 0 <-> be_value a <= be_value b).
Proof.
  induction a as [|x a IH]; intros [|y b] Hlen Ha Hb; try discriminate.
  - cbn. lia.
  - injection Hlen as Hlen.
    inversion Ha as [|? ? Hx Ha']; inversion Hb as [|? ? Hy Hb']; subst.
    rewrite !be_value_cons, Hlen. cbn [bytes_Compare].
    pose proof (be_value_bound a Ha') as Ba. pose proof (be_value_bound b Hb') as Bb.
    rewrite Hlen in Ba. specialize (IH b Hlen Ha' Hb').
    set (P := 256 ^ Z.of_nat (length b)) in *.
    destruct (Z.ltb_spec x y) as [Hlt | Hge].
    + split; [intros _ | lia]. nia.
    + destruct (Z.ltb_spec y x) as [Hgt | Hle].
      * split; [lia | intros H; nia].
      * assert (x = y) as -> by lia. rewrite IH. lia.
Qed.

Lemma be_value_PutUint64 v : 0 <= v < 2 ^ 64 -> be_value (PutUint64 v) = v.
Proof.
  intros H. unfold PutUint64. rewrite !byte_at_div_mod by lia.
  unfold be_value. cbn [fold_left].
  change (2 ^ 56) with 72057594037927936. change (2 ^ 48) with 281474976710656.
  change (2 ^ 40) with 1099511627776. change (2 ^ 32) with 4294967296.
  change (2 ^ 24) with 16777216. change (2 ^ 16) with 65536.
  change (2 ^ 8) with 256. change (2 ^ 0) with 1.
  change (2 ^ 64) with 18446744073709551616 in H.
  Z.div_mod_to_equations. lia.
Qed.

Lemma lex_le_PutUint64 a b :
  is_float64 a -> is_float64 b -> (lex_le (PutUint64 a) (PutUint64 b) <-> a <= b).
Proof.
  intros Ha Hb. rewrite <- bytes_Compare_le.
  rewrite (bytes_Compare_be_value (PutUint64 a) (PutUint64 b) eq_refl
             (PutUint64_range a) (PutUint64_range b)).
  now rewrite !be_value_PutUint64.
Qed.

(** X7. The keys of doubles are ordered like the bit patterns of the
    doubles: the bytes of one double are not above the bytes of another
    exactly when its bit pattern is not the greater number. So a range over
    doubles, without transform, holds for the key of a double exactly when
    its bit pattern lies between those of the bounds. *)
Theorem Bytes_Float64_order (a b x : Z) :
  is_float64 a -> is_float64 b -> is_float64 x ->
  (lex_le (Bytes (mkScalar (VFloat64 a))) (Bytes (mkScalar (VFloat64 b))) <-> a <= b) /\
  (forall tp,
      Condition (Range tp (mkScalar (VFloat64 a)) (mkScalar (VFloat64 b)))
                (Bytes (mkScalar (VFloat64 x))) None = true <-> a <= x <= b).
Proof.
  intros Ha Hb Hx.
  assert (HB : forall f, is_float64 f -> Bytes (mkScalar (VFloat64 f)) = PutUint64 f).
  { intros f Hf. unfold Bytes, Float64bits. cbn [value]. unfold is_float64 in Hf.
    now rewrite Z.mod_small. }
  split.
  - rewrite !HB by assumption. now apply lex_le_PutUint64.
  - intros tp. rewrite Condition_Range_iff. cbn [transformed_by].
    rewrite !HB by assumption. rewrite !lex_le_PutUint64 by assumption. reflexivity.
Qed.

(** 70.0 <= 80.0 <= 90.0, the range of the package's test. *)
Lemma Bytes_Float64_order_witness :
  is_float64 4634626229029306368 /\ is_float64 4636033603912859648 /\
  is_float64 4635329916471083008 /\
  Condition (Range name_path (mkScalar (VFloat64 4634626229029306368))
                   (mkScalar (VFloat64 4636033603912859648)))
            (Bytes (mkScalar (VFloat64 4635329916471083008))) None = true.
Proof.
  assert (Ha : is_float64 4634626229029306368) by (unfold is_float64; lia).
  assert (Hb : is_float64 4636033603912859648) by (unfold is_float64; lia).
  assert (Hx : is_float64 4635329916471083008) by (unfold is_float64; lia).
  split; [exact Ha|]. split; [exact Hb|]. split; [exact Hx|].
  apply (proj2 (Bytes_Float64_order _ _ _ Ha Hb Hx) name_path). lia.
Defined.

(** ** Queries built in a chain *)

Lemma New_Parts (h : heap) (p0 : option QueryPart) :
  Parts (New h p0).1 (New h p0).2 = [p0] /\ slice_wf (New h p0).1 (parts (New h p0).2).
Proof.
  unfold New, slice_lit1, Parts, slice_elems, slice_wf. cbn [fst snd parts ptr len cap].
  rewrite lookup_insert_eq. split; [reflexivity|]. exists [p0]. auto.
Qed.

Lemma And_chain_Parts ps : forall (h : heap) (q : query),
  slice_wf h (parts q) ->
  Parts (And_chain h q ps).1 (And_chain h q ps).2 = Parts h q ++ ps /\
  slice_wf (And_chain h q ps).1 (parts (And_chain h q ps).2).
Proof.
  induction ps as [|p ps IH]; intros h q Hwf; cbn [And_chain].
  - cbn [fst snd]. now rewrite app_nil_r.
  - destruct (And_Parts h q p Hwf) as (Hq' & _ & Hwf').
    destruct (And h q p) as [h' q']. cbn [fst snd] in *.
    destruct (IH h' q' Hwf') as [HP Hw]. split; [|exact Hw].
    rewrite HP, Hq'. now rewrite <- app_assoc.
Qed.

(** X8. A query built in one chain, [New(p0).And(p1)...And(pn)] with every
    intermediate query used once, shows exactly the parts given, in the
    order given, whatever the heap held before. *)
Theorem New_chain_Parts (h : heap) (p0 : option QueryPart) (ps : list (option QueryPart)) :
  Parts (New_chain h p0 ps).1 (New_chain h p0 ps).2 = p0 :: ps /\
  length (Parts (New_chain h p0 ps).1 (New_chain h p0 ps).2) = S (length ps).
Proof.
  unfold New_chain. destruct (New_Parts h p0) as [HP Hwf].
  destruct (New h p0) as [h' q]. cbn [fst snd] in *.
  destruct (And_chain_Parts ps h' q Hwf) as [HC _].
  rewrite HC, HP. split; reflexivity.
Qed.

(** ** More on the value extractor *)

Lemma ScalarMustParse_kind v s : ScalarMustParse v = Ret s -> scalar_kind (value s) = true.
Proof.
  unfold ScalarMustParse, ScalarParse.
  destruct v; intros H; try discriminate; injection H as <-; reflexivity.
Qed.

Lemma mustParseAll_kind l : forall r, mustParseAll l = Ret r -> all_scalar_kind r.
Proof.
  induction l as [|v l IH]; intros r; cbn [mustParseAll].
  - intros [= <-]. constructor.
  - destruct (ScalarMustParse v) as [s|] eqn:Hs; cbn [obind]; [|discriminate].
    destruct (mustParseAll l) as [r'|]; cbn [obind]; [|discriminate].
    intros [= <-]. constructor; [eapply ScalarMustParse_kind; eassumption | now apply IH].
Qed.

Lemma keywordValues_kind m o r :
  keywordValues m = Some o -> o = Ret r -> all_scalar_kind r.
Proof.
  unfold keywordValues. intros H ->.
  assert (H1 : forall v, obind (ScalarMustParse v) (fun s => Ret [s]) = Ret r ->
                         all_scalar_kind r).
  { intros v. destruct (ScalarMustParse v) as [s|] eqn:Hs; cbn [obind]; [|discriminate].
    intros [= <-]. constructor; [eapply ScalarMustParse_kind; eassumption | constructor]. }
  assert (H2 : forall v, obind (assertSlice v) mustParseAll = Ret r -> all_scalar_kind r).
  { intros v. destruct v; cbn; try discriminate. apply mustParseAll_kind. }
  destruct (map_lookup m "@value"); [injection H as H; eauto|].
  destruct (map_lookup m "@id"); [injection H as H; eauto|].
  destruct (map_lookup m "@list"); [injection H as H; eauto|].
  destruct (map_lookup m "@set"); [injection H as H; eauto | discriminate].
Qed.

Lemma valuesAtPath_kind node :
  forall tp r, valuesAtPath node tp = Ret r -> all_scalar_kind r.
Proof.
  induction node as [ | | | | | | | l IHl | m IHm ] using any_nested_ind;
    intros tp r; try (cbn; intros [= <-]; constructor).
  - change (valuesAtPath (VSlice l) tp) with (valuesFromSliceAtPath l tp).
    revert r. induction l as [|e l IH]; intros r.
    + cbn. intros [= <-]. constructor.
    + rewrite valuesFromSliceAtPath_cons.
      inversion IHl as [|? ? Pe Pl]; subst.
      assert (Hsub : match e with
                     | VSlice typedSub => valuesFromSliceAtPath typedSub tp
                     | VMap typedSub => valuesFromMapAtPath typedSub tp
                     | _ => Ret []
                     end = valuesAtPath e tp) by (destruct e; reflexivity).
      rewrite Hsub. destruct (valuesAtPath e tp) as [r1|] eqn:He; cbn [obind]; [|discriminate].
      destruct (valuesFromSliceAtPath l tp) as [r2|] eqn:Hl; cbn [obind]; [|discriminate].
      intros [= <-]. apply Forall_app. split; [eapply Pe; eassumption | now apply IH].
  - change (valuesAtPath (VMap m) tp) with (valuesFromMapAtPath m tp).
    rewrite valuesFromMapAtPath_eq.
    destruct (if IsEmpty tp then keywordValues m else None) as [o|] eqn:Hkw.
    + destruct (IsEmpty tp); [|discriminate]. intros Ho. eapply keywordValues_kind; eassumption.
    + destruct (map_lookup m (Head tp)) as [v|] eqn:Hv; [|intros [= <-]; constructor].
      destruct v; try (intros [= <-]; constructor).
      pose proof (map_lookup_In _ _ _ Hv) as Hin. apply list_elem_of_In in Hin.
      rewrite Forall_forall in IHm. apply (IHm _ Hin).
Qed.

(** X9. Every scalar [ValuesAtPath] returns holds a boolean, a string or a
    double, never another kind of value: the scalars come out of
    [ScalarMustParse]. *)
Theorem ValuesAtPath_scalar_kinds
    (Unmarshal : list Z -> SyntaxError + any) (Expand : any -> LdError + list any)
    (document : list Z) (tp : TermPath) (r : list Scalar) :
  ValuesAtPath Unmarshal Expand document tp = Ret (Ok r) ->
  Forall (fun s => scalar_kind (value s) = true) r.
Proof.
  unfold ValuesAtPath. destruct (Nat.eqb (length (Terms tp)) 0).
  - intros [= <-]. constructor.
  - destruct (Unmarshal document) as [e | input]; [discriminate|].
    destruct (Expand input) as [e | nodes]; [discriminate|].
    destruct (valuesFromSliceAtPath nodes tp) as [r'|] eqn:Hv; cbn [obind]; [|discriminate].
    intros [= <-]. exact (valuesAtPath_kind (VSlice nodes) tp r' Hv).
Qed.

Lemma ValuesAtPath_scalar_kinds_witness :
  ValuesAtPath sample_Unmarshal sample_Expand doc_jane name_path =
  Ret (Ok [mkScalar (VString "Jane Doe")]) /\
  Forall (fun s => scalar_kind (value s) = true) [mkScalar (VString "Jane Doe")].
Proof.
  assert (H : ValuesAtPath sample_Unmarshal sample_Expand doc_jane name_path =
              Ret (Ok [mkScalar (VString "Jane Doe")])) by (vm_compute; reflexivity).
  split; [exact H|].
  exact (ValuesAtPath_scalar_kinds sample_Unmarshal sample_Expand doc_jane name_path _ H).
Defined.

Lemma keywords_scalar_cons k v m :
  keywords_scalar (VMap ((k, v) :: m)) = true ->
  keywords_scalar v = true /\
  (forall k' v', map_lookup m k' = Some v' -> keywords_scalar v' = true).
Proof.
  cbn [keywords_scalar]. rewrite !andb_true_iff. intros (_ & Hv & Hm). split; [assumption|].
  clear Hv. induction m as [|[k1 v1] m IH]; [discriminate|].
  apply andb_true_iff in Hm as [H1 Hm]. intros k' v'. cbn [map_lookup].
  destruct (String.eqb k1 k'); [intros [= <-]; assumption | now apply IH].
Qed.

Lemma keywords_scalar_lookup m k v :
  keywords_scalar (VMap m) = true -> map_lookup m k = Some v -> keywords_scalar v = true.
Proof.
  destruct m as [|[k0 v0] m]; [discriminate|]. intros H.
  destruct (keywords_scalar_cons _ _ _ H) as [H0 Hm]. cbn [map_lookup].
  destruct (String.eqb k0 k); [intros [= <-]; assumption | apply Hm].
Qed.

Lemma mustParseAll_returns l : forallb scalar_kind l = true -> exists r, mustParseAll l = Ret r.
Proof.
  induction l as [|v l IH]; cbn [forallb mustParseAll]; [eauto|].
  rewrite andb_true_iff. intros [Hv Hl]. destruct (IH Hl) as [r ->].
  unfold ScalarMustParse, ScalarParse. destruct v; try discriminate; cbn [obind]; eauto.
Qed.

Lemma keywordValues_returns m o :
  keywords_scalar (VMap m) = true -> keywordValues m = Some o -> exists r, o = Ret r.
Proof.
  intros H. assert (Hhere : keywords_scalar_here m = true).
  { cbn [keywords_scalar] in H. now apply andb_true_iff in H as [H _]. }
  clear H. unfold keywords_scalar_here in Hhere. unfold keywordValues.
  assert (H1 : forall v, scalar_kind v = true ->
                         exists r, obind (ScalarMustParse v) (fun s => Ret [s]) = Ret r).
  { intros v Hv. unfold ScalarMustParse, ScalarParse.
    destruct v; try discriminate; cbn [obind]; eauto. }
  assert (H2 : forall v, scalar_slice v = true ->
                         exists r, obind (assertSlice v) mustParseAll = Ret r).
  { intros v Hv. destruct v; try discriminate. cbn. now apply mustParseAll_returns. }
  destruct (map_lookup m "@value"); [intros [= <-]; auto|].
  destruct (map_lookup m "@id"); [intros [= <-]; auto|].
  destruct (map_lookup m "@list"); [intros [= <-]; auto|].
  destruct (map_lookup m "@set"); [intros [= <-]; auto | discriminate].
Qed.

Lemma valuesAtPath_returns node :
  keywords_scalar node = true -> forall tp, exists r, valuesAtPath node tp = Ret r.
Proof.
  induction node as [ | | | | | | | l IHl | m IHm ] using any_nested_ind;
    intros Hk tp; try (cbn; eauto; fail).
  - change (valuesAtPath (VSlice l) tp) with (valuesFromSliceAtPath l tp).
    induction l as [|e l IH]; [cbn; eauto|].
    rewrite valuesFromSliceAtPath_cons.
    cbn [keywords_scalar forallb] in Hk. apply andb_true_iff in Hk as [He Hl].
    inversion IHl as [|? ? Pe Pl]; subst.
    assert (Hsub : match e with
                   | VSlice typedSub => valuesFromSliceAtPath typedSub tp
                   | VMap typedSub => valuesFromMapAtPath typedSub tp
                   | _ => Ret []
                   end = valuesAtPath e tp) by (destruct e; reflexivity).
    rewrite Hsub. destruct (Pe He tp) as [r1 ->]. destruct (IH Pl Hl) as [r2 ->].
    cbn [obind]. eauto.
  - change (valuesAtPath (VMap m) tp) with (valuesFromMapAtPath m tp).
    rewrite valuesFromMapAtPath_eq.
    destruct (if IsEmpty tp then keywordValues m else None) as [o|] eqn:Hkw.
    + destruct (IsEmpty tp); [|discriminate]. eapply keywordValues_returns; eassumption.
    + destruct (map_lookup m (Head tp)) as [v|] eqn:Hv; [|eauto].
      destruct v; eauto.
      pose proof (map_lookup_In _ _ _ Hv) as Hin. apply list_elem_of_In in Hin.
      rewrite Forall_forall in IHm.
      apply (IHm _ Hin (keywords_scalar_lookup _ _ _ Hk Hv)).
Qed.

(** X10. [ValuesAtPath] does not panic on a document whose expanded tree
    holds, in every map, a boolean, string or number under [@value] and
    [@id] and a list of such values under [@list] and [@set]: it returns the
    scalars, for every term path. *)
Theorem ValuesAtPath_returns
    (Unmarshal : list Z -> SyntaxError + any) (Expand : any -> LdError + list any)
    (document : list Z) (tp : TermPath) (input : any) (nodes : list any) :
  Unmarshal document = inr input -> Expand input = inr nodes ->
  keywords_scalar (VSlice nodes) = true ->
  exists r, ValuesAtPath Unmarshal Expand document tp = Ret (Ok r).
Proof.
  intros Hu He Hk. unfold ValuesAtPath. rewrite Hu, He.
  destruct (Nat.eqb (length (Terms tp)) 0); [eauto|].
  destruct (valuesAtPath_returns (VSlice nodes) Hk tp) as [r Hr].
  unfold valuesFromSliceAtPath. rewrite Hr. cbn [obind]. eauto.
Qed.

Lemma ValuesAtPath_returns_witness :
  sample_Unmarshal doc_jane = inr doc_jane_tree /\
  keywords_scalar doc_jane_tree = true /\
  exists r, ValuesAtPath sample_Unmarshal sample_Expand doc_jane url_path = Ret (Ok r).
Proof.
  assert (Hu : sample_Unmarshal doc_jane = inr doc_jane_tree) by (vm_compute; reflexivity).
  assert (Hk : keywords_scalar doc_jane_tree = true) by reflexivity.
  split; [exact Hu|]. split; [exact Hk|].
  exact (ValuesAtPath_returns sample_Unmarshal sample_Expand doc_jane url_path
           doc_jane_tree _ Hu eq_refl Hk).
Defined.

Lemma oapp_nil_l {A} (o : outcome (list A)) : oapp (Ret []) o = o.
Proof. unfold oapp. cbn [obind]. destruct o; reflexivity. Qed.

Lemma oapp_assoc {A} (o1 o2 o3 : outcome (list A)) :
  oapp (oapp o1 o2) o3 = oapp o1 (oapp o2 o3).
Proof.
  unfold oapp. destruct o1, o2, o3; cbn [obind]; try reflexivity.
  now rewrite app_assoc.
Qed.

Lemma valuesFromSliceAtPath_app l1 l2 tp :
  valuesFromSliceAtPath (l1 ++ l2) tp =
  oapp (valuesFromSliceAtPath l1 tp) (valuesFromSliceAtPath l2 tp).
Proof.
  induction l1 as [|e l1 IH].
  - cbn [app]. rewrite valuesFromSliceAtPath_nil. now rewrite oapp_nil_l.
  - cbn [app]. rewrite !valuesFromSliceAtPath_cons, IH.
    fold (oapp (match e with
                | VSlice typedSub => valuesFromSliceAtPath typedSub tp
                | VMap typedSub => valuesFromMapAtPath typedSub tp
                | _ => Ret []
                end) (oapp (valuesFromSliceAtPath l1 tp) (valuesFromSliceAtPath l2 tp))).
    now rewrite <- oapp_assoc.
Qed.

(** X11. The values of a list of nodes are the values of its nodes, one
    after the other: the extraction distributes over the concatenation of
    lists, a list nested in a list counts like its elements in place, and an
    element that is neither a list nor a map contributes nothing. A panic
    in one part is a panic of the whole. *)
Theorem valuesFromSliceAtPath_flat (tp : TermPath) :
  (forall l1 l2,
      valuesFromSliceAtPath (l1 ++ l2) tp =
      oapp (valuesFromSliceAtPath l1 tp) (valuesFromSliceAtPath l2 tp)) /\
  (forall l1 inner l2,
      valuesFromSliceAtPath (l1 ++ VSlice inner :: l2) tp =
      valuesFromSliceAtPath (l1 ++ inner ++ l2) tp) /\
  (forall l1 x l2,
      match x with VSlice _ | VMap _ => False | _ => True end ->
      valuesFromSliceAtPath (l1 ++ x :: l2) tp = valuesFromSliceAtPath (l1 ++ l2) tp).
Proof.
  split; [intros l1 l2; apply valuesFromSliceAtPath_app|]. split.
  - intros l1 inner l2. rewrite !valuesFromSliceAtPath_app.
    rewrite valuesFromSliceAtPath_cons. reflexivity.
  - intros l1 x l2 Hx. rewrite !valuesFromSliceAtPath_app.
    rewrite valuesFromSliceAtPath_cons.
    destruct x; try contradiction;
      fold (oapp (@Ret (list Scalar) []) (valuesFromSliceAtPath l2 tp));
      now rewrite oapp_nil_l.
Qed.

Lemma valuesFromSliceAtPath_flat_witness :
  valuesFromSliceAtPath ([doc_jane_tree] ++ VString "Jane Doe" :: [doc_jane_tree]) name_path =
  valuesFromSliceAtPath ([doc_jane_tree] ++ [doc_jane_tree]) name_path.
Proof.
  exact (proj2 (proj2 (valuesFromSliceAtPath_flat name_path))
               [doc_jane_tree] (VString "Jane Doe") [doc_jane_tree] I).
Defined.

(** ** More on the documents of a collection *)

Lemma CreateBucketIfNotExists_child (b b1 c : gmap (list Z) node) name :
  CreateBucketIfNotExists b name = Ok (b1, c) ->
  Bucket_Bucket b1 name = Some c /\
  (Bucket_Bucket b name = Some c \/ (Bucket_Bucket b name = None /\ c = ∅)).
Proof.
  unfold CreateBucketIfNotExists, Bucket_Bucket. destruct name as [|n0 nm]; [discriminate|].
  destruct (b !! (n0 :: nm)) as [[v | nb]|] eqn:Hb; try discriminate; intros [= <- <-].
  - rewrite Hb. auto.
  - rewrite lookup_insert_eq. auto.
Qed.

Lemma Bucket_Bucket_lookup (b b' : gmap (list Z) node) (k k' : list Z) :
  b' !! k' = b !! k -> Bucket_Bucket b' k' = Bucket_Bucket b k.
Proof. unfold Bucket_Bucket. now intros ->. Qed.

Lemma Bucket_Put_ok (b b' : gmap (list Z) node) key val :
  Bucket_Put b key val = Ok b' -> b' = <[key := Leaf val]> b.
Proof.
  unfold Bucket_Put. destruct key as [|k key]; [discriminate|].
  destruct (MaxKeySize <? _); [discriminate|].
  destruct (MaxValueSize <? _); [discriminate|].
  destruct (b !! (k :: key)) as [[v | nb]|]; try discriminate; now intros [= <-].
Qed.

Lemma add_docs_documents c jsonSet : forall bucket d0 bucket',
  Forall index_frame (IndexList c) ->
  Bucket_Bucket bucket documentBucketByteRef = Some d0 ->
  add_docs c bucket jsonSet = Ok bucket' ->
  Bucket_Bucket bucket' documentBucketByteRef = Some (put_all c jsonSet d0).
Proof.
  induction jsonSet as [|doc rest IH]; intros bucket d0 bucket' Hframe Hd0; cbn [add_docs].
  - intros [= <-]. exact Hd0.
  - destruct (add_to_indices _ _ _ _) as [bucket1|] eqn:Hidx; [|discriminate].
    apply add_to_indices_frame in Hidx; [|assumption].
    unfold through. rewrite (Bucket_Bucket_lookup _ _ _ _ Hidx), Hd0.
    destruct (Bucket_Put d0 (refMake c doc) doc) as [d1|] eqn:Hput; [|discriminate].
    apply Bucket_Put_ok in Hput. subst d1. intros Hrest.
    apply (IH _ _ _ Hframe (Bucket_Bucket_insert _ _ _) Hrest).
Qed.

Lemma put_all_other c jsonSet : forall d0 key,
  (forall d, In d jsonSet -> refMake c d <> key) ->
  put_all c jsonSet d0 !! key = d0 !! key.
Proof.
  induction jsonSet as [|doc rest IH]; intros d0 key Hkey; cbn; [reflexivity|].
  unfold put_all in IH. rewrite IH by (intros d Hd; apply Hkey; now right).
  apply lookup_insert_ne. apply Hkey. now left.
Qed.

Lemma put_all_last c before d after d0 :
  (forall d', In d' after -> refMake c d' <> refMake c d) ->
  put_all c (before ++ d :: after) d0 !! refMake c d = Some (Leaf d).
Proof.
  intros Hafter. unfold put_all. rewrite fold_left_app. cbn [fold_left].
  fold (put_all c after (<[refMake c d := Leaf d]> (fold_left
         (fun d1 doc => <[refMake c doc := Leaf doc]> d1) before d0))).
  rewrite put_all_other by assumption. apply lookup_insert_eq.
Qed.

(** What [Get] reads, with the bucket the documents are in. *)
Lemma collection_Get_eq c db key :
  collection_Get c db key =
  (match collection_documentBucket c db with
   | Some b => Bucket_Get b key
   | None => None
   end, None).
Proof. unfold collection_Get. destruct (collection_documentBucket c db); reflexivity. Qed.

Lemma collection_add_documents c tx jsonSet tx' :
  Forall index_frame (IndexList c) ->
  collection_add c tx jsonSet = Ok tx' ->
  exists d0,
    (collection_documentBucket c tx = Some d0 \/
     (collection_documentBucket c tx = None /\ d0 = ∅)) /\
    collection_documentBucket c tx' = Some (put_all c jsonSet d0).
Proof.
  intros Hframe. unfold collection_add.
  destruct (CreateBucketIfNotExists tx _) as [[tx1 bucket]|] eqn:Hc1; [|discriminate].
  destruct (CreateBucketIfNotExists bucket _) as [[bucket1 d0]|] eqn:Hc2; [|discriminate].
  destruct (add_docs c bucket1 jsonSet) as [bucket2|] eqn:Hadd; [|discriminate].
  intros [= <-]. exists d0.
  apply CreateBucketIfNotExists_child in Hc1 as [_ Hc1].
  apply CreateBucketIfNotExists_child in Hc2 as [Hd0 Hc2].
  split.
  - unfold collection_documentBucket.
    destruct Hc1 as [-> | [-> ->]].
    + destruct Hc2 as [-> | [-> ->]]; auto.
    + right. split; [reflexivity|]. destruct Hc2 as [H | [_ H]]; [|assumption].
      unfold Bucket_Bucket in H. rewrite lookup_empty in H. discriminate.
  - unfold collection_documentBucket. rewrite Bucket_Bucket_insert.
    eapply add_docs_documents; eassumption.
Qed.

(** X12. After [Add] has stored a set of documents without error, [Get]
    returns each document of the set for its reference, unless a later
    document of the set has the same reference (the later one is stored
    then), and returns for every reference that no document of the set has
    what it returned before. The indices of the collection leave the bucket
    of the documents alone. *)
Theorem Add_set_Get (c : collection) (db db1 : gmap (list Z) node) (jsonSet : list (list Z)) :
  Forall index_frame (IndexList c) ->
  collection_Add c db jsonSet = (db1, None) ->
  (forall before d after,
      jsonSet = before ++ d :: after ->
      (forall d', In d' after -> collection_Reference c d' <> collection_Reference c d) ->
      collection_Get c db1 (collection_Reference c d) = (Some d, None)) /\
  (forall key,
      (forall d, In d jsonSet -> collection_Reference c d <> key) ->
      collection_Get c db1 key = collection_Get c db key).
Proof.
  intros Hframe Hadd. unfold collection_Add, Update in Hadd.
  destruct (collection_add c db jsonSet) as [tx'|] eqn:Hok; [|discriminate].
  injection Hadd as <-.
  destruct (collection_add_documents _ _ _ _ Hframe Hok) as (d0 & Hbefore & Hafter).
  unfold collection_Reference. split.
  - intros before d after -> Hlater.
    rewrite collection_Get_eq, Hafter. unfold Bucket_Get.
    now rewrite put_all_last.
  - intros key Hkey. rewrite !collection_Get_eq, Hafter. unfold Bucket_Get.
    rewrite put_all_other by assumption.
    destruct Hbefore as [-> | [-> ->]]; [reflexivity|]. now rewrite lookup_empty.
Qed.

Lemma Add_set_Get_witness :
  Forall index_frame (IndexList (test_collection [by_name])) /\
  (collection_Add (test_collection [by_name]) ∅ [doc_jane; doc_jane]).2 = None /\
  collection_Get (test_collection [by_name])
                 (collection_Add (test_collection [by_name]) ∅ [doc_jane; doc_jane]).1
                 (collection_Reference (test_collection [by_name]) doc_jane) =
  (Some doc_jane, None).
Proof.
  assert (Hframe : Forall index_frame (IndexList (test_collection [by_name]))).
  { repeat constructor. apply sample_index_frame. vm_compute. discriminate. }
  assert (Hrun : (collection_Add (test_collection [by_name]) ∅ [doc_jane; doc_jane]).2 = None)
    by (vm_compute; reflexivity).
  split; [exact Hframe|]. split; [exact Hrun|].
  apply (proj1 (Add_set_Get (test_collection [by_name]) ∅ _ [doc_jane; doc_jane] Hframe
                  (pair_of_snd _ _ Hrun)) [doc_jane] doc_jane []); [reflexivity|].
  intros d' [].
Defined.

(** X13. After [Delete] has returned without error, [Get] returns nil for
    the reference of the deleted document, whether it was stored or not, and
    for every other reference what it returned before. *)
Theorem Delete_Get (c : collection) (db db2 : gmap (list Z) node) (d : list Z) :
  Forall index_frame (IndexList c) ->
  collection_Delete c db d = (db2, None) ->
  collection_Get c db2 (collection_Reference c d) = (None, None) /\
  (forall key, key <> collection_Reference c d ->
               collection_Get c db2 key = collection_Get c db key).
Proof.
  intros Hframe. unfold collection_Delete, Update, collection_delete, collection_Reference.
  destruct (Bucket_Bucket db (bytes_of_string (Name c))) as [bucket|] eqn:Hb.
  - destruct (collection_documentBucket c db) as [docBucket|] eqn:Hd.
    + destruct (Bucket_Delete docBucket (refMake c d)) as [docBucket'|] eqn:Hdel;
        [|discriminate].
      destruct (delete_from_indices _ _ _ _) as [bucket2|] eqn:Hidx; [|discriminate].
      intros [= <-]. apply delete_from_indices_frame in Hidx; [|assumption].
      rewrite lookup_insert_eq in Hidx.
      assert (Hdoc : collection_documentBucket c
                       (<[bytes_of_string (Name c) := Nested bucket2]> db) = Some docBucket').
      { unfold collection_documentBucket. rewrite Bucket_Bucket_insert.
        unfold Bucket_Bucket. now rewrite Hidx. }
      split.
      * rewrite collection_Get_eq, Hdoc. now rewrite (Bucket_Delete_Get _ _ _ Hdel).
      * intros key Hkey. rewrite !collection_Get_eq, Hdoc, Hd. f_equal.
        unfold Bucket_Delete in Hdel. unfold Bucket_Get.
        destruct (docBucket !! refMake c d) as [[v | nb]|]; try discriminate;
          injection Hdel as <-; [|reflexivity].
        now rewrite lookup_delete_ne by congruence.
    + intros [= <-]. rewrite !collection_Get_eq, Hd. auto.
  - intros [= <-]. rewrite !collection_Get_eq. unfold collection_documentBucket.
    rewrite Hb. auto.
Qed.

Lemma Delete_Get_witness :
  Forall index_frame (IndexList (test_collection [by_name])) /\
  (collection_Delete (test_collection [by_name]) ∅ doc_jane).2 = None /\
  collection_Get (test_collection [by_name])
                 (collection_Delete (test_collection [by_name]) ∅ doc_jane).1
                 (collection_Reference (test_collection [by_name]) doc_jane) = (None, None).
Proof.
  assert (Hframe : Forall index_frame (IndexList (test_collection [by_name]))).
  { repeat constructor. apply sample_index_frame. vm_compute. discriminate. }
  assert (Hrun : (collection_Delete (test_collection [by_name]) ∅ doc_jane).2 = None)
    by reflexivity.
  split; [exact Hframe|]. split; [exact Hrun|].
  exact (proj1 (Delete_Get (test_collection [by_name]) ∅ _ doc_jane Hframe
                  (pair_of_snd _ _ Hrun))).
Defined.

(** ** More on the indices of a collection *)

Lemma backfill_frame index pairs : forall bucket bucket',
  index_frame index ->
  backfill index bucket pairs = Ok bucket' ->
  bucket' !! documentBucketByteRef = bucket !! documentBucketByteRef.
Proof.
  induction pairs as [|[ref rawDoc] rest IH]; intros bucket bucket' Hframe; cbn [backfill].
  - now intros [= <-].
  - destruct (Index_Add index bucket ref rawDoc) as [b1|] eqn:Hadd; [|discriminate].
    intros Hrest. rewrite (IH _ _ Hframe Hrest). apply (Hframe bucket ref rawDoc). now left.
Qed.

Lemma documentBucket_after_create (c : collection) (tx tx1 bucket : gmap (list Z) node)
    (key : list Z) :
  CreateBucketIfNotExists tx (bytes_of_string (Name c)) = Ok (tx1, bucket) ->
  match Bucket_Bucket bucket documentBucketByteRef with
  | Some b => Bucket_Get b key
  | None => None
  end =
  match collection_documentBucket c tx with
  | Some b => Bucket_Get b key
  | None => None
  end.
Proof.
  intros Hc. apply CreateBucketIfNotExists_child in Hc as [_ Hc].
  unfold collection_documentBucket. destruct Hc as [-> | [-> ->]]; [reflexivity|].
  unfold Bucket_Bucket. now rewrite lookup_empty.
Qed.

Lemma AddIndex_tx_Get (c : collection) (index : Index) (tx tx' : gmap (list Z) node)
    (key : list Z) :
  index_frame index ->
  AddIndex_tx c index tx = Ok tx' ->
  collection_Get c tx' key = collection_Get c tx key.
Proof.
  intros Hframe. unfold AddIndex_tx. rewrite !collection_Get_eq.
  destruct (CreateBucketIfNotExists tx _) as [[tx1 bucket]|] eqn:Hc1; [|discriminate].
  pose proof (documentBucket_after_create c tx tx1 bucket key Hc1) as Horig.
  apply CreateBucketIfNotExists_child in Hc1 as [Hb1 _].
  destruct (Bucket_Bucket bucket (Index_BucketName index)).
  - intros [= <-]. unfold collection_documentBucket at 1. rewrite Hb1. now rewrite Horig.
  - destruct (CreateBucketIfNotExists bucket _) as [[bucket1 gBucket]|] eqn:Hc2; [|discriminate].
    destruct (backfill index bucket1 (cursor_pairs gBucket)) as [bucket2|] eqn:Hfill;
      [|discriminate].
    intros [= <-]. apply backfill_frame in Hfill; [|assumption].
    apply CreateBucketIfNotExists_child in Hc2 as [Hg Hc2].
    unfold collection_documentBucket at 1. rewrite Bucket_Bucket_insert.
    rewrite (Bucket_Bucket_lookup _ _ _ _ Hfill), Hg. rewrite <- Horig. f_equal.
    destruct Hc2 as [-> | [-> ->]]; [reflexivity|]. unfold Bucket_Get. now rewrite lookup_empty.
Qed.

(** X14. [AddIndex] does not touch the documents: whatever indices are
    given and whether it returns an error or not, [Get] returns for every
    reference what it returned before, and the collection keeps its name;
    the indices given write under their own buckets only. *)
Theorem AddIndex_keeps_documents (indexes : list Index) :
  Forall index_frame indexes ->
  forall (c : collection) (db : gmap (list Z) node) (key : list Z),
    collection_Get (collection_AddIndex c db indexes).1.1
                   (collection_AddIndex c db indexes).1.2 key =
    collection_Get c db key /\
    Name (collection_AddIndex c db indexes).1.1 = Name c.
Proof.
  induction indexes as [|index rest IH]; intros Hframe c db key; cbn [collection_AddIndex].
  - auto.
  - inversion Hframe as [|? ? Hi Hrest]; subst.
    destruct (name_listed index (IndexList c)); [auto|].
    unfold Update. destruct (AddIndex_tx c index db) as [db'|e] eqn:Htx; [|auto].
    destruct (IH Hrest (with_IndexList c (IndexList c ++ [index])) db' key) as [HG HN].
    split; [|exact HN].
    rewrite HG. rewrite !collection_Get_eq.
    pose proof (AddIndex_tx_Get c index db db' key Hi Htx) as H.
    rewrite !collection_Get_eq in H. exact H.
Qed.

Lemma AddIndex_keeps_documents_witness :
  Forall index_frame [by_name; by_url] /\
  collection_Get (collection_AddIndex (test_collection []) (db_jane (test_collection []))
                                      [by_name; by_url]).1.1
                 (collection_AddIndex (test_collection []) (db_jane (test_collection []))
                                      [by_name; by_url]).1.2 doc_jane =
  collection_Get (test_collection []) (db_jane (test_collection [])) doc_jane.
Proof.
  assert (Hframe : Forall index_frame [by_name; by_url]).
  { repeat constructor; apply sample_index_frame; vm_compute; discriminate. }
  split; [exact Hframe|].
  exact (proj1 (AddIndex_keeps_documents [by_name; by_url] Hframe (test_collection [])
                  (db_jane (test_collection [])) doc_jane)).
Defined.

Lemma name_listed_snoc index l : name_listed index (l ++ [index]) = true.
Proof.
  unfold name_listed. rewrite existsb_app. cbn [existsb].
  rewrite String.eqb_refl. now rewrite orb_true_r.
Qed.

(** X15. Adding an index twice is adding it once: when [AddIndex] has added
    an index whose name was not listed, the index is the last of the list,
    and the same call again changes neither the list nor the store and
    returns no error. *)
Theorem AddIndex_twice (c c' : collection) (db db' : gmap (list Z) node) (index : Index) :
  name_listed index (IndexList c) = false ->
  collection_AddIndex c db [index] = (c', db', None) ->
  IndexList c' = IndexList c ++ [index] /\
  collection_AddIndex c' db' [index] = (c', db', None).
Proof.
  intros Hfresh. cbn [collection_AddIndex]. rewrite Hfresh. unfold Update.
  destruct (AddIndex_tx c index db) as [tx'|e]; [|discriminate].
  intros [= <- <-]. cbn [with_IndexList IndexList]. split; [reflexivity|].
  now rewrite name_listed_snoc.
Qed.

Lemma AddIndex_twice_witness :
  name_listed by_name (IndexList (test_collection [])) = false /\
  (collection_AddIndex (test_collection []) (db_jane (test_collection [])) [by_name]).2 = None /\
  (collection_AddIndex
     (collection_AddIndex (test_collection []) (db_jane (test_collection [])) [by_name]).1.1
     (collection_AddIndex (test_collection []) (db_jane (test_collection [])) [by_name]).1.2
     [by_name]).2 = None.
Proof.
  assert (Hfresh : name_listed by_name (IndexList (test_collection [])) = false)
    by reflexivity.
  assert (Hrun : (collection_AddIndex (test_collection []) (db_jane (test_collection []))
                                      [by_name]).2 = None) by (vm_compute; reflexivity).
  split; [exact Hfresh|]. split; [exact Hrun|].
  assert (Hpair : collection_AddIndex (test_collection []) (db_jane (test_collection []))
                                      [by_name] =
                  ((collection_AddIndex (test_collection []) (db_jane (test_collection []))
                                        [by_name]).1.1,
                   (collection_AddIndex (test_collection []) (db_jane (test_collection []))
                                        [by_name]).1.2, None)).
  { rewrite <- Hrun. now destruct (collection_AddIndex _ _ _) as [[? ?] ?]. }
  rewrite (proj2 (AddIndex_twice _ _ _ _ by_name Hfresh Hpair)). reflexivity.
Defined.

(** ** Dropping an index *)

Lemma drop_range_list name l : forall bucket,
  (drop_range name l bucket).2 = List.filter (other_name name) l.
Proof.
  induction l as [|i l IH]; intros bucket; cbn [drop_range List.filter]; [reflexivity|].
  unfold other_name at 1.
  destruct (String.eqb name (Index_Name i)); cbn [negb].
  - apply IH.
  - specialize (IH bucket). destruct (drop_range name l bucket) as [b' l'].
    cbn [snd] in *. now rewrite IH.
Qed.

Lemma filter_other_name_id name l :
  (forall i, In i l -> Index_Name i <> name) -> List.filter (other_name name) l = l.
Proof.
  induction l as [|i l IH]; intros H; cbn [List.filter]; [reflexivity|].
  unfold other_name at 1.
  destruct (String.eqb_spec name (Index_Name i)) as [Heq | _]; cbn [negb].
  - exfalso. apply (H i); [now left | now symmetry].
  - f_equal. apply IH. intros j Hj. apply H. now right.
Qed.

Lemma drop_range_other name l : forall (bucket : gmap (list Z) node) (k : list Z),
  (forall i, In i l -> Index_Name i = name -> Index_BucketName i <> k) ->
  (drop_range name l bucket).1 !! k = bucket !! k.
Proof.
  induction l as [|i l IH]; intros bucket k Hk; cbn [drop_range]; [reflexivity|].
  destruct (String.eqb_spec name (Index_Name i)) as [Heq | Hne].
  - rewrite IH by (intros j Hj; apply Hk; now right).
    unfold Bucket_DeleteBucket.
    destruct (bucket !! Index_BucketName i) as [[v | nb]|]; try reflexivity.
    apply lookup_delete_ne. apply Hk; [now left | now symmetry].
  - specialize (IH bucket k). destruct (drop_range name l bucket) as [b' l'].
    cbn [fst] in *. apply IH. intros j Hj. apply Hk. now right.
Qed.

Lemma drop_range_none name l : forall (bucket : gmap (list Z) node) (k : list Z),
  Bucket_Bucket bucket k = None -> Bucket_Bucket (drop_range name l bucket).1 k = None.
Proof.
  induction l as [|i l IH]; intros bucket k Hk; cbn [drop_range]; [exact Hk|].
  destruct (String.eqb name (Index_Name i)).
  - apply IH. unfold Bucket_DeleteBucket.
    destruct (bucket !! Index_BucketName i) as [[v | nb]|] eqn:Hb; try exact Hk.
    unfold Bucket_Bucket.
    destruct (decide (Index_BucketName i = k)) as [<- | Hne].
    + now rewrite lookup_delete_eq.
    + rewrite lookup_delete_ne by assumption. exact Hk.
  - specialize (IH bucket k Hk). now destruct (drop_range name l bucket).
Qed.

Lemma drop_range_gone name l : forall (bucket : gmap (list Z) node) i,
  In i l -> Index_Name i = name ->
  Bucket_Bucket (drop_range name l bucket).1 (Index_BucketName i) = None.
Proof.
  induction l as [|j l IH]; intros bucket i Hin Hname; [destruct Hin|].
  cbn [drop_range]. destruct Hin as [-> | Hin].
  - subst name. rewrite String.eqb_refl. apply drop_range_none.
    unfold Bucket_DeleteBucket, Bucket_Bucket.
    destruct (bucket !! Index_BucketName i) as [[v | nb]|] eqn:Hb.
    + now rewrite Hb.
    + now rewrite lookup_delete_eq.
    + now rewrite Hb.
  - destruct (String.eqb name (Index_Name j)); [now apply IH|].
    specialize (IH bucket i Hin Hname). now destruct (drop_range name l bucket).
Qed.

(** X16. When [DropIndex] returns no error, the list of the collection is
    the old list without the indices of the given name, in the old order; no
    index of that name is listed any more, so a later [AddIndex] of such an
    index is not taken for a duplicate; and the buckets of the dropped
    indices are gone from the bucket of the collection. A name that is not
    listed leaves the list as it is. When [DropIndex] returns an error,
    list and store are unchanged. *)
Theorem DropIndex_spec (c c' : collection) (db db' : gmap (list Z) node) (name : string)
    (err : option error) :
  collection_DropIndex c db name = (c', db', err) ->
  (err = None ->
   IndexList c' = List.filter (other_name name) (IndexList c) /\
   (forall index, Index_Name index = name -> name_listed index (IndexList c') = false) /\
   (forall i, In i (IndexList c) -> Index_Name i = name ->
              exists bucket', Bucket_Bucket db' (bytes_of_string (Name c)) = Some bucket' /\
                              Bucket_Bucket bucket' (Index_BucketName i) = None) /\
   ((forall i, In i (IndexList c) -> Index_Name i <> name) -> IndexList c' = IndexList c)) /\
  (err <> None -> c' = c /\ db' = db).
Proof.
  unfold collection_DropIndex.
  destruct (CreateBucketIfNotExists db _) as [[tx1 bucket]|] eqn:Hc.
  - pose proof (drop_range_list name (IndexList c) bucket) as Hl.
    pose proof (fun i => drop_range_gone name (IndexList c) bucket i) as Hgone.
    destruct (drop_range name (IndexList c) bucket) as [bucket' newIndices].
    cbn [fst snd] in *. intros [= <- <- <-]. split; [|intros H; now destruct H].
    intros _. cbn [with_IndexList IndexList]. split; [exact Hl|]. split; [|split].
    + intros index <-. rewrite Hl. unfold name_listed.
      apply not_true_is_false. intros Hex. apply existsb_exists in Hex as (i & Hin & Heq).
      apply filter_In in Hin as [_ Hkeep].
      unfold other_name in Hkeep. rewrite String.eqb_sym, Heq in Hkeep. discriminate.
    + intros i Hin Hname. exists bucket'. rewrite Bucket_Bucket_insert. auto.
    + intros Hnone. rewrite Hl. now apply filter_other_name_id.
  - intros [= <- <- <-]. split; [discriminate | auto].
Qed.

Lemma DropIndex_spec_witness :
  collection_DropIndex (test_collection [by_name; by_url]) ∅ "by_name" =
  ((collection_DropIndex (test_collection [by_name; by_url]) ∅ "by_name").1.1,
   (collection_DropIndex (test_collection [by_name; by_url]) ∅ "by_name").1.2, None) /\
  map Index_Name
      (IndexList (collection_DropIndex (test_collection [by_name; by_url]) ∅ "by_name").1.1) =
  ["by_url"%string].
Proof.
  assert (Hrun : collection_DropIndex (test_collection [by_name; by_url]) ∅ "by_name" =
                 ((collection_DropIndex (test_collection [by_name; by_url]) ∅ "by_name").1.1,
                  (collection_DropIndex (test_collection [by_name; by_url]) ∅ "by_name").1.2,
                  None)) by reflexivity.
  split; [exact Hrun|].
  rewrite (proj1 (proj1 (DropIndex_spec _ _ _ _ _ _ Hrun) eq_refl)). reflexivity.
Defined.

(** X17. [DropIndex] keeps the documents: [Get] returns for every reference
    what it returned before, unless an index of the dropped name has the
    bucket of the documents as its own; and it keeps every bucket of the
    collection that no index of the dropped name claims, those of the other
    indices among them. *)
Theorem DropIndex_keeps (c : collection) (db : gmap (list Z) node) (name : string) :
  (forall key,
      (forall i, In i (IndexList c) -> Index_Name i = name ->
                 Index_BucketName i <> documentBucketByteRef) ->
      collection_Get (collection_DropIndex c db name).1.1
                     (collection_DropIndex c db name).1.2 key =
      collection_Get c db key) /\
  (forall k bucket,
      (forall i, In i (IndexList c) -> Index_Name i = name -> Index_BucketName i <> k) ->
      Bucket_Bucket db (bytes_of_string (Name c)) = Some bucket ->
      exists bucket',
        Bucket_Bucket (collection_DropIndex c db name).1.2 (bytes_of_string (Name c)) =
        Some bucket' /\
        bucket' !! k = bucket !! k).
Proof.
  unfold collection_DropIndex. split.
  - intros key Hdocs. rewrite !collection_Get_eq.
    destruct (CreateBucketIfNotExists db _) as [[tx1 bucket]|] eqn:Hc; [|reflexivity].
    pose proof (documentBucket_after_create c db tx1 bucket key Hc) as Horig.
    pose proof (drop_range_other name (IndexList c) bucket documentBucketByteRef Hdocs) as Hk.
    destruct (drop_range name (IndexList c) bucket) as [bucket' newIndices].
    cbn [fst snd with_IndexList Name] in *.
    unfold collection_documentBucket at 1. cbn [Name]. rewrite Bucket_Bucket_insert.
    rewrite (Bucket_Bucket_lookup _ _ _ _ Hk). rewrite Horig. reflexivity.
  - intros k bucket Hk Hb.
    unfold CreateBucketIfNotExists. unfold Bucket_Bucket in Hb.
    destruct (bytes_of_string (Name c)) as [|n0 nm] eqn:Hn.
    + cbn [fst snd]. unfold Bucket_Bucket. destruct (db !! []) as [[v|nb]|]; try discriminate.
      injection Hb as ->. eauto.
    + destruct (db !! (n0 :: nm)) as [[v | nb]|]; try discriminate. injection Hb as ->.
      pose proof (drop_range_other name (IndexList c) bucket k Hk) as Hsame.
      destruct (drop_range name (IndexList c) bucket) as [bucket' newIndices].
      cbn [fst snd] in *. exists bucket'. rewrite Bucket_Bucket_insert. auto.
Qed.

Lemma DropIndex_keeps_witness :
  (forall i, In i (IndexList (test_collection [by_name])) -> Index_Name i = "by_name"%string ->
             Index_BucketName i <> documentBucketByteRef) /\
  collection_Get (collection_DropIndex (test_collection [by_name])
                                       (db_jane (test_collection [by_name])) "by_name").1.1
                 (collection_DropIndex (test_collection [by_name])
                                       (db_jane (test_collection [by_name])) "by_name").1.2
                 doc_jane =
  collection_Get (test_collection [by_name]) (db_jane (test_collection [by_name])) doc_jane.
Proof.
  assert (H : forall i, In i (IndexList (test_collection [by_name])) ->
                        Index_Name i = "by_name"%string ->
                        Index_BucketName i <> documentBucketByteRef).
  { intros i [<- | []] _. vm_compute. discriminate. }
  split; [exact H|].
  exact (proj1 (DropIndex_keeps (test_collection [by_name])
                  (db_jane (test_collection [by_name])) "by_name") doc_jane H).
Defined.

(** ** More on the planner *)

Lemma findIndex_range_first (h : heap) (query : Query) l : forall cIndex cMatch,
  match findIndex_range l h query cIndex cMatch with
  | None => cIndex = None
  | Some i =>
      (cIndex = Some i /\ scores_upto h query cMatch l) \/
      (exists l1 l2,
          l = l1 ++ i :: l2 /\ (cMatch < Index_IsMatch i h query)%Q /\
          scores_below h query (Index_IsMatch i h query) l1 /\
          scores_upto h query (Index_IsMatch i h query) l2)
  end.
Proof.
  unfold scores_below, scores_upto.
  induction l as [|i0 l IH]; intros cIndex cMatch; cbn [findIndex_range].
  - destruct cIndex; auto.
  - destruct (Qlt_le_dec cMatch (Index_IsMatch i0 h query)) as [Hlt | Hle].
    + specialize (IH (Some i0) (Index_IsMatch i0 h query)).
      destruct (findIndex_range l h query (Some i0) (Index_IsMatch i0 h query)) as [i|];
        [|discriminate].
      right. destruct IH as [[[= <-] Hall] | (l1 & l2 & -> & Hbetter & H1 & H2)].
      * exists [], l. repeat split; [assumption | constructor | assumption].
      * exists (i0 :: l1), l2. repeat split.
        -- eapply Qlt_trans; eassumption.
        -- constructor; assumption.
        -- assumption.
    + specialize (IH cIndex cMatch).
      destruct (findIndex_range l h query cIndex cMatch) as [i|]; [|assumption].
      destruct IH as [[-> Hall] | (l1 & l2 & -> & Hbetter & H1 & H2)].
      * left. split; [reflexivity|]. constructor; assumption.
      * right. exists (i0 :: l1), l2. repeat split; try assumption.
        constructor; [|assumption]. eapply Qle_lt_trans; eassumption.
Qed.

(** X18. The index [findIndex] returns is the first of the list with the
    highest score: its score is above 0, the indices before it score
    strictly less, those after it score no more. *)
Theorem findIndex_first_best (c : collection) (h : heap) (q : query) (index : Index) :
  collection_findIndex c h (Some q) = Some index ->
  exists before after,
    IndexList c = before ++ index :: after /\
    (0 < Index_IsMatch index h (Some q))%Q /\
    scores_below h (Some q) (Index_IsMatch index h (Some q)) before /\
    scores_upto h (Some q) (Index_IsMatch index h (Some q)) after.
Proof.
  unfold collection_findIndex. intros Hf.
  pose proof (findIndex_range_first h (Some q) (IndexList c) None 0%Q) as H.
  rewrite Hf in H. destruct H as [[[=] _] | (l1 & l2 & Hl & Hpos & H1 & H2)].
  exists l1, l2. auto.
Qed.

Lemma findIndex_first_best_witness :
  collection_findIndex (test_collection [by_url; by_name; by_name]) jane_heap
                       (Some jane_query) = Some by_name /\
  exists before after,
    IndexList (test_collection [by_url; by_name; by_name]) = before ++ by_name :: after /\
    scores_below jane_heap (Some jane_query)
                 (Index_IsMatch by_name jane_heap (Some jane_query)) before.
Proof.
  assert (Hf : collection_findIndex (test_collection [by_url; by_name; by_name]) jane_heap
                                    (Some jane_query) = Some by_name) by reflexivity.
  split; [exact Hf|].
  destruct (findIndex_first_best _ _ _ _ Hf) as (before & after & Hl & _ & Hb & _).
  exists before, after. auto.
Defined.

(** ** More on Find *)

(** X19. With a context that is not cancelled while [Find] runs, [Find]
    returns the documents the plan hands to its walker, all of them and in
    that order, when the scan ends without error; when the scan ends with an
    error, [Find] returns the error and none of the documents. *)
Theorem Find_live
    (scan : queryPlan -> heap -> Bucket -> list (list Z * list Z) * option error)
    (c : collection) (h : heap) (db : Bucket) (ctx : nat -> option error)
    (q : query) (plan : queryPlan) :
  collection_queryPlan c h (Some q) = Ok plan ->
  (forall n, ctx n = None) ->
  collection_Find scan c h db ctx (Some q) =
  match (scan plan h db).2 with
  | None => Ok (map snd (scan plan h db).1)
  | Some e => Err e
  end.
Proof.
  intros Hplan Hctx. unfold collection_Find, collection_Iterate. rewrite Hplan.
  unfold execute. destruct (scan plan h db) as [rows ending]. cbn [fst snd].
  rewrite (walk_Find_walker_live ctx rows Hctx). destruct ending; reflexivity.
Qed.

Lemma Find_live_witness :
  collection_queryPlan (test_collection [by_name]) jane_heap (Some jane_query) =
  Ok (resultScanQueryPlan (test_collection [by_name]) (Some jane_query) by_name) /\
  (forall n, ctx_background n = None) /\
  collection_Find sample_scan (test_collection [by_name]) jane_heap
                  (db_jane (test_collection [by_name])) ctx_background (Some jane_query) =
  Ok [doc_jane].
Proof.
  assert (Hplan : collection_queryPlan (test_collection [by_name]) jane_heap (Some jane_query) =
                  Ok (resultScanQueryPlan (test_collection [by_name]) (Some jane_query) by_name))
    by reflexivity.
  assert (Hctx : forall n, ctx_background n = None) by reflexivity.
  split; [exact Hplan|]. split; [exact Hctx|].
  rewrite (Find_live sample_scan _ _ (db_jane (test_collection [by_name])) _ _ _ Hplan Hctx).
  vm_compute. reflexivity.
Defined.

(** ** Field indexers *)

Lemma mustParseAll_strings l :
  mustParseAll (map VString l) = Ret (map (fun t => mkScalar (VString t)) l).
Proof.
  induction l as [|t l IH]; [reflexivity|]. cbn [map mustParseAll].
  rewrite IH. reflexivity.
Qed.

(** X20. [Tokenize] never panics. Without a tokenizer, and for a scalar that
    is not a string, it returns the scalar alone; for a string it returns
    the tokens of the tokenizer as string scalars, in their order, none when
    the tokenizer finds none. [Transform] without a transformer returns the
    scalar as it is. *)
Theorem fieldIndexer_Tokenize_spec (j : fieldIndexer) (scalar : Scalar) :
  (exists r, fieldIndexer_Tokenize j scalar = Ret r) /\
  (forall tok s,
      tokenizer j = Some tok -> value scalar = VString s ->
      fieldIndexer_Tokenize j scalar = Ret (map (fun t => mkScalar (VString t)) (tok s))) /\
  (tokenizer j = None \/ (forall s, value scalar <> VString s) ->
   fieldIndexer_Tokenize j scalar = Ret [scalar]) /\
  (transformer j = None -> fieldIndexer_Transform j scalar = scalar).
Proof.
  unfold fieldIndexer_Tokenize, fieldIndexer_Transform. split; [|split; [|split]].
  - destruct (tokenizer j) as [tok|]; [|eauto].
    destruct (value scalar); eauto. rewrite mustParseAll_strings. eauto.
  - intros tok s -> ->. apply mustParseAll_strings.
  - intros [-> | Hns]; [reflexivity|].
    destruct (tokenizer j); [|reflexivity].
    destruct (value scalar) eqn:Hv; try reflexivity. destruct (Hns s eq_refl).
  - now intros ->.
Qed.

Lemma fieldIndexer_Tokenize_spec_witness :
  tokenizer (NewFieldIndexer name_path [TokenizerOption (Some WhiteSpaceTokenizer)]) =
  Some WhiteSpaceTokenizer /\
  fieldIndexer_Tokenize (NewFieldIndexer name_path [TokenizerOption (Some WhiteSpaceTokenizer)])
                        (mkScalar (VString "Jane Doe")) =
  Ret [mkScalar (VString "Jane"); mkScalar (VString "Doe")].
Proof.
  split; [reflexivity|].
  rewrite (proj1 (proj2 (fieldIndexer_Tokenize_spec
                           (NewFieldIndexer name_path
                                            [TokenizerOption (Some WhiteSpaceTokenizer)])
                           (mkScalar (VString "Jane Doe"))))
                 WhiteSpaceTokenizer "Jane Doe" eq_refl eq_refl).
  reflexivity.
Defined.

Lemma NewFieldIndexer_snoc tp options o :
  NewFieldIndexer tp (options ++ [o]) = o (NewFieldIndexer tp options).
Proof. unfold NewFieldIndexer. now rewrite fold_left_app. Qed.

(** X21. [NewFieldIndexer] with the options of the package: the term path
    is the one given, whatever the options; without options there is no
    transformer and no tokenizer; the last option of a kind decides, and an
    option of one kind leaves the other field alone. *)
Theorem NewFieldIndexer_options (tp : TermPath) (options : list IndexOption) :
  Forall provided_option options ->
  fi_termPath (NewFieldIndexer tp options) = tp /\
  (forall other, fieldIndexer_Equals (NewFieldIndexer tp options) other =
                 TermPath_Equals tp other) /\
  (forall t, transformer (NewFieldIndexer tp (options ++ [TransformerOption t])) = t /\
             tokenizer (NewFieldIndexer tp (options ++ [TransformerOption t])) =
             tokenizer (NewFieldIndexer tp options)) /\
  (forall t, tokenizer (NewFieldIndexer tp (options ++ [TokenizerOption t])) = t /\
             transformer (NewFieldIndexer tp (options ++ [TokenizerOption t])) =
             transformer (NewFieldIndexer tp options)) /\
  (transformer (NewFieldIndexer tp []) = None /\ tokenizer (NewFieldIndexer tp []) = None).
Proof.
  intros Hopts.
  assert (Htp : fi_termPath (NewFieldIndexer tp options) = tp).
  { induction options as [|o options IH] using rev_ind; [reflexivity|].
    apply Forall_app in Hopts as [Hopts Ho]. inversion Ho as [|? ? Ho' _]; subst.
    rewrite NewFieldIndexer_snoc. destruct Ho'; exact (IH Hopts). }
  split; [exact Htp|]. split; [|split; [|split]].
  - intros other. unfold fieldIndexer_Equals. now rewrite Htp.
  - intros t. rewrite NewFieldIndexer_snoc. split; reflexivity.
  - intros t. rewrite NewFieldIndexer_snoc. split; reflexivity.
  - split; reflexivity.
Qed.

Lemma NewFieldIndexer_options_witness :
  Forall provided_option [TokenizerOption (Some WhiteSpaceTokenizer);
                          TransformerOption (Some (ToLower ascii_ToLower))] /\
  fi_termPath (NewFieldIndexer name_path
                 [TokenizerOption (Some WhiteSpaceTokenizer);
                  TransformerOption (Some (ToLower ascii_ToLower))]) = name_path.
Proof.
  assert (H : Forall provided_option [TokenizerOption (Some WhiteSpaceTokenizer);
                                      TransformerOption (Some (ToLower ascii_ToLower))])
    by (repeat constructor).
  split; [exact H|]. exact (proj1 (NewFieldIndexer_options name_path _ H)).
Defined.

(** ** The white space tokenizer *)

Lemma WhiteSpaceTokenizer_cons a rest :
  is_space a = false -> WhiteSpaceTokenizer (String a rest) <> [].
Proof.
  intros Ha. cbn [WhiteSpaceTokenizer]. rewrite Ha.
  destruct rest as [|b r]; [discriminate|].
  destruct (is_space b); [discriminate|].
  destruct (WhiteSpaceTokenizer (String b r)); discriminate.
Qed.

Lemma WhiteSpaceTokenizer_tokens text :
  Forall (fun t => t <> EmptyString /\ has_space t = false) (WhiteSpaceTokenizer text) /\
  String.concat EmptyString (WhiteSpaceTokenizer text) = without_space text.
Proof.
  induction text as [|a rest [IHt IHc]]; [split; [constructor | reflexivity]|].
  cbn [WhiteSpaceTokenizer without_space].
  destruct (is_space a) eqn:Ha; [split; assumption|].
  destruct rest as [|b r].
  - split; [|reflexivity]. repeat constructor; [discriminate | cbn; now rewrite Ha].
  - destruct (is_space b) eqn:Hb.
    + split.
      * constructor; [|assumption]. split; [discriminate | cbn; now rewrite Ha].
      * cbn [without_space] in *. rewrite Hb in *. rewrite <- IHc.
        cbn [WhiteSpaceTokenizer]. rewrite Hb.
        destruct (WhiteSpaceTokenizer r); reflexivity.
    + pose proof (WhiteSpaceTokenizer_cons b r Hb) as Hne.
      destruct (WhiteSpaceTokenizer (String b r)) as [|t ts]; [contradiction|].
      inversion IHt as [|? ? [Ht Hs] Hts]; subst. split.
      * constructor; [|assumption]. split; [discriminate|].
        cbn [has_space]. now rewrite Ha, Hs.
      * rewrite <- IHc. destruct ts; reflexivity.
Qed.

Lemma WhiteSpaceTokenizer_word text :
  text <> EmptyString -> has_space text = false -> WhiteSpaceTokenizer text = [text].
Proof.
  induction text as [|a rest IH]; intros Hne Hs; [contradiction|].
  cbn [has_space] in Hs. apply orb_false_iff in Hs as [Ha Hrest].
  cbn [WhiteSpaceTokenizer]. rewrite Ha. destruct rest as [|b r]; [reflexivity|].
  cbn [has_space] in Hrest. apply orb_false_iff in Hrest as [Hb Hr]. rewrite Hb.
  rewrite IH; [reflexivity | discriminate |]. cbn [has_space]. now rewrite Hb, Hr.
Qed.

(** X22. The tokens of the white space tokenizer are not empty and contain
    no white space; joined, they are the text without its white space, so
    no other character is lost or reordered; a text without white space is
    its own single token, so tokenizing a token gives the token back; and a
    text of white space only, the empty text included, has no token. *)
Theorem WhiteSpaceTokenizer_spec (text : string) :
  Forall (fun t => t <> EmptyString /\ has_space t = false) (WhiteSpaceTokenizer text) /\
  String.concat EmptyString (WhiteSpaceTokenizer text) = without_space text /\
  (text <> EmptyString -> has_space text = false -> WhiteSpaceTokenizer text = [text]) /\
  Forall (fun t => WhiteSpaceTokenizer t = [t]) (WhiteSpaceTokenizer text) /\
  (WhiteSpaceTokenizer text = [] <-> without_space text = EmptyString).
Proof.
  destruct (WhiteSpaceTokenizer_tokens text) as [Ht Hc].
  split; [exact Ht|]. split; [exact Hc|]. split; [apply WhiteSpaceTokenizer_word|]. split.
  - eapply Forall_impl; [exact Ht|]. intros t [Hne Hs]. now apply WhiteSpaceTokenizer_word.
  - rewrite <- Hc. split; [now intros ->|].
    destruct (WhiteSpaceTokenizer text) as [|t ts]; [reflexivity|].
    inversion Ht as [|? ? [Hne _] _]; subst. intros H. exfalso.
    destruct t as [|a t]; [contradiction|]. destruct ts; discriminate.
Qed.

Lemma WhiteSpaceTokenizer_spec_witness :
  "janedoe"%string <> EmptyString /\ has_space "janedoe" = false /\
  WhiteSpaceTokenizer "janedoe" = ["janedoe"%string].
Proof.
  split; [discriminate|]. split; [reflexivity|].
  apply (proj1 (proj2 (proj2 (WhiteSpaceTokenizer_spec "janedoe")))); [discriminate|reflexivity].
Defined.

(** ** Lower case *)

Lemma ascii_lower_idem a : ascii_lower (ascii_lower a) = ascii_lower a.
Proof.
  destruct a as [[] [] [] [] [] [] [] []]; vm_compute; reflexivity.
Qed.

Lemma ascii_ToLower_idem s : ascii_ToLower (ascii_ToLower s) = ascii_ToLower s.
Proof.
  induction s as [|a s IH]; [reflexivity|]. cbn [ascii_ToLower].
  now rewrite ascii_lower_idem, IH.
Qed.

(** X23. [ToLower] changes strings (and byte slices, which become strings)
    and nothing else: a boolean or a double is returned as it is. Where
    [strings.ToLower] applied twice is [strings.ToLower], so is [ToLower].
    With [ToLower] as the transform, the [Eq] condition of a string holds for
    the key of a transformed string exactly when the two strings have the
    same lower case. *)
Theorem ToLower_spec (strings_ToLower : string -> string) :
  (forall s, (forall x, value s <> VString x) -> (forall b, value s <> VBytes b) ->
             ToLower strings_ToLower s = s) /\
  (forall x, ToLower strings_ToLower (mkScalar (VString x)) =
             mkScalar (VString (strings_ToLower x))) /\
  ((forall x, strings_ToLower (strings_ToLower x) = strings_ToLower x) ->
   forall s, ToLower strings_ToLower (ToLower strings_ToLower s) = ToLower strings_ToLower s) /\
  (forall tp x y,
      Condition (Eq tp (mkScalar (VString x)))
                (Bytes (ToLower strings_ToLower (mkScalar (VString y))))
                (Some (ToLower strings_ToLower)) = true <->
      strings_ToLower x = strings_ToLower y).
Proof.
  split; [|split; [|split]].
  - intros [v] Hs Hb. unfold ToLower. cbn [value] in *.
    destruct v; try reflexivity; [destruct (Hs s eq_refl) | destruct (Hb b eq_refl)].
  - reflexivity.
  - intros Hidem [v]. unfold ToLower. cbn [value].
    destruct v; cbn [value]; try reflexivity; now rewrite Hidem.
  - intros tp x y. rewrite Condition_Eq_iff. cbn [transformed_by].
    unfold ToLower, Bytes. cbn [value]. split.
    + intros H. symmetry. now apply bytes_of_string_inj.
    + now intros ->.
Qed.

Lemma ToLower_spec_witness :
  (forall x, ascii_ToLower (ascii_ToLower x) = ascii_ToLower x) /\
  ToLower ascii_ToLower (ToLower ascii_ToLower (mkScalar (VString "Jane Doe"))) =
  ToLower ascii_ToLower (mkScalar (VString "Jane Doe")) /\
  ToLower ascii_ToLower (mkScalar (VString "Jane Doe")) = mkScalar (VString "jane doe").
Proof.
  split; [exact ascii_ToLower_idem|]. split; [|reflexivity].
  exact (proj1 (proj2 (proj2 (ToLower_spec ascii_ToLower))) ascii_ToLower_idem
               (mkScalar (VString "Jane Doe"))).
Defined.

(** ** References *)

Lemma hex_digit_inj a b :
  0 <= a < 16 -> 0 <= b < 16 -> hex_digit a = hex_digit b -> a = b.
Proof.
  intros Ha Hb.
  assert (Ea : a = 0 \/ a = 1 \/ a = 2 \/ a = 3 \/ a = 4 \/ a = 5 \/ a = 6 \/ a = 7 \/
               a = 8 \/ a = 9 \/ a = 10 \/ a = 11 \/ a = 12 \/ a = 13 \/ a = 14 \/ a = 15)
    by lia.
  assert (Eb : b = 0 \/ b = 1 \/ b = 2 \/ b = 3 \/ b = 4 \/ b = 5 \/ b = 6 \/ b = 7 \/
               b = 8 \/ b = 9 \/ b = 10 \/ b = 11 \/ b = 12 \/ b = 13 \/ b = 14 \/ b = 15)
    by lia.
  repeat (destruct Ea as [-> | Ea]); try subst a;
    repeat (destruct Eb as [-> | Eb]); try subst b;
    vm_compute; intros H; try reflexivity; discriminate H.
Qed.

Lemma nibbles (v : Z) : 0 <= v < 256 ->
  0 <= Z.shiftr v 4 < 16 /\ 0 <= Z.land v 15 < 16 /\ v = 16 * Z.shiftr v 4 + Z.land v 15.
Proof.
  intros Hv. rewrite Z.shiftr_div_pow2 by lia. change 15 with (Z.ones 4).
  rewrite Z.land_ones by lia. change (2 ^ 4) with 16.
  pose proof (Z.div_mod v 16 ltac:(lia)). pose proof (Z.mod_pos_bound v 16 ltac:(lia)).
  assert (0 <= v / 16 < 16) by (split; [apply Z.div_pos; lia | apply Z.div_lt_upper_bound; lia]).
  lia.
Qed.

(** X24. The hex string of a reference has two characters for each of its
    bytes, and references with the same hex string are the same
    reference. *)
Theorem Reference_EncodeToString_spec (r r' : list Z) :
  String.length (Reference_EncodeToString r) = (2 * Reference_ByteSize r)%nat /\
  (Forall is_byte r -> Forall is_byte r' ->
   Reference_EncodeToString r = Reference_EncodeToString r' -> r = r').
Proof.
  unfold Reference_EncodeToString, Reference_ByteSize. split.
  - induction r as [|v r IH]; [reflexivity|].
    cbn [hex_EncodeToString String.length length]. rewrite IH. lia.
  - revert r'. induction r as [|v r IH]; intros [|v' r'] Hr Hr'; cbn [hex_EncodeToString];
      try discriminate; [reflexivity|].
    inversion Hr as [|? ? Hv Hr0]; inversion Hr' as [|? ? Hv' Hr0']; subst.
    intros [= H1 H2 H3].
    destruct (nibbles v Hv) as (A1 & A2 & A3). destruct (nibbles v' Hv') as (B1 & B2 & B3).
    apply hex_digit_inj in H1; [|assumption..]. apply hex_digit_inj in H2; [|assumption..].
    f_equal; [lia | now apply IH].
Qed.

(** [Reference("ref").EncodeToString()] is ["726566"], as the package's
    test has it. *)
Lemma Reference_EncodeToString_spec_witness :
  Forall is_byte (bytes_of_string "ref") /\
  Reference_EncodeToString (bytes_of_string "ref") = "726566"%string /\
  (forall r', Forall is_byte r' ->
              Reference_EncodeToString (bytes_of_string "ref") = Reference_EncodeToString r' ->
              bytes_of_string "ref" = r').
Proof.
  assert (H : Forall is_byte (bytes_of_string "ref")) by apply bytes_of_string_range.
  split; [exact H|]. split; [reflexivity|].
  intros r' Hr'. exact (proj2 (Reference_EncodeToString_spec _ r') H Hr').
Defined.
